(** * exifr: the TIFF/EXIF segment parser (src/parsers/tiff.mjs)

    A shallow embedding of [TiffCore] and [Tiff] and the properties of the
    decoder: header validation, directory entries (inline or out-of-line
    values), directory tables, the five IFD blocks and the shape of the
    output. *)

From Stdlib Require Import ZArith List Bool String Ascii Strings.Byte Lia.
From Stdlib Require Import Floats.SpecFloat.
From stdpp Require Import base gmap strings list fin_maps.

Import ListNotations.
Local Open Scope Z_scope.

(** ** Errors

    The source throws plain [Error] objects that differ by their message;
    the kinds below name the messages:
    - ['Invalid EXIF data: ...'] (byte order marker, 0x002A, IFD0 offset):
      [MalformedHeader];
    - ['Invalid tiff type ...']: [UnknownFieldType];
    - ['tiff value offset ... is out of chunk size ...'] and the range error
      of the byte reader: [OffsetOutOfBounds];
    - a failure inside the collaborators of [postProcess] (tag translation,
      GPS conversion): [CollaboratorFailure]. *)
Inductive TiffError : Type :=
| MalformedHeader
| UnknownFieldType
| OffsetOutOfBounds
| CollaboratorFailure.

Inductive result (A : Type) : Type :=
| OK (a : A)
| Err (e : TiffError).
Arguments OK {A} a.
Arguments Err {A} e.

Definition bind {A B : Type} (m : result A) (k : A -> result B) : result B :=
  match m with
  | OK a => k a
  | Err e => Err e
  end.

Notation "'let*' x ':=' m 'in' k" := (bind m (fun x => k))
  (at level 10, x pattern, m at level 100, k at level 200).

(** ** The byte reader

    [BufferView] (src/util/BufferView.mjs) is not part of the sources at
    hand; the parser uses its reads, its [le] flag and
    [view.buffer.byteLength]. *)

(** Modelled from the spec: the Byte Buffer View, "an immutable, bounds-known
    view over the TIFF byte range, with an endianness flag".  [bytes] are the
    bytes visible through the view (offset 0 is the start of the TIFF header),
    [bufferByteLength] is the byte length of the buffer the view is cut from
    ([view.buffer.byteLength]), [le] the endianness flag. *)
Record BufferView : Type := mkView {
  bytes : list byte;
  bufferByteLength : Z;
  le : bool
}.

Definition byteLength (v : BufferView) : Z := Z.of_nat (List.length (bytes v)).

(** A view never extends past the buffer it is cut from. *)
Definition wf_view (v : BufferView) : Prop := byteLength v <= bufferByteLength v.

Definition set_le (v : BufferView) (b : bool) : BufferView :=
  {| bytes := bytes v; bufferByteLength := bufferByteLength v; le := b |}.

(** Modelled from the spec: "reading past the buffer surfaces as
    OffsetOutOfBounds from the underlying reader".  [getBytes v off n] are
    the [n] bytes at offset [off] of the view. *)
Definition getBytes (v : BufferView) (off n : Z) : result (list byte) :=
  if (0 <=? off) && (0 <=? n) && (off + n <=? byteLength v)
  then OK (firstn (Z.to_nat n) (skipn (Z.to_nat off) (bytes v)))
  else Err OffsetOutOfBounds.

Definition byteVal (b : byte) : Z := Z.of_N (Byte.to_N b).

(** The unsigned value of a byte string, least significant byte first. *)
Fixpoint uintLE (bs : list byte) : Z :=
  match bs with
  | [] => 0
  | b :: r => byteVal b + 256 * uintLE r
  end.

Definition uintOf (littleEndian : bool) (bs : list byte) : Z :=
  if littleEndian then uintLE bs else uintLE (rev bs).

(** Two's complement reading of a [w]-bit unsigned value. *)
Definition toSigned (w : Z) (x : Z) : Z :=
  if x <? 2 ^ (w - 1) then x else x - 2 ^ w.

(** Modelled from the spec: the reads of the Byte Reader contract, "u8/u16/u32
    unsigned, i8/i16/i32 signed, 32-bit float, 64-bit float, fixed-length
    ASCII, fixed-length raw-slice, each taking an absolute byte offset and
    respecting a previously set endianness". *)
Definition getUint8 (v : BufferView) (off : Z) : result Z :=
  let* bs := getBytes v off 1 in OK (uintLE bs).

Definition getUint16 (v : BufferView) (off : Z) : result Z :=
  let* bs := getBytes v off 2 in OK (uintOf (le v) bs).

Definition getUint32 (v : BufferView) (off : Z) : result Z :=
  let* bs := getBytes v off 4 in OK (uintOf (le v) bs).

Definition getInt8 (v : BufferView) (off : Z) : result Z :=
  let* bs := getBytes v off 1 in OK (toSigned 8 (uintLE bs)).

Definition getInt16 (v : BufferView) (off : Z) : result Z :=
  let* bs := getBytes v off 2 in OK (toSigned 16 (uintOf (le v) bs)).

Definition getInt32 (v : BufferView) (off : Z) : result Z :=
  let* bs := getBytes v off 4 in OK (toSigned 32 (uintOf (le v) bs)).

(** JavaScript numbers are IEEE 754 binary64 values. *)
Definition number : Type := spec_float.

Definition numberOfZ (n : Z) : number := binary_normalize 53 1024 n 0 false.

(** The [/] of JavaScript. *)
Definition numberDiv (x y : number) : number := SFdiv 53 1024 x y.

Definition isFinite (x : number) : bool :=
  match x with
  | S754_zero _ | S754_finite _ _ _ => true
  | S754_infinity _ | S754_nan => false
  end.

(** The integer a number is, when it is one: 56/1 is the number 56. *)
Definition integralValue (x : number) : option Z :=
  match x with
  | S754_zero _ => Some 0
  | S754_finite s m e =>
      if 0 <=? e then
        Some (if s then - (Zpos m * 2 ^ e) else Zpos m * 2 ^ e)
      else if Zpos m mod 2 ^ (- e) =? 0 then
        Some (if s then - (Zpos m / 2 ^ (- e)) else Zpos m / 2 ^ (- e))
      else None
  | S754_infinity _ | S754_nan => None
  end.

(** The value of an IEEE 754 bit pattern with [ebits] exponent bits and
    [mbits] fraction bits. *)
Definition numberOfBits (ebits mbits : Z) (x : Z) : number :=
  let s := Z.testbit x (ebits + mbits) in
  let e := Z.land (Z.shiftr x mbits) (2 ^ ebits - 1) in
  let m := Z.land x (2 ^ mbits - 1) in
  let bias := 2 ^ (ebits - 1) - 1 in
  if e =? 2 ^ ebits - 1 then
    if m =? 0 then S754_infinity s else S754_nan
  else if e =? 0 then
    match m with
    | Zpos p => S754_finite s p (1 - bias - mbits)
    | _ => S754_zero s
    end
  else
    match m + 2 ^ mbits with
    | Zpos p => S754_finite s p (e - bias - mbits)
    | _ => S754_zero s
    end.

Definition getFloat (v : BufferView) (off : Z) : result number :=
  let* bs := getBytes v off 4 in OK (numberOfBits 8 23 (uintOf (le v) bs)).

Definition getDouble (v : BufferView) (off : Z) : result number :=
  let* bs := getBytes v off 8 in OK (numberOfBits 11 52 (uintOf (le v) bs)).

Definition stringOfBytes (bs : list byte) : string :=
  string_of_list_ascii (map ascii_of_byte bs).

Definition getString (v : BufferView) (off n : Z) : result string :=
  let* bs := getBytes v off n in OK (stringOfBytes bs).

(** [slice(view, start, end)]: the raw sub-range [[start, end)]. *)
Definition slice (v : BufferView) (start stop : Z) : result (list byte) :=
  getBytes v start (stop - start).

(** ** Tag values

    A number read by one of the integer reads is carried exactly ([VInt]); a
    quotient or an IEEE read is a binary64 value ([VFloat]).  ASCII entries
    decode to one string, UNDEFINED entries to one byte slice, the other
    types with a count different from 1 to an array. *)
#[local] Unset Elimination Schemes.
Inductive Value : Type :=
| VInt (n : Z)
| VFloat (x : number)
| VString (s : string)
| VBytes (b : list byte)
| VArray (l : list Value).
#[local] Set Elimination Schemes.

(** [SIZE_LOOKUP]; a code that is not a key of the table looks up
    [undefined]. *)
Definition SIZE_LOOKUP (type : Z) : option Z :=
  match type with
  | 1 => Some 1   (* BYTE *)
  | 2 => Some 1   (* ASCII *)
  | 3 => Some 2   (* SHORT *)
  | 4 => Some 4   (* LONG *)
  | 5 => Some 8   (* RATIONAL *)
  | 6 => Some 1   (* SBYTE *)
  | 7 => Some 1   (* UNDEFINED *)
  | 8 => Some 2   (* SSHORT *)
  | 9 => Some 4   (* SLONG *)
  | 10 => Some 8  (* SRATIONAL *)
  | 11 => Some 4  (* FLOAT *)
  | 12 => Some 8  (* DOUBLE *)
  | 13 => Some 4  (* IFD *)
  | _ => None
  end.

(** ** Directory blocks

    A block is a JavaScript object used as a mapping.  Its keys are the tag
    codes the directory decoder writes; [postProcess] may relabel them with
    names of the tag dictionary and adds [latitude] and [longitude]. *)
Inductive Key : Type :=
| Tag (code : Z)
| Name (name : string).

#[global] Instance Key_eq_dec : EqDecision Key.
Proof. solve_decision. Defined.

#[global] Instance Key_countable : Countable Key.
Proof.
  refine (inj_countable'
    (fun k => match k with Tag c => inl c | Name n => inr n end)
    (fun x => match x with inl c => Tag c | inr n => Name n end) _).
  intros []; reflexivity.
Defined.

Abbreviation Block := (gmap Key Value).

(** Tag codes of src/tags.mjs (not part of the sources at hand); the comments
    above [parseExifBlock], [parseGpsBlock] and [parseInteropBlock] give the
    codes. *)
Definition TAG_IFD_EXIF : Z := 0x8769.
Definition TAG_IFD_GPS : Z := 0x8825.
Definition TAG_IFD_INTEROP : Z := 0xA005.

Definition TIFF_LITTLE_ENDIAN : Z := 0x4949.
Definition TIFF_BIG_ENDIAN : Z := 0x4D4D.

Definition blockKeys : list string :=
  ["ifd0"; "exif"; "gps"; "interop"; "thumbnail"]%string.

(** The options the parser reads. *)
Record Options : Type := mkOptions {
  pickTags : list Z;
  skipTags : list Z;
  opt_exif : bool;
  opt_gps : bool;
  opt_interop : bool;
  opt_thumbnail : bool;
  mergeOutput : bool;
  sanitize : bool;
  opt_postProcess : bool;
  translateTags : bool;
  reviveValues : bool
}.

Definition includes (l : list Z) (x : Z) : bool := existsb (Z.eqb x) l.

Module TiffCore.

(** [parseTagValue(type, offset)] *)
Definition parseTagValue (v : BufferView) (type offset : Z) : result Value :=
  match type with
  | 1 => let* n := getUint8 v offset in OK (VInt n)
  | 3 => let* n := getUint16 v offset in OK (VInt n)
  | 4 => let* n := getUint32 v offset in OK (VInt n)
  | 5 => let* n := getUint32 v offset in
         let* d := getUint32 v (offset + 4) in
         OK (VFloat (numberDiv (numberOfZ n) (numberOfZ d)))
  | 6 => let* n := getInt8 v offset in OK (VInt n)
  | 8 => let* n := getInt16 v offset in OK (VInt n)
  | 9 => let* n := getInt32 v offset in OK (VInt n)
  | 10 => let* n := getInt32 v offset in
          let* d := getInt32 v (offset + 4) in
          OK (VFloat (numberDiv (numberOfZ n) (numberOfZ d)))
  | 11 => let* x := getFloat v offset in OK (VFloat x)
  | 12 => let* x := getDouble v offset in OK (VFloat x)
  | 13 => let* n := getUint32 v offset in OK (VInt n)
  | _ => Err UnknownFieldType
  end.

(** [string.endsWith(c)] for a one-character [c]. *)
Fixpoint endsWith (s : string) (c : ascii) : bool :=
  match s with
  | EmptyString => false
  | String a EmptyString => Ascii.eqb a c
  | String _ r => endsWith r c
  end.

(** [string.slice(0, -1)] *)
Fixpoint sliceInit (s : string) : string :=
  match s with
  | EmptyString => EmptyString
  | String _ EmptyString => EmptyString
  | String a r => String a (sliceInit r)
  end.

(** [while (string.endsWith('\0')) string = string.slice(0, -1)]: every
    turn of the loop shortens the string, so its length bounds the turns. *)
Fixpoint stripLoop (turns : nat) (s : string) : string :=
  match turns with
  | O => s
  | S n => if endsWith s zero then stripLoop n (sliceInit s) else s
  end.

Definition removeNullTerminator (s : string) : string :=
  stripLoop (String.length s) s.

(** [valueByteSize * valuesCount <= 4]; with [valueByteSize] undefined the
    product is NaN and the comparison is false. *)
Definition fitsInline (valueByteSize : option Z) (valuesCount : Z) : bool :=
  match valueByteSize with
  | Some w => w * valuesCount <=? 4
  | None => false
  end.

(** [valueOffset += valueByteSize]; with [valueByteSize] undefined the sum is
    NaN, which no read follows ([parseTagValue] has thrown before). *)
Definition advance (valueOffset : Z) (valueByteSize : option Z) : Z :=
  match valueByteSize with
  | Some w => valueOffset + w
  | None => valueOffset
  end.

(** The [for] loop of [parseTag], [turns] iterations left. *)
Fixpoint parseTagArray (v : BufferView) (type : Z) (valueByteSize : option Z)
    (turns : nat) (res : list Value) (valueOffset : Z) : result (list Value) :=
  match turns with
  | O => OK res
  | S n =>
      let* x := parseTagValue v type valueOffset in
      parseTagArray v type valueByteSize n (res ++ [x]) (advance valueOffset valueByteSize)
  end.

(** [parseTag(offset)] *)
Definition parseTag (v : BufferView) (offset : Z) : result Value :=
  let* type := getUint16 v (offset + 2) in
  let* valuesCount := getUint32 v (offset + 4) in
  let valueByteSize := SIZE_LOOKUP type in
  let* valueOffset :=
    if fitsInline valueByteSize valuesCount then OK (offset + 8)
    else getUint32 v (offset + 8) in
  if valueOffset >? bufferByteLength v then Err OffsetOutOfBounds
  else if type =? 2 then
    let* s := getString v valueOffset valuesCount in
    OK (VString (removeNullTerminator s))
  else if type =? 7 then
    let* b := slice v valueOffset (valueOffset + valuesCount) in
    OK (VBytes b)
  else if valuesCount =? 1 then
    parseTagValue v type valueOffset
  else
    let* res := parseTagArray v type valueByteSize (Z.to_nat valuesCount) [] valueOffset in
    OK (VArray res).

(** The body of the [for] loop of [parseTags], [turns] entries left. *)
Fixpoint parseEntries (v : BufferView) (o : Options) (turns : nat)
    (offset : Z) (output : Block) : result Block :=
  match turns with
  | O => OK output
  | S n =>
      let* tag := getUint16 v offset in
      let* output' :=
        if includes (pickTags o) tag || negb (includes (skipTags o) tag)
        then let* val := parseTag v offset in OK (<[Tag tag := val]> output)
        else OK output in
      parseEntries v o n (offset + 12) output'
  end.

(** [parseTags(offset)] *)
Definition parseTags (v : BufferView) (o : Options) (offset : Z) : result Block :=
  let* entriesCount := getUint16 v offset in
  parseEntries v o (Z.to_nat entriesCount) (offset + 2) ∅.

(** [parseHeader()]: [this.le] and [this.view.le] receive the same flag, kept
    here as the one flag of the view.  The first read has no offset argument
    and reads the word at offset 0. *)
Definition parseHeader (v : BufferView) : result BufferView :=
  let* byteOrder := getUint16 v 0 in
  let* littleEndian :=
    if byteOrder =? TIFF_LITTLE_ENDIAN then OK true
    else if byteOrder =? TIFF_BIG_ENDIAN then OK false
    else Err MalformedHeader in
  let v := set_le v littleEndian in
  let* magic := getUint16 v 2 in
  if negb (magic =? 0x002A) then Err MalformedHeader
  else OK v.

End TiffCore.


(** The tags of the thumbnail directory that [extractThumbnail] reads. *)
Definition THUMB_OFFSET : Z := 0x0201.
Definition THUMB_LENGTH : Z := 0x0202.

(** ** The Tiff parser *)

(** The value [parse] returns: one flat mapping, or a mapping from block name
    to block. *)
Inductive Output : Type :=
| Merged (tags : Block)
| Grouped (blocks : gmap string Block).

Module Tiff.

(** The fields of a [Tiff] instance; [None] is [undefined]. *)
Record Tiff : Type := mkTiff {
  view : BufferView;
  options : Options;
  ifd0 : option Block;
  exif : option Block;
  gps : option Block;
  interop : option Block;
  thumbnail : option Block;
  ifd0Offset : option Z;
  exifOffset : option Value;
  interopOffset : option Value;
  gpsOffset : option Value;
  ifd1Offset : option Z;
  thumbnailParsed : bool;
  output : option Output
}.

(** A new instance over a view. *)
Definition create (v : BufferView) (o : Options) : Tiff :=
  {| view := v; options := o;
     ifd0 := None; exif := None; gps := None; interop := None; thumbnail := None;
     ifd0Offset := None; exifOffset := None; interopOffset := None; gpsOffset := None;
     ifd1Offset := None; thumbnailParsed := false; output := None |}.

(** Assignments to one field. *)
Definition set_view (t : Tiff) (x : BufferView) : Tiff :=
  {| view := x;
     options := options t;
     ifd0 := ifd0 t;
     exif := exif t;
     gps := gps t;
     interop := interop t;
     thumbnail := thumbnail t;
     ifd0Offset := ifd0Offset t;
     exifOffset := exifOffset t;
     interopOffset := interopOffset t;
     gpsOffset := gpsOffset t;
     ifd1Offset := ifd1Offset t;
     thumbnailParsed := thumbnailParsed t;
     output := output t |}.

Definition set_options (t : Tiff) (x : Options) : Tiff :=
  {| view := view t;
     options := x;
     ifd0 := ifd0 t;
     exif := exif t;
     gps := gps t;
     interop := interop t;
     thumbnail := thumbnail t;
     ifd0Offset := ifd0Offset t;
     exifOffset := exifOffset t;
     interopOffset := interopOffset t;
     gpsOffset := gpsOffset t;
     ifd1Offset := ifd1Offset t;
     thumbnailParsed := thumbnailParsed t;
     output := output t |}.

Definition set_ifd0 (t : Tiff) (x : option Block) : Tiff :=
  {| view := view t;
     options := options t;
     ifd0 := x;
     exif := exif t;
     gps := gps t;
     interop := interop t;
     thumbnail := thumbnail t;
     ifd0Offset := ifd0Offset t;
     exifOffset := exifOffset t;
     interopOffset := interopOffset t;
     gpsOffset := gpsOffset t;
     ifd1Offset := ifd1Offset t;
     thumbnailParsed := thumbnailParsed t;
     output := output t |}.

Definition set_exif (t : Tiff) (x : option Block) : Tiff :=
  {| view := view t;
     options := options t;
     ifd0 := ifd0 t;
     exif := x;
     gps := gps t;
     interop := interop t;
     thumbnail := thumbnail t;
     ifd0Offset := ifd0Offset t;
     exifOffset := exifOffset t;
     interopOffset := interopOffset t;
     gpsOffset := gpsOffset t;
     ifd1Offset := ifd1Offset t;
     thumbnailParsed := thumbnailParsed t;
     output := output t |}.

Definition set_gps (t : Tiff) (x : option Block) : Tiff :=
  {| view := view t;
     options := options t;
     ifd0 := ifd0 t;
     exif := exif t;
     gps := x;
     interop := interop t;
     thumbnail := thumbnail t;
     ifd0Offset := ifd0Offset t;
     exifOffset := exifOffset t;
     interopOffset := interopOffset t;
     gpsOffset := gpsOffset t;
     ifd1Offset := ifd1Offset t;
     thumbnailParsed := thumbnailParsed t;
     output := output t |}.

Definition set_interop (t : Tiff) (x : option Block) : Tiff :=
  {| view := view t;
     options := options t;
     ifd0 := ifd0 t;
     exif := exif t;
     gps := gps t;
     interop := x;
     thumbnail := thumbnail t;
     ifd0Offset := ifd0Offset t;
     exifOffset := exifOffset t;
     interopOffset := interopOffset t;
     gpsOffset := gpsOffset t;
     ifd1Offset := ifd1Offset t;
     thumbnailParsed := thumbnailParsed t;
     output := output t |}.

Definition set_thumbnail (t : Tiff) (x : option Block) : Tiff :=
  {| view := view t;
     options := options t;
     ifd0 := ifd0 t;
     exif := exif t;
     gps := gps t;
     interop := interop t;
     thumbnail := x;
     ifd0Offset := ifd0Offset t;
     exifOffset := exifOffset t;
     interopOffset := interopOffset t;
     gpsOffset := gpsOffset t;
     ifd1Offset := ifd1Offset t;
     thumbnailParsed := thumbnailParsed t;
     output := output t |}.

Definition set_ifd0Offset (t : Tiff) (x : option Z) : Tiff :=
  {| view := view t;
     options := options t;
     ifd0 := ifd0 t;
     exif := exif t;
     gps := gps t;
     interop := interop t;
     thumbnail := thumbnail t;
     ifd0Offset := x;
     exifOffset := exifOffset t;
     interopOffset := interopOffset t;
     gpsOffset := gpsOffset t;
     ifd1Offset := ifd1Offset t;
     thumbnailParsed := thumbnailParsed t;
     output := output t |}.

Definition set_exifOffset (t : Tiff) (x : option Value) : Tiff :=
  {| view := view t;
     options := options t;
     ifd0 := ifd0 t;
     exif := exif t;
     gps := gps t;
     interop := interop t;
     thumbnail := thumbnail t;
     ifd0Offset := ifd0Offset t;
     exifOffset := x;
     interopOffset := interopOffset t;
     gpsOffset := gpsOffset t;
     ifd1Offset := ifd1Offset t;
     thumbnailParsed := thumbnailParsed t;
     output := output t |}.

Definition set_interopOffset (t : Tiff) (x : option Value) : Tiff :=
  {| view := view t;
     options := options t;
     ifd0 := ifd0 t;
     exif := exif t;
     gps := gps t;
     interop := interop t;
     thumbnail := thumbnail t;
     ifd0Offset := ifd0Offset t;
     exifOffset := exifOffset t;
     interopOffset := x;
     gpsOffset := gpsOffset t;
     ifd1Offset := ifd1Offset t;
     thumbnailParsed := thumbnailParsed t;
     output := output t |}.

Definition set_gpsOffset (t : Tiff) (x : option Value) : Tiff :=
  {| view := view t;
     options := options t;
     ifd0 := ifd0 t;
     exif := exif t;
     gps := gps t;
     interop := interop t;
     thumbnail := thumbnail t;
     ifd0Offset := ifd0Offset t;
     exifOffset := exifOffset t;
     interopOffset := interopOffset t;
     gpsOffset := x;
     ifd1Offset := ifd1Offset t;
     thumbnailParsed := thumbnailParsed t;
     output := output t |}.

Definition set_ifd1Offset (t : Tiff) (x : option Z) : Tiff :=
  {| view := view t;
     options := options t;
     ifd0 := ifd0 t;
     exif := exif t;
     gps := gps t;
     interop := interop t;
     thumbnail := thumbnail t;
     ifd0Offset := ifd0Offset t;
     exifOffset := exifOffset t;
     interopOffset := interopOffset t;
     gpsOffset := gpsOffset t;
     ifd1Offset := x;
     thumbnailParsed := thumbnailParsed t;
     output := output t |}.

Definition set_thumbnailParsed (t : Tiff) (x : bool) : Tiff :=
  {| view := view t;
     options := options t;
     ifd0 := ifd0 t;
     exif := exif t;
     gps := gps t;
     interop := interop t;
     thumbnail := thumbnail t;
     ifd0Offset := ifd0Offset t;
     exifOffset := exifOffset t;
     interopOffset := interopOffset t;
     gpsOffset := gpsOffset t;
     ifd1Offset := ifd1Offset t;
     thumbnailParsed := x;
     output := output t |}.

Definition set_output (t : Tiff) (x : option Output) : Tiff :=
  {| view := view t;
     options := options t;
     ifd0 := ifd0 t;
     exif := exif t;
     gps := gps t;
     interop := interop t;
     thumbnail := thumbnail t;
     ifd0Offset := ifd0Offset t;
     exifOffset := exifOffset t;
     interopOffset := interopOffset t;
     gpsOffset := gpsOffset t;
     ifd1Offset := ifd1Offset t;
     thumbnailParsed := thumbnailParsed t;
     output := x |}.

(** Truthiness of a JavaScript value: [0], [NaN] and the empty string are
    falsy, objects (slices, arrays) are truthy. *)
Definition truthy (x : Value) : bool :=
  match x with
  | VInt n => negb (n =? 0)
  | VFloat (S754_zero _) | VFloat S754_nan => false
  | VFloat _ => true
  | VString s => negb (String.eqb s EmptyString)
  | VBytes _ | VArray _ => true
  end.

(** [a || b] on values that may be [undefined]. *)
Definition jsOr (a b : option Value) : option Value :=
  match a with
  | Some x => if truthy x then a else b
  | None => b
  end.

(** The integer a value is, when it is an integer number: JavaScript has one
    type of numbers, and the quotient 56/1 of a RATIONAL entry is the number
    56 of a LONG entry. *)
Definition integerOf (x : Value) : option Z :=
  match x with
  | VInt n => Some n
  | VFloat f => integralValue f
  | VString _ | VBytes _ | VArray _ => None
  end.

(** Modelled from the spec: the Byte Reader reads "taking an absolute byte
    offset".  A pointer that is an integer number, however its entry was
    typed, is that offset.  A pointer that is not an integer number (a field
    that was never assigned, a pointer tag whose entry decoded to a string, a
    slice or an array, a number with a fraction, an infinity or NaN) is not
    an offset of the view; what the reader of src/util/BufferView.mjs does
    with it is not in the sources at hand, and the read is given the
    reader's one failure. *)
Definition asOffset (p : option Value) : result Z :=
  match p with
  | Some (VInt n) => OK n
  | Some (VFloat f) =>
      match integralValue f with
      | Some n => OK n
      | None => Err OffsetOutOfBounds
      end
  | _ => Err OffsetOutOfBounds
  end.

Definition isSome {A : Type} (x : option A) : bool :=
  match x with Some _ => true | None => false end.

(** [parseIfd0Block()] *)
Definition parseIfd0Block (t : Tiff) : result Tiff :=
  if isSome (ifd0 t) then OK t
  else
    let* off := getUint32 (view t) 4 in
    let t := set_ifd0Offset t (Some off) in
    if off <? 8 then Err MalformedHeader
    else
      let* tags := TiffCore.parseTags (view t) (options t) off in
      let t := set_ifd0 t (Some tags) in
      if (size tags =? 0)%nat then OK t
      else
        let t := set_exifOffset t (tags !! Tag TAG_IFD_EXIF) in
        let t := set_interopOffset t (tags !! Tag TAG_IFD_INTEROP) in
        let t := set_gpsOffset t (tags !! Tag TAG_IFD_GPS) in
        if sanitize (options t) then
          OK (set_ifd0 t (Some (delete (Tag TAG_IFD_GPS)
                                 (delete (Tag TAG_IFD_INTEROP)
                                   (delete (Tag TAG_IFD_EXIF) tags)))))
        else OK t.

(** [parseExifBlock()] *)
Definition parseExifBlock (t : Tiff) : result Tiff :=
  if isSome (exif t) then OK t
  else
    match exifOffset t with
    | None => OK t
    | Some p =>
        let* off := asOffset (Some p) in
        let* tags := TiffCore.parseTags (view t) (options t) off in
        OK (set_exif t (Some tags))
    end.

(** [parseGpsBlock()] *)
Definition parseGpsBlock (t : Tiff) : result Tiff :=
  if isSome (gps t) then OK t
  else
    match gpsOffset t with
    | None => OK t
    | Some p =>
        let* off := asOffset (Some p) in
        let* tags := TiffCore.parseTags (view t) (options t) off in
        OK (set_gps t (Some tags))
    end.

(** [this.exif && this.exif[TAG_IFD_INTEROP]] *)
Definition exifInteropPointer (t : Tiff) : option Value :=
  match exif t with
  | Some e => e !! Tag TAG_IFD_INTEROP
  | None => None
  end.

(** [parseInteropBlock()] *)
Definition parseInteropBlock (t : Tiff) : result Tiff :=
  if isSome (interop t) then OK t
  else
    let t := set_interopOffset t (jsOr (interopOffset t) (exifInteropPointer t)) in
    match interopOffset t with
    | None => OK t
    | Some p =>
        let* off := asOffset (Some p) in
        let* tags := TiffCore.parseTags (view t) (options t) off in
        OK (set_interop t (Some tags))
    end.

(** [parseThumbnailBlock(force = false)]; the second component is the value
    returned: [None] for [undefined]. *)
Definition parseThumbnailBlock (force : bool) (t : Tiff) : result (Tiff * option bool) :=
  if isSome (thumbnail t) || thumbnailParsed t then OK (t, None)
  else if mergeOutput (options t) && negb force then OK (t, Some false)
  else
    let* base := asOffset (VInt <$> ifd0Offset t) in
    let* ifd0Entries := getUint16 (view t) base in
    let temp := base + 2 + ifd0Entries * 12 in
    let* p := getUint32 (view t) temp in
    let t := set_ifd1Offset t (Some p) in
    if p =? 0 then OK (t, Some false)
    else
      let* tags := TiffCore.parseTags (view t) (options t) p in
      let t := set_thumbnail t (Some tags) in
      let t := set_thumbnailParsed t true in
      OK (t, Some true).

(** [Object.assign(target, source)]; an [undefined] source is skipped, a key
    of the source overwrites the key of the target. *)
Definition assign (target : Block) (source : option Block) : Block :=
  match source with
  | Some b => b ∪ target
  | None => target
  end.

(** The block of a given name, [this[key]]. *)
Definition block (t : Tiff) (key : string) : option Block :=
  if String.eqb key "ifd0" then ifd0 t
  else if String.eqb key "exif" then exif t
  else if String.eqb key "gps" then gps t
  else if String.eqb key "interop" then interop t
  else if String.eqb key "thumbnail" then thumbnail t
  else None.

(** The calls of [parse] up to [postProcess]. *)
Definition parseBlocks (t : Tiff) : result Tiff :=
  let* v := TiffCore.parseHeader (view t) in
  let t := set_view t v in
  let* t := parseIfd0Block t in
  let* t := if opt_exif (options t) then parseExifBlock t else OK t in
  let* t := if opt_gps (options t) then parseGpsBlock t else OK t in
  let* t := if opt_interop (options t) then parseInteropBlock t else OK t in
  if opt_thumbnail (options t)
  then let* r := parseThumbnailBlock false t in OK (fst r)
  else OK t.

(** [Object.assign({}, ifd0, exif, gps, interop, thumbnail)] *)
Definition mergedTags (t : Tiff) : Block :=
  fold_left assign [ifd0 t; exif t; gps t; interop t; thumbnail t] ∅.

(** The [for] loop over [blockKeys] that fills [this.output]. *)
Definition groupedBlocks (t : Tiff) : gmap string Block :=
  fold_left
    (fun out key =>
       match block t key with
       | Some blockOutput => <[key := blockOutput]> out
       | None => out
       end)
    blockKeys ∅.

(** The statements of [parse] after [postProcess]. *)
Definition buildOutput (t : Tiff) : Output :=
  if mergeOutput (options t) then Merged (mergedTags t)
  else Grouped (groupedBlocks t).

Section PostProcess.

(** The collaborators of [postProcess] (src/parsers/tiff-tags.mjs and the tag
    dictionary of src/tags.mjs) are not part of the sources at hand.
    [enrich translateTags reviveValues blocks] stands for the statements of
    [postProcess] after its guard: they read the two options and the five
    blocks [ifd0, exif, gps, interop, thumbnail] and assign the blocks;
    [None] is an exception thrown by a collaborator. *)
Variable enrich : bool -> bool -> list (option Block) -> option (list (option Block)).

(** [postProcess()] *)
Definition postProcess (t : Tiff) : result Tiff :=
  if negb (opt_postProcess (options t)) then OK t
  else
    match enrich (translateTags (options t)) (reviveValues (options t))
                 [ifd0 t; exif t; gps t; interop t; thumbnail t] with
    | Some [b0; b1; b2; b3; b4] =>
        OK (set_thumbnail (set_interop (set_gps (set_exif (set_ifd0 t b0) b1) b2) b3) b4)
    | _ => Err CollaboratorFailure
    end.

(** [parse()] *)
Definition parse (t : Tiff) : result (Tiff * Output) :=
  let* t := parseBlocks t in
  let* t := postProcess t in
  let out := buildOutput t in
  OK (set_output t (Some out), out).

End PostProcess.

(** [static canHandle(view, offset)]; [&&] reads its right operand only when
    the left one holds. *)
Definition canHandle (v : BufferView) (offset : Z) : result bool :=
  let* marker := getUint8 v (offset + 1) in
  if negb (marker =? 0xE1) then OK false
  else
    let* signature := getUint32 v (offset + 4) in
    if negb (signature =? 0x45786966) then OK false
    else
      let* terminator := getUint16 v (offset + 8) in
      OK (terminator =? 0x0000).

(** The range [extractThumbnail] asks of the view, [this.view.subarray(offset,
    length)]: the two tags of the thumbnail directory, [None] when the tag is
    not there. *)
Record SubRange : Type := mkSubRange {
  rangeOffset : option Value;
  rangeLength : option Value
}.

(** [extractThumbnail()] up to the call of [this.view.subarray]: the second
    component is [None] where the method returns [undefined], and the range
    asked of the view otherwise (the bytes of the range are the work of
    src/util/BufferView.mjs, which is not part of the sources at hand).  The
    argument of [this.parseIfd0Block(true)] is not a parameter of the method
    and is dropped. *)
Definition extractThumbnail (t : Tiff) : result (Tiff * option SubRange) :=
  let* v := TiffCore.parseHeader (view t) in
  let t := set_view t v in
  let* t := if negb (isSome (ifd0 t)) then parseIfd0Block t else OK t in
  let* t := if negb (thumbnailParsed t)
            then let* r := parseThumbnailBlock true t in OK (fst r)
            else OK t in
  match thumbnail t with
  | None => OK (t, None)
  | Some th =>
      OK (t, Some {| rangeOffset := th !! Tag THUMB_OFFSET;
                     rangeLength := th !! Tag THUMB_LENGTH |})
  end.

End Tiff.

(** [k] NUL characters. *)
Fixpoint nuls (k : nat) : string :=
  match k with
  | O => EmptyString
  | S n => String zero (nuls n)
  end.

(** ** The value of a directory entry, in the words of the spec *)

(** Following the spec's words, "[count] values of [width(type)] bytes each
    are stored contiguously": the places of the values from [loc] on. *)
Definition contiguous (loc width : Z) (count : nat) : list Z :=
  map (fun i => loc + width * Z.of_nat i) (seq 0 count).

(** One scalar of the type at each place, in order. *)
Fixpoint readEach (v : BufferView) (type : Z) (places : list Z) : result (list Value) :=
  match places with
  | [] => OK []
  | loc :: rest =>
      let* x := TiffCore.parseTagValue v type loc in
      let* xs := readEach v type rest in
      OK (x :: xs)
  end.

(** Following the spec's words, the Tag Value of [count] values of the type
    stored at [loc]: "a de-nulled ASCII string, or a raw byte slice for
    UNDEFINED", "a single scalar", or "an ordered sequence of [count] such
    scalars". *)
Definition tagValueAt (v : BufferView) (type width count loc : Z) : result Value :=
  if type =? 2 then
    let* s := getString v loc count in OK (VString (TiffCore.removeNullTerminator s))
  else if type =? 7 then
    let* b := getBytes v loc count in OK (VBytes b)
  else if count =? 1 then TiffCore.parseTagValue v type loc
  else
    let* xs := readEach v type (contiguous loc width (Z.to_nat count)) in
    OK (VArray xs).

(** ** The conditions of a malformed header *)

(** The word at offset 0 is none of the two byte order markers, or the word
    at offset 2, read in the byte order of the marker, is not 0x002A. *)
Definition headerMalformed (v : BufferView) : Prop :=
  exists word : Z,
    getUint16 v 0 = OK word
    /\ ((word <> TIFF_LITTLE_ENDIAN /\ word <> TIFF_BIG_ENDIAN)
        \/ exists magic : Z,
             getUint16 (set_le v (word =? TIFF_LITTLE_ENDIAN)) 2 = OK magic
             /\ magic <> 0x002A).

(** The 32-bit offset of IFD0 at offset 4 is less than 8. *)
Definition ifd0OffsetMalformed (v : BufferView) : Prop :=
  exists off : Z, getUint32 v 4 = OK off /\ off < 8.

(** The errors of the directory decoders. *)
Definition decodeError (e : TiffError) : Prop :=
  e = OffsetOutOfBounds \/ e = UnknownFieldType.

(** ** The pointer tags *)

(** The EXIF, GPS and Interop pointer tags. *)
Definition pointerTag (k : Key) : bool :=
  match k with
  | Tag code =>
      (code =? TAG_IFD_EXIF) || (code =? TAG_IFD_GPS) || (code =? TAG_IFD_INTEROP)
  | Name _ => false
  end.

(** ** Two configurations that differ in [mergeOutput] only *)

Definition withMerge (o : Options) (merge : bool) : Options :=
  {| pickTags := pickTags o; skipTags := skipTags o;
     opt_exif := opt_exif o; opt_gps := opt_gps o; opt_interop := opt_interop o;
     opt_thumbnail := opt_thumbnail o;
     mergeOutput := merge; sanitize := sanitize o;
     opt_postProcess := opt_postProcess o; translateTags := translateTags o;
     reviveValues := reviveValues o |}.

(** The instance with [options.mergeOutput] set. *)
Definition setMerge (t : Tiff.Tiff) (merge : bool) : Tiff.Tiff :=
  Tiff.set_options t (withMerge (Tiff.options t) merge).

(** The calls of [parse] before [parseThumbnailBlock]. *)
Definition pointedBlocks (t : Tiff.Tiff) : result Tiff.Tiff :=
  let* v := TiffCore.parseHeader (Tiff.view t) in
  let t := Tiff.set_view t v in
  let* t := Tiff.parseIfd0Block t in
  let* t := if opt_exif (Tiff.options t) then Tiff.parseExifBlock t else OK t in
  let* t := if opt_gps (Tiff.options t) then Tiff.parseGpsBlock t else OK t in
  if opt_interop (Tiff.options t) then Tiff.parseInteropBlock t else OK t.

(** The tag of a key in a block that may be [undefined]. *)
Definition tagOf (b : option Block) (k : Key) : option Value :=
  match b with
  | Some m => m !! k
  | None => None
  end.

(** The first defined value. *)
Definition orElse (a b : option Value) : option Value :=
  match a with
  | Some _ => a
  | None => b
  end.

(** The same five blocks. *)
Definition sameBlocks (t1 t2 : Tiff.Tiff) : Prop :=
  Tiff.ifd0 t1 = Tiff.ifd0 t2
  /\ Tiff.exif t1 = Tiff.exif t2
  /\ Tiff.gps t1 = Tiff.gps t2
  /\ Tiff.interop t1 = Tiff.interop t2
  /\ Tiff.thumbnail t1 = Tiff.thumbnail t2.

(** ** Concrete buffers *)

Definition byteOfZ (n : Z) : byte :=
  match Byte.of_N (Z.to_N n) with
  | Some b => b
  | None => x00
  end.

(** A view over a whole buffer with the given bytes. *)
Definition viewOf (littleEndian : bool) (l : list Z) : BufferView :=
  {| bytes := map byteOfZ l;
     bufferByteLength := Z.of_nat (List.length l);
     le := littleEndian |}.

(** One little-endian entry at offset 0: tag 0x010F, ASCII, count 6, the text
    [ab] and four NULs at offset 12. *)
Definition asciiEntry : BufferView :=
  viewOf true [0x0F; 0x01; 2; 0; 6; 0; 0; 0; 12; 0; 0; 0;
               0x61; 0x62; 0; 0; 0; 0].

(** Big-endian bytes of 1/0, then of 0/0 at offset 8, then of (-3)/2 at
    offset 16 and of 1/2 at offset 24. *)
Definition rationals : BufferView :=
  viewOf false [0; 0; 0; 1;  0; 0; 0; 0;
                0; 0; 0; 0;  0; 0; 0; 0;
                0xFF; 0xFF; 0xFF; 0xFD;  0; 0; 0; 2;
                0; 0; 0; 1;  0; 0; 0; 2].

(** One little-endian entry of the unknown type 14, count 1, whose last four
    bytes are 0xFFFFFFFF. *)
Definition unknownTypeFarOffset : BufferView :=
  viewOf true [0x00; 0x01; 14; 0; 1; 0; 0; 0; 0xFF; 0xFF; 0xFF; 0xFF].

(** One little-endian entry of the unknown type 14, count 0, whose last four
    bytes are 0. *)
Definition unknownTypeNoValues : BufferView :=
  viewOf true [0x00; 0x01; 14; 0; 0; 0; 0; 0; 0; 0; 0; 0].

(** One little-endian entry at offset 0: tag 0x0100, BYTE, count 4, the four
    inline bytes 0xFF: read as an offset they would point far out of the
    buffer. *)
Definition inlineBytes : BufferView :=
  viewOf true [0x00; 0x01; 1; 0; 4; 0; 0; 0; 0xFF; 0xFF; 0xFF; 0xFF].

(** One little-endian entry at offset 0: tag 0x0100, SHORT, count 3, with
    the values 1, 2 and 3 at offset 12. *)
Definition threeShorts : BufferView :=
  viewOf true [0x00; 0x01; 3; 0; 3; 0; 0; 0; 12; 0; 0; 0;
               1; 0; 2; 0; 3; 0].

(** One little-endian entry at offset 0: SHORT, count 3, whose offset 0x100
    exceeds the 12 bytes of the buffer. *)
Definition farOffset : BufferView :=
  viewOf true [0x00; 0x01; 3; 0; 3; 0; 0; 0; 0x00; 0x01; 0; 0].

(** Every block requested, nothing skipped, no post-processing. *)
Definition allBlocks (merge clean : bool) : Options :=
  {| pickTags := []; skipTags := [];
     opt_exif := true; opt_gps := true; opt_interop := true; opt_thumbnail := true;
     mergeOutput := merge; sanitize := clean;
     opt_postProcess := false; translateTags := false; reviveValues := false |}.

(** A little-endian TIFF whose IFD0 at offset 8 has no entry and whose
    pointer to IFD1 is 0x100, past the 14 bytes of the buffer. *)
Definition thumbnailFar : BufferView :=
  viewOf true [0x49; 0x49; 0x2A; 0; 8; 0; 0; 0;
               0; 0;  0x00; 0x01; 0; 0].

(** The minimal little-endian TIFF of the spec: IFD0 at offset 8 with the one
    entry (tag 0x0100, LONG, count 1, inline value 640), no IFD1. *)
Definition minimalLE : BufferView :=
  viewOf false [0x49; 0x49; 0x2A; 0; 8; 0; 0; 0;
                1; 0;  0x00; 0x01; 4; 0; 1; 0; 0; 0; 0x80; 0x02; 0; 0;
                0; 0; 0; 0].

(** The same directory in a big-endian TIFF. *)
Definition minimalBE : BufferView :=
  viewOf true [0x4D; 0x4D; 0; 0x2A; 0; 0; 0; 8;
               0; 1;  0x01; 0x00; 0; 4; 0; 0; 0; 1; 0; 0; 0x02; 0x80;
               0; 0; 0; 0].

(** A header with the marker 0x4949 and the IFD0 offset 4. *)
Definition ifd0TooLow : BufferView :=
  viewOf true [0x49; 0x49; 0x2A; 0; 4; 0; 0; 0; 0; 0; 0; 0; 0; 0].

(** A header with the marker 0x4949 and the word 0x002B at offset 2. *)
Definition wrongMagic : BufferView :=
  viewOf true [0x49; 0x49; 0x2B; 0; 8; 0; 0; 0; 0; 0; 0; 0; 0; 0].

(** A header with the bytes 0x49 0x4D at offset 0. *)
Definition wrongMarker : BufferView :=
  viewOf true [0x49; 0x4D; 0x2A; 0; 8; 0; 0; 0; 0; 0; 0; 0; 0; 0].

(** Post-processing that leaves the blocks as they are. *)
Definition noEnrichment (translate revive : bool) (blocks : list (option Block)) :
    option (list (option Block)) :=
  Some blocks.

(** A little-endian TIFF with IFD0 at offset 8 (tag 0x0100 = 640 and the
    EXIF pointer 0x8769 = 38), IFD1 at offset 56 (tag 0x0201 = 7), and the
    EXIF directory at offset 38 (tag 0x0100 = 2).

    offset 0: header; 8: IFD0 count 2; 10: entry 0x0100; 22: entry 0x8769;
    34: pointer to IFD1 = 56; 38: EXIF count 1; 40: entry 0x0100; 52: next = 0;
    56: IFD1 count 1; 58: entry 0x0201; 70: next = 0. *)
Definition withThumbnail : BufferView :=
  viewOf true [0x49; 0x49; 0x2A; 0; 8; 0; 0; 0;
               2; 0;
               0x00; 0x01; 4; 0; 1; 0; 0; 0; 0x80; 0x02; 0; 0;
               0x69; 0x87; 4; 0; 1; 0; 0; 0; 38; 0; 0; 0;
               56; 0; 0; 0;
               1; 0;
               0x00; 0x01; 3; 0; 1; 0; 0; 0; 2; 0; 0; 0;
               0; 0; 0; 0;
               1; 0;
               0x01; 0x02; 4; 0; 1; 0; 0; 0; 7; 0; 0; 0;
               0; 0; 0; 0].

(** An instance with its five blocks populated. *)
Definition populated : Tiff.Tiff :=
  {| Tiff.view := withThumbnail; Tiff.options := allBlocks false false;
     Tiff.ifd0 := Some {[ Tag 0x0100 := VInt 640 ]};
     Tiff.exif := Some {[ Tag 0x0100 := VInt 2 ]};
     Tiff.gps := Some ∅;
     Tiff.interop := Some ∅;
     Tiff.thumbnail := Some {[ Tag 0x0201 := VInt 7 ]};
     Tiff.ifd0Offset := Some 8; Tiff.exifOffset := Some (VInt 38);
     Tiff.interopOffset := None; Tiff.gpsOffset := None;
     Tiff.ifd1Offset := Some 56; Tiff.thumbnailParsed := true;
     Tiff.output := None |}.

(** A little-endian TIFF whose IFD0 at offset 8 holds the EXIF pointer
    0x8769 = 38 and the Interop pointer 0xA005 = 0, whose EXIF directory at
    offset 38 holds the Interop pointer 0xA005 = 56, and whose Interop
    directory at offset 56 holds the tag 0x0001 = "R98". *)
Definition interopInExif : BufferView :=
  viewOf true [0x49; 0x49; 0x2A; 0; 8; 0; 0; 0;
               2; 0;
               0x69; 0x87; 4; 0; 1; 0; 0; 0; 38; 0; 0; 0;
               0x05; 0xA0; 4; 0; 1; 0; 0; 0; 0; 0; 0; 0;
               0; 0; 0; 0;
               1; 0;
               0x05; 0xA0; 4; 0; 1; 0; 0; 0; 56; 0; 0; 0;
               0; 0; 0; 0;
               1; 0;
               0x01; 0x00; 2; 0; 4; 0; 0; 0; 0x52; 0x39; 0x38; 0;
               0; 0; 0; 0].

(** The same directories, with the Interop pointer of the EXIF directory
    stored as the RATIONAL 56/1 at offset 74 (the number 56), and the
    Interop pointer of IFD0 stored as the RATIONAL 0/1 at offset 82 (the
    number 0). *)
Definition interopInExifRational : BufferView :=
  viewOf true [0x49; 0x49; 0x2A; 0; 8; 0; 0; 0;
               2; 0;
               0x69; 0x87; 4; 0; 1; 0; 0; 0; 38; 0; 0; 0;
               0x05; 0xA0; 5; 0; 1; 0; 0; 0; 82; 0; 0; 0;
               0; 0; 0; 0;
               1; 0;
               0x05; 0xA0; 5; 0; 1; 0; 0; 0; 74; 0; 0; 0;
               0; 0; 0; 0;
               1; 0;
               0x01; 0x00; 2; 0; 4; 0; 0; 0; 0x52; 0x39; 0x38; 0;
               0; 0; 0; 0;
               56; 0; 0; 0; 1; 0; 0; 0;
               0; 0; 0; 0; 1; 0; 0; 0].

(** The instance over [interopInExifRational] once IFD0 and EXIF are
    decoded: the two pointers are quotients. *)
Definition interopPendingRational : Tiff.Tiff :=
  {| Tiff.view := interopInExifRational; Tiff.options := allBlocks false false;
     Tiff.ifd0 := Some {[ Tag 0x8769 := VInt 38;
                          Tag 0xA005 := VFloat (numberDiv (numberOfZ 0) (numberOfZ 1)) ]};
     Tiff.exif := Some {[ Tag 0xA005 := VFloat (numberDiv (numberOfZ 56) (numberOfZ 1)) ]};
     Tiff.gps := None; Tiff.interop := None; Tiff.thumbnail := None;
     Tiff.ifd0Offset := Some 8; Tiff.exifOffset := Some (VInt 38);
     Tiff.interopOffset := Some (VFloat (numberDiv (numberOfZ 0) (numberOfZ 1)));
     Tiff.gpsOffset := None;
     Tiff.ifd1Offset := None; Tiff.thumbnailParsed := false;
     Tiff.output := None |}.

(** The instance over [interopInExif] once IFD0 and EXIF are decoded. *)
Definition interopPending : Tiff.Tiff :=
  {| Tiff.view := interopInExif; Tiff.options := allBlocks false false;
     Tiff.ifd0 := Some {[ Tag 0x8769 := VInt 38; Tag 0xA005 := VInt 0 ]};
     Tiff.exif := Some {[ Tag 0xA005 := VInt 56 ]};
     Tiff.gps := None; Tiff.interop := None; Tiff.thumbnail := None;
     Tiff.ifd0Offset := Some 8; Tiff.exifOffset := Some (VInt 38);
     Tiff.interopOffset := Some (VInt 0); Tiff.gpsOffset := None;
     Tiff.ifd1Offset := None; Tiff.thumbnailParsed := false;
     Tiff.output := None |}.

(** ** Scalars *)

(** The integers of a type of the table, from the comments of [SIZE_LOOKUP]:
    the bounds [lo <= n < hi] of the 8, 16 and 32-bit unsigned and signed
    types; [None] for the types that are no integers. *)
Definition integerRange (type : Z) : option (Z * Z) :=
  match type with
  | 1 => Some (0, 2 ^ 8)
  | 3 => Some (0, 2 ^ 16)
  | 4 => Some (0, 2 ^ 32)
  | 6 => Some (- 2 ^ 7, 2 ^ 7)
  | 8 => Some (- 2 ^ 15, 2 ^ 15)
  | 9 => Some (- 2 ^ 31, 2 ^ 31)
  | 13 => Some (0, 2 ^ 32)
  | _ => None
  end.

(** A number: neither a string, nor a slice, nor an array. *)
Definition isScalar (x : Value) : bool :=
  match x with
  | VInt _ | VFloat _ => true
  | VString _ | VBytes _ | VArray _ => false
  end.

(** One little-endian entry of the unknown type 14, count 1, whose last four
    bytes are the offset 0. *)
Definition unknownTypeInRange : BufferView :=
  viewOf true [0x00; 0x01; 14; 0; 1; 0; 0; 0; 0; 0; 0; 0].

(** ** The directory table *)

(** The inclusion test of [parseTags]: a tag is kept when it is picked, or
    when it is not skipped. *)
Definition keeps (o : Options) (tag : Z) : bool :=
  includes (pickTags o) tag || negb (includes (skipTags o) tag).

(** A little-endian directory at offset 0 with three entries: tag 0x0100 =
    1 (SHORT), tag 0x0101 = 2 (SHORT) and tag 0x0100 again = 3 (SHORT). *)
Definition duplicateTags : BufferView :=
  viewOf true [3; 0;
               0x00; 0x01; 3; 0; 1; 0; 0; 0; 1; 0; 0; 0;
               0x01; 0x01; 3; 0; 1; 0; 0; 0; 2; 0; 0; 0;
               0x00; 0x01; 3; 0; 1; 0; 0; 0; 3; 0; 0; 0;
               0; 0; 0; 0].

(** Nothing picked, the tag 0x0101 skipped. *)
Definition skipping0101 : Options :=
  {| pickTags := []; skipTags := [0x0101];
     opt_exif := true; opt_gps := true; opt_interop := true; opt_thumbnail := true;
     mergeOutput := false; sanitize := false;
     opt_postProcess := false; translateTags := false; reviveValues := false |}.

(** ** What a parse has decoded *)

(** The blocks decoded so far were requested and were reached through
    pointer tags that pass the inclusion test, and so do the pointers
    captured so far. *)
Definition decodedOnRequest (o : Options) (t : Tiff.Tiff) : Prop :=
  Tiff.options t = o
  /\ (is_Some (Tiff.exif t) -> opt_exif o = true /\ keeps o TAG_IFD_EXIF = true)
  /\ (is_Some (Tiff.gps t) -> opt_gps o = true /\ keeps o TAG_IFD_GPS = true)
  /\ (is_Some (Tiff.interop t) -> opt_interop o = true /\ keeps o TAG_IFD_INTEROP = true)
  /\ (is_Some (Tiff.thumbnail t) -> opt_thumbnail o = true /\ mergeOutput o = false)
  /\ (is_Some (Tiff.exifOffset t) -> keeps o TAG_IFD_EXIF = true)
  /\ (is_Some (Tiff.gpsOffset t) -> keeps o TAG_IFD_GPS = true)
  /\ (is_Some (Tiff.interopOffset t) -> keeps o TAG_IFD_INTEROP = true)
  /\ (is_Some (Tiff.exifInteropPointer t) -> keeps o TAG_IFD_INTEROP = true).

(** Everything requested, the three pointer tags skipped. *)
Definition skippingPointers : Options :=
  {| pickTags := []; skipTags := [TAG_IFD_EXIF; TAG_IFD_GPS; TAG_IFD_INTEROP];
     opt_exif := true; opt_gps := true; opt_interop := true; opt_thumbnail := true;
     mergeOutput := false; sanitize := false;
     opt_postProcess := false; translateTags := false; reviveValues := false |}.

(** ** Segments *)

(** The first bytes of a JPEG APP1 segment that wraps a TIFF: the marker FF
    E1, a length, and [Exif] followed by two NULs; the TIFF header
    follows. *)
Definition app1Segment : BufferView :=
  viewOf false [0xFF; 0xE1; 0x00; 0x10; 0x45; 0x78; 0x69; 0x66; 0; 0;
                0x4D; 0x4D; 0; 0x2A; 0; 0; 0; 8].

(** ** Two configurations that differ in [sanitize] only *)

Definition withSanitize (o : Options) (clean : bool) : Options :=
  {| pickTags := pickTags o; skipTags := skipTags o;
     opt_exif := opt_exif o; opt_gps := opt_gps o; opt_interop := opt_interop o;
     opt_thumbnail := opt_thumbnail o;
     mergeOutput := mergeOutput o; sanitize := clean;
     opt_postProcess := opt_postProcess o; translateTags := translateTags o;
     reviveValues := reviveValues o |}.

(** The instance with [options.sanitize] set. *)
Definition setSanitize (t : Tiff.Tiff) (clean : bool) : Tiff.Tiff :=
  Tiff.set_options t (withSanitize (Tiff.options t) clean).

(** A block without the three pointer tags. *)
Definition withoutPointers (tags : Block) : Block :=
  delete (Tag TAG_IFD_GPS) (delete (Tag TAG_IFD_INTEROP) (delete (Tag TAG_IFD_EXIF) tags)).

(** The instance with [options.sanitize] set and the pointer tags taken out
    of its [ifd0] block. *)
Definition sanitized (t : Tiff.Tiff) : Tiff.Tiff :=
  setSanitize (Tiff.set_ifd0 t (withoutPointers <$> Tiff.ifd0 t)) true.

(** * Properties *)

(** ** The error monad and the byte reader *)

Lemma bind_OK {A B : Type} (m : result A) (k : A -> result B) (b : B) :
  bind m k = OK b -> exists a, m = OK a /\ k a = OK b.
Proof. destruct m as [a|e]; simpl; [eauto | discriminate]. Qed.

Lemma bind_Err {A B : Type} (m : result A) (k : A -> result B) (e : TiffError) :
  bind m k = Err e -> m = Err e \/ exists a, m = OK a /\ k a = Err e.
Proof. destruct m as [a|e']; simpl; [eauto | intros [= ->]; auto]. Qed.

Lemma getBytes_OK (v : BufferView) (off n : Z) (bs : list byte) :
  getBytes v off n = OK bs ->
  0 <= off /\ 0 <= n /\ off + n <= byteLength v /\ List.length bs = Z.to_nat n.
Proof.
  unfold getBytes, byteLength.
  destruct (0 <=? off) eqn:Hoff; simpl; [|discriminate].
  destruct (0 <=? n) eqn:Hn; simpl; [|discriminate].
  destruct (off + n <=? _) eqn:Hend; [|discriminate].
  intros [= <-].
  apply Z.leb_le in Hoff, Hn, Hend.
  repeat split; try lia.
  rewrite length_firstn, length_skipn. lia.
Qed.

Lemma getBytes_Err (v : BufferView) (off n : Z) :
  byteLength v < off + n -> getBytes v off n = Err OffsetOutOfBounds.
Proof.
  intros H. unfold getBytes.
  destruct (off + n <=? byteLength v) eqn:Hend.
  - apply Z.leb_le in Hend. lia.
  - now rewrite andb_false_r.
Qed.

Lemma getBytes_error_kind (v : BufferView) (off n : Z) (e : TiffError) :
  getBytes v off n = Err e -> e = OffsetOutOfBounds.
Proof. unfold getBytes. destruct (_ && _); [discriminate | now intros [= <-]]. Qed.

Lemma byteVal_range (b : byte) : 0 <= byteVal b < 256.
Proof.
  unfold byteVal. pose proof (Byte.to_N_bounded b) as H. lia.
Qed.

Lemma uintLE_range (bs : list byte) : 0 <= uintLE bs < 256 ^ Z.of_nat (List.length bs).
Proof.
  induction bs as [|b r IH]; simpl List.length; simpl uintLE.
  - simpl. lia.
  - rewrite Nat2Z.inj_succ, Z.pow_succ_r by lia.
    pose proof (byteVal_range b). lia.
Qed.

Lemma uintOf_range (e : bool) (bs : list byte) :
  0 <= uintOf e bs < 256 ^ Z.of_nat (List.length bs).
Proof.
  unfold uintOf. destruct e.
  - apply uintLE_range.
  - rewrite <- length_rev. apply uintLE_range.
Qed.

Lemma getUint16_OK (v : BufferView) (off x : Z) :
  getUint16 v off = OK x -> 0 <= off /\ off + 2 <= byteLength v /\ 0 <= x < 2 ^ 16.
Proof.
  unfold getUint16. intros H. apply bind_OK in H as (bs & Hb & [= <-]).
  apply getBytes_OK in Hb as (? & _ & ? & Hlen).
  pose proof (uintOf_range (le v) bs) as R. rewrite Hlen in R.
  change (256 ^ Z.of_nat (Z.to_nat 2)) with (2 ^ 16) in R. lia.
Qed.

Lemma getUint32_OK (v : BufferView) (off x : Z) :
  getUint32 v off = OK x -> 0 <= off /\ off + 4 <= byteLength v /\ 0 <= x < 2 ^ 32.
Proof.
  unfold getUint32. intros H. apply bind_OK in H as (bs & Hb & [= <-]).
  apply getBytes_OK in Hb as (? & _ & ? & Hlen).
  pose proof (uintOf_range (le v) bs) as R. rewrite Hlen in R.
  change (256 ^ Z.of_nat (Z.to_nat 4)) with (2 ^ 32) in R. lia.
Qed.

Lemma getInt32_OK (v : BufferView) (off x : Z) :
  getInt32 v off = OK x ->
  0 <= off /\ off + 4 <= byteLength v /\ - 2 ^ 31 <= x < 2 ^ 31.
Proof.
  unfold getInt32. intros H. apply bind_OK in H as (bs & Hb & [= <-]).
  apply getBytes_OK in Hb as (? & _ & ? & Hlen).
  pose proof (uintOf_range (le v) bs) as R. rewrite Hlen in R.
  change (256 ^ Z.of_nat (Z.to_nat 4)) with (2 ^ 32) in R.
  unfold toSigned. change (2 ^ (32 - 1)) with (2 ^ 31).
  destruct (uintOf (le v) bs <? 2 ^ 31) eqn:E;
    [apply Z.ltb_lt in E | apply Z.ltb_ge in E]; lia.
Qed.

Lemma getUint16_Err (v : BufferView) (off : Z) :
  byteLength v < off + 2 -> getUint16 v off = Err OffsetOutOfBounds.
Proof. intros H. unfold getUint16. rewrite getBytes_Err by exact H. reflexivity. Qed.

(** Every read of the byte reader fails in one way only. *)
Lemma read_error_kind {B : Type} (v : BufferView) (off n : Z)
    (f : list byte -> B) (e : TiffError) :
  bind (getBytes v off n) (fun bs => OK (f bs)) = Err e -> e = OffsetOutOfBounds.
Proof.
  intros H. apply bind_Err in H as [H | (bs & _ & H)]; [|discriminate].
  eapply getBytes_error_kind, H.
Qed.

(** ** ASCII entries: the null terminators *)

Lemma endsWith_cons (a b : ascii) (r : string) (c : ascii) :
  TiffCore.endsWith (String a (String b r)) c = TiffCore.endsWith (String b r) c.
Proof. reflexivity. Qed.

Lemma sliceInit_cons (a b : ascii) (r : string) :
  TiffCore.sliceInit (String a (String b r)) = String a (TiffCore.sliceInit (String b r)).
Proof. reflexivity. Qed.

Lemma append_cons (a : ascii) (s r : string) :
  String.append (String a s) r = String a (String.append s r).
Proof. reflexivity. Qed.

Lemma append_empty_r (s : string) : String.append s EmptyString = s.
Proof. induction s as [|a s IH]; [reflexivity | now rewrite append_cons, IH]. Qed.

Lemma endsWith_split (s : string) (c : ascii) :
  TiffCore.endsWith s c = true ->
  s = String.append (TiffCore.sliceInit s) (String c EmptyString).
Proof.
  induction s as [|a r IH]; [discriminate|].
  destruct r as [|b r'].
  - simpl. intros H. apply Ascii.eqb_eq in H. now subst.
  - rewrite endsWith_cons, sliceInit_cons. intros H.
    rewrite append_cons. f_equal. exact (IH H).
Qed.

Lemma sliceInit_length (s : string) (c : ascii) :
  TiffCore.endsWith s c = true ->
  String.length s = S (String.length (TiffCore.sliceInit s)).
Proof.
  induction s as [|a r IH]; [discriminate|].
  destruct r as [|b r']; [reflexivity|].
  rewrite endsWith_cons, sliceInit_cons. intros H.
  cbn [String.length]. f_equal. exact (IH H).
Qed.

Lemma append_assoc (s r u : string) :
  String.append (String.append s r) u = String.append s (String.append r u).
Proof.
  induction s as [|a s IH]; [reflexivity|].
  rewrite !append_cons. now rewrite IH.
Qed.

Lemma nuls_snoc (k : nat) :
  String.append (nuls k) (String zero EmptyString) = nuls (S k).
Proof.
  induction k as [|k IH]; [reflexivity|].
  change (nuls (S k)) with (String zero (nuls k)) at 1.
  rewrite append_cons, IH. reflexivity.
Qed.

(** The loop stops, and it stops on the string without its trailing NULs. *)
Lemma stripLoop_spec (turns : nat) (s : string) :
  (String.length s <= turns)%nat ->
  exists k, s = String.append (TiffCore.stripLoop turns s) (nuls k)
            /\ TiffCore.endsWith (TiffCore.stripLoop turns s) zero = false.
Proof.
  revert s. induction turns as [|n IH]; intros s Hlen; simpl.
  - destruct s; [|simpl in Hlen; lia]. exists O. split; reflexivity.
  - destruct (TiffCore.endsWith s zero) eqn:E.
    + pose proof (sliceInit_length s zero E) as Hl.
      destruct (IH (TiffCore.sliceInit s)) as (k & Hk & Hend); [lia|].
      exists (S k). split; [|exact Hend].
      rewrite <- nuls_snoc, <- append_assoc, <- Hk.
      exact (endsWith_split s zero E).
    + exists O. split; [|exact E].
      simpl nuls. now rewrite append_empty_r.
Qed.

Lemma endsWith_tail (a : ascii) (r : string) (c : ascii) :
  TiffCore.endsWith (String a r) c = false -> TiffCore.endsWith r c = false.
Proof. destruct r as [|b r]; [reflexivity | now rewrite endsWith_cons]. Qed.

Lemma nuls_prefix_empty (s : string) (k k' : nat) :
  String.append s (nuls k') = nuls k ->
  TiffCore.endsWith s zero = false ->
  s = EmptyString.
Proof.
  revert k. induction s as [|a r IH]; intros k Heq E; [reflexivity|].
  exfalso. rewrite append_cons in Heq.
  destruct k as [|k]; [discriminate|].
  change (nuls (S k)) with (String zero (nuls k)) in Heq.
  injection Heq as -> Heq.
  pose proof (IH k Heq (endsWith_tail _ _ _ E)) as ->.
  discriminate E.
Qed.

(** The stripped string is the only prefix of the text which is followed by
    NULs only and does not itself end in NUL. *)
Lemma strip_unique (s1 s2 : string) (k1 k2 : nat) :
  String.append s1 (nuls k1) = String.append s2 (nuls k2) ->
  TiffCore.endsWith s1 zero = false ->
  TiffCore.endsWith s2 zero = false ->
  s1 = s2.
Proof.
  revert s2. induction s1 as [|a r1 IH]; intros s2 Heq E1 E2.
  - symmetry. eapply nuls_prefix_empty; [symmetry; exact Heq | exact E2].
  - destruct s2 as [|b r2].
    + eapply nuls_prefix_empty; [exact Heq | exact E1].
    + rewrite !append_cons in Heq. injection Heq as -> Heq.
      f_equal. apply IH; eauto using endsWith_tail.
Qed.

Lemma stringOfBytes_length (bs : list byte) :
  String.length (stringOfBytes bs) = List.length bs.
Proof.
  unfold stringOfBytes. induction bs as [|b r IH]; simpl; [reflexivity | now rewrite IH].
Qed.

(** C8: an ASCII (type 2) entry decodes to one string, never to an array: the
    [count] bytes at the value's place read as text, without any of the
    trailing NUL bytes (the text is the value followed by NULs only, and the
    value does not end in NUL). *)
Theorem ascii_entry_strips_all_trailing_nuls
    (v : BufferView) (offset count valueOffset : Z) (raw : string) :
  getUint16 v (offset + 2) = OK 2 ->
  getUint32 v (offset + 4) = OK count ->
  (if TiffCore.fitsInline (SIZE_LOOKUP 2) count then OK (offset + 8)
   else getUint32 v (offset + 8)) = OK valueOffset ->
  valueOffset <= bufferByteLength v ->
  getString v valueOffset count = OK raw ->
  exists (s : string) (k : nat),
    TiffCore.parseTag v offset = OK (VString s)
    /\ String.length raw = Z.to_nat count
    /\ raw = String.append s (nuls k)
    /\ TiffCore.endsWith s zero = false.
Proof.
  intros Htype Hcount Hloc Hin Hraw.
  destruct (stripLoop_spec (String.length raw) raw (Nat.le_refl _)) as (k & Hk & Hend).
  exists (TiffCore.removeNullTerminator raw), k.
  split; [|split; [|split]].
  - unfold TiffCore.parseTag. rewrite Htype, Hcount. cbn [bind].
    rewrite Hloc. cbn [bind].
    destruct (valueOffset >? bufferByteLength v) eqn:E; [apply Z.gtb_lt in E; lia|].
    change (2 =? 2) with true. cbn iota. rewrite Hraw. reflexivity.
  - unfold getString in Hraw. apply bind_OK in Hraw as (bs & Hb & [= <-]).
    apply getBytes_OK in Hb as (_ & _ & _ & Hlen).
    now rewrite stringOfBytes_length.
  - exact Hk.
  - exact Hend.
Qed.

Lemma ascii_entry_strips_all_trailing_nuls_witness :
  exists (s : string) (k : nat),
    TiffCore.parseTag asciiEntry 0 = OK (VString s)
    /\ String.length (String "a" (String "b" (nuls 4))) = Z.to_nat 6
    /\ String "a" (String "b" (nuls 4)) = String.append s (nuls k)
    /\ TiffCore.endsWith s zero = false.
Proof.
  apply (ascii_entry_strips_all_trailing_nuls asciiEntry 0 6 12).
  - vm_compute. reflexivity.
  - vm_compute. reflexivity.
  - vm_compute. reflexivity.
  - vm_compute. discriminate.
  - vm_compute. reflexivity.
Defined.

Example ascii_entry_value :
  TiffCore.parseTag asciiEntry 0 = OK (VString "ab").
Proof. vm_compute. reflexivity. Qed.

(** ** Scalars: the rationals *)

Lemma numberDiv_zero_not_finite (x : number) (s : bool) :
  isFinite (numberDiv x (S754_zero s)) = false.
Proof. destruct x; reflexivity. Qed.

(** C5: a RATIONAL (type 5) scalar is the quotient of the unsigned 32-bit
    integers at [offset] and [offset + 4], a SRATIONAL (type 10) scalar the
    quotient of the signed ones, as a binary64 number; with a zero
    denominator the decoder does not throw and the value is not finite. *)
Theorem rational_scalar_is_quotient (v : BufferView) (offset : Z) :
  (forall n d : Z,
      getUint32 v offset = OK n -> getUint32 v (offset + 4) = OK d ->
      TiffCore.parseTagValue v 5 offset
        = OK (VFloat (numberDiv (numberOfZ n) (numberOfZ d)))
      /\ 0 <= n < 2 ^ 32 /\ 0 <= d < 2 ^ 32
      /\ (d = 0 -> isFinite (numberDiv (numberOfZ n) (numberOfZ d)) = false))
  /\ (forall n d : Z,
      getInt32 v offset = OK n -> getInt32 v (offset + 4) = OK d ->
      TiffCore.parseTagValue v 10 offset
        = OK (VFloat (numberDiv (numberOfZ n) (numberOfZ d)))
      /\ - 2 ^ 31 <= n < 2 ^ 31 /\ - 2 ^ 31 <= d < 2 ^ 31
      /\ (d = 0 -> isFinite (numberDiv (numberOfZ n) (numberOfZ d)) = false)).
Proof.
  split; intros n d Hn Hd.
  - split; [|split; [|split]].
    + unfold TiffCore.parseTagValue. rewrite Hn, Hd. reflexivity.
    + now apply getUint32_OK in Hn.
    + now apply getUint32_OK in Hd.
    + intros ->. apply numberDiv_zero_not_finite.
  - split; [|split; [|split]].
    + unfold TiffCore.parseTagValue. rewrite Hn, Hd. reflexivity.
    + now apply getInt32_OK in Hn.
    + now apply getInt32_OK in Hd.
    + intros ->. apply numberDiv_zero_not_finite.
Qed.

Lemma rational_scalar_is_quotient_witness :
  TiffCore.parseTagValue rationals 5 0 = OK (VFloat (S754_infinity false))
  /\ TiffCore.parseTagValue rationals 10 8 = OK (VFloat S754_nan).
Proof.
  pose proof (rational_scalar_is_quotient rationals 0) as [H5 _].
  pose proof (rational_scalar_is_quotient rationals 8) as [_ H10].
  split.
  - exact (proj1 (H5 1 0 eq_refl eq_refl)).
  - exact (proj1 (H10 0 0 eq_refl eq_refl)).
Defined.

Example rational_one_half :
  TiffCore.parseTagValue rationals 5 24 = OK (VFloat (S754_finite false (2 ^ 52) (-53))).
Proof. vm_compute. reflexivity. Qed.

Example srational_minus_three_halves :
  TiffCore.parseTagValue rationals 10 16
  = OK (VFloat (S754_finite true (3 * 2 ^ 51) (-52))).
Proof. vm_compute. reflexivity. Qed.

(** ** Entries of an unknown type *)

Lemma SIZE_LOOKUP_None (type : Z) :
  SIZE_LOOKUP type = None <-> ~ (1 <= type <= 13).
Proof.
  split.
  - intros H R. destruct type as [|p|p]; [lia| |lia].
    do 4 (try (destruct p as [p|p|]); try discriminate H; try lia).
  - intros H. destruct type as [|p|p]; try reflexivity.
    do 4 (try (destruct p as [p|p|]); try reflexivity; try lia).
Qed.

Lemma SIZE_LOOKUP_Some (type w : Z) :
  SIZE_LOOKUP type = Some w -> 1 <= type <= 13 /\ (w = 1 \/ w = 2 \/ w = 4 \/ w = 8).
Proof.
  intros H. destruct type as [|p|p]; try discriminate H.
  do 4 (try (destruct p as [p|p|]); try discriminate H);
    injection H as <-; lia.
Qed.

Lemma parseTagValue_unknown (v : BufferView) (type offset : Z) :
  ~ (1 <= type <= 13) ->
  TiffCore.parseTagValue v type offset = Err UnknownFieldType.
Proof.
  intros H. destruct type as [|p|p]; try reflexivity.
  do 4 (try (destruct p as [p|p|]); try reflexivity; try lia).
Qed.

(** C3, as stated, fails: an entry of type 14 whose last four bytes exceed
    the buffer length fails with [OffsetOutOfBounds]. *)
Lemma unknown_type_counterexample :
  ~ (forall (v : BufferView) (offset type : Z),
        0 <= offset -> offset + 12 <= byteLength v ->
        getUint16 v (offset + 2) = OK type ->
        ~ (1 <= type <= 13) ->
        TiffCore.parseTag v offset = Err UnknownFieldType).
Proof.
  intros H.
  specialize (H unknownTypeFarOffset 0 14).
  assert (TiffCore.parseTag unknownTypeFarOffset 0 = Err OffsetOutOfBounds) as E
    by (vm_compute; reflexivity).
  rewrite E in H.
  assert (@Err Value OffsetOutOfBounds = Err UnknownFieldType) as C.
  { apply H; [lia | vm_compute; discriminate | vm_compute; reflexivity | lia]. }
  discriminate C.
Qed.

(** An entry of an unknown type with count 0 decodes to the empty array. *)
Example unknown_type_count_zero :
  TiffCore.parseTag unknownTypeNoValues 0 = OK (VArray []).
Proof. vm_compute. reflexivity. Qed.

(** C3, amended: for an entry whose type code is outside 1-13 the width
    lookup finds nothing and does not fail; the last four bytes are read as
    an offset, which is checked against the buffer length first
    ([OffsetOutOfBounds]); with a count of at least 1 the scalar decoder then
    fails with [UnknownFieldType]. *)
Theorem unknown_type_fails_after_offset_check
    (v : BufferView) (offset type count valueOffset : Z) :
  getUint16 v (offset + 2) = OK type ->
  ~ (1 <= type <= 13) ->
  getUint32 v (offset + 4) = OK count ->
  1 <= count ->
  getUint32 v (offset + 8) = OK valueOffset ->
  SIZE_LOOKUP type = None
  /\ TiffCore.parseTag v offset
     = if valueOffset >? bufferByteLength v then Err OffsetOutOfBounds
       else Err UnknownFieldType.
Proof.
  intros Htype Hout Hcount Hpos Hoff.
  pose proof (proj2 (SIZE_LOOKUP_None type) Hout) as Hw.
  split; [exact Hw|].
  unfold TiffCore.parseTag. rewrite Htype, Hcount. cbn [bind].
  rewrite Hw. cbn [TiffCore.fitsInline]. rewrite Hoff. cbn [bind].
  destruct (valueOffset >? bufferByteLength v); [reflexivity|].
  destruct (type =? 2) eqn:E2; [apply Z.eqb_eq in E2; lia|].
  destruct (type =? 7) eqn:E7; [apply Z.eqb_eq in E7; lia|].
  destruct (count =? 1); [now apply parseTagValue_unknown|].
  destruct (Z.to_nat count) as [|n] eqn:En; [lia|].
  cbn [TiffCore.parseTagArray]. now rewrite parseTagValue_unknown.
Qed.

Lemma unknown_type_fails_after_offset_check_witness :
  SIZE_LOOKUP 14 = None
  /\ TiffCore.parseTag unknownTypeFarOffset 0
     = if 0xFFFFFFFF >? bufferByteLength unknownTypeFarOffset
       then Err OffsetOutOfBounds else Err UnknownFieldType.
Proof.
  apply (unknown_type_fails_after_offset_check unknownTypeFarOffset 0 14 1).
  - vm_compute. reflexivity.
  - lia.
  - vm_compute. reflexivity.
  - lia.
  - vm_compute. reflexivity.
Defined.

(** ** Inline and out-of-line values *)

Lemma contiguous_S (loc width : Z) (n : nat) :
  contiguous loc width (S n) = loc :: contiguous (loc + width) width n.
Proof.
  unfold contiguous. cbn [seq map]. f_equal; [lia|].
  rewrite <- seq_shift, map_map. apply map_ext. intros i. lia.
Qed.

(** The loop of [parseTag] reads one scalar at each of the contiguous
    places. *)
Lemma parseTagArray_contiguous (v : BufferView) (type width : Z) (n : nat) :
  forall (res : list Value) (loc : Z),
    TiffCore.parseTagArray v type (Some width) n res loc
    = let* xs := readEach v type (contiguous loc width n) in OK (res ++ xs).
Proof.
  induction n as [|n IH]; intros res loc.
  - cbn. now rewrite app_nil_r.
  - rewrite contiguous_S. cbn [TiffCore.parseTagArray readEach TiffCore.advance].
    destruct (TiffCore.parseTagValue v type loc) as [x|e]; cbn [bind]; [|reflexivity].
    rewrite IH.
    destruct (readEach v type (contiguous (loc + width) width n)) as [xs|e]; cbn [bind];
      [|reflexivity].
    now rewrite <- app_assoc.
Qed.

Lemma contiguous_within (loc width : Z) (n : nat) :
  0 < width ->
  Forall (fun p => loc <= p /\ p + width <= loc + width * Z.of_nat n) (contiguous loc width n).
Proof.
  intros Hw. unfold contiguous. apply List.Forall_forall. intros p Hp.
  apply in_map_iff in Hp as (i & <- & Hi). apply in_seq in Hi. nia.
Qed.

(** The rest of [parseTag] once the place of the value is known. *)
Lemma parseTag_at (v : BufferView) (offset type count width valueOffset : Z) :
  getUint16 v (offset + 2) = OK type ->
  getUint32 v (offset + 4) = OK count ->
  SIZE_LOOKUP type = Some width ->
  (if width * count <=? 4 then OK (offset + 8) else getUint32 v (offset + 8))
    = OK valueOffset ->
  TiffCore.parseTag v offset
  = if valueOffset >? bufferByteLength v then Err OffsetOutOfBounds
    else tagValueAt v type width count valueOffset.
Proof.
  intros Htype Hcount Hw Hloc.
  unfold TiffCore.parseTag. rewrite Htype, Hcount. cbn [bind].
  rewrite Hw. cbn [TiffCore.fitsInline]. rewrite Hloc. cbn [bind].
  destruct (valueOffset >? bufferByteLength v); [reflexivity|].
  unfold tagValueAt, slice.
  destruct (type =? 2); [reflexivity|].
  destruct (type =? 7); [now replace (valueOffset + count - valueOffset) with count by lia|].
  destruct (count =? 1); [reflexivity|].
  rewrite parseTagArray_contiguous.
  now destruct (readEach v type _).
Qed.

(** C2: for an entry of a recognized type, with [width * count <= 4] the
    value is decoded at the inline slot [entry + 8] (all of its places lie
    in the four bytes of the slot, and the bytes of the slot are not read as
    an offset); otherwise the 32-bit value at [entry + 8] is the offset at
    which [count] values of [width] bytes each are read contiguously. *)
Theorem entry_value_inline_or_at_offset
    (v : BufferView) (offset type count width : Z) :
  wf_view v ->
  getUint16 v (offset + 2) = OK type ->
  getUint32 v (offset + 4) = OK count ->
  SIZE_LOOKUP type = Some width ->
  (width * count <= 4 ->
     TiffCore.parseTag v offset = tagValueAt v type width count (offset + 8)
     /\ Forall (fun p => offset + 8 <= p /\ p + width <= offset + 12)
               (contiguous (offset + 8) width (Z.to_nat count)))
  /\ (4 < width * count ->
      forall valueOffset : Z,
        getUint32 v (offset + 8) = OK valueOffset ->
        TiffCore.parseTag v offset
        = if valueOffset >? bufferByteLength v then Err OffsetOutOfBounds
          else tagValueAt v type width count valueOffset).
Proof.
  intros Hwf Htype Hcount Hw.
  pose proof (getUint32_OK _ _ _ Hcount) as (Hoff & Hend & Hc).
  pose proof (SIZE_LOOKUP_Some _ _ Hw) as (_ & Hwidth).
  split.
  - intros Hin. split.
    + rewrite (parseTag_at v offset type count width (offset + 8) Htype Hcount Hw).
      * unfold wf_view in Hwf.
        destruct (offset + 8 >? bufferByteLength v) eqn:E; [|reflexivity].
        apply Z.gtb_lt in E. lia.
      * apply Z.leb_le in Hin. now rewrite Hin.
    + eapply List.Forall_impl; [|apply contiguous_within; lia].
      cbn beta. intros p [H1 H2]. split; [exact H1|].
      rewrite Z2Nat.id in H2 by lia. lia.
  - intros Hout valueOffset Hvo.
    apply (parseTag_at v offset type count width valueOffset Htype Hcount Hw).
    apply Z.leb_gt in Hout. now rewrite Hout.
Qed.

Lemma entry_value_inline_or_at_offset_witness :
  TiffCore.parseTag inlineBytes 0 = tagValueAt inlineBytes 1 1 4 8
  /\ TiffCore.parseTag threeShorts 0
     = if 12 >? bufferByteLength threeShorts then Err OffsetOutOfBounds
       else tagValueAt threeShorts 3 2 3 12.
Proof.
  split.
  - refine (proj1 (proj1 (entry_value_inline_or_at_offset inlineBytes 0 1 4 1 _ _ _ _) _)).
    + unfold wf_view. vm_compute. discriminate.
    + vm_compute. reflexivity.
    + vm_compute. reflexivity.
    + reflexivity.
    + lia.
  - refine (proj2 (entry_value_inline_or_at_offset threeShorts 0 3 3 2 _ _ _ _) _ 12 _).
    + unfold wf_view. vm_compute. discriminate.
    + vm_compute. reflexivity.
    + vm_compute. reflexivity.
    + reflexivity.
    + lia.
    + vm_compute. reflexivity.
Defined.

(** The inline bytes 0xFFFFFFFF of a BYTE entry of count 4 are the value, not
    an offset. *)
Example inline_bytes_value :
  TiffCore.parseTag inlineBytes 0 = OK (VArray [VInt 255; VInt 255; VInt 255; VInt 255]).
Proof. vm_compute. reflexivity. Qed.

Example three_shorts_value :
  TiffCore.parseTag threeShorts 0 = OK (VArray [VInt 1; VInt 2; VInt 3]).
Proof. vm_compute. reflexivity. Qed.

(** ** Offsets out of the buffer *)

Lemma parseTags_past_view (v : BufferView) (o : Options) (offset : Z) :
  byteLength v < offset + 2 ->
  TiffCore.parseTags v o offset = Err OffsetOutOfBounds.
Proof.
  intros H. unfold TiffCore.parseTags. now rewrite getUint16_Err.
Qed.

(** The thumbnail block cannot be decoded when the pointer to IFD1 leaves no
    room in the view for the entry count of a directory. *)
Lemma thumbnail_pointer_past_view
    (t : Tiff.Tiff) (force : bool) (base entries pointer : Z) :
  Tiff.thumbnail t = None ->
  Tiff.thumbnailParsed t = false ->
  mergeOutput (Tiff.options t) && negb force = false ->
  Tiff.ifd0Offset t = Some base ->
  getUint16 (Tiff.view t) base = OK entries ->
  getUint32 (Tiff.view t) (base + 2 + entries * 12) = OK pointer ->
  byteLength (Tiff.view t) < pointer + 2 ->
  pointer <> 0 ->
  Tiff.parseThumbnailBlock force t = Err OffsetOutOfBounds.
Proof.
  intros Hth Hparsed Hmode Hbase Hentries Hptr Hfar Hnz.
  unfold Tiff.parseThumbnailBlock.
  rewrite Hth, Hparsed, Hmode, Hbase.
  cbn [Tiff.isSome orb fmap option_fmap option_map Tiff.asOffset bind].
  rewrite Hentries. cbn [bind]. rewrite Hptr. cbn [bind].
  destruct (pointer =? 0) eqn:E; [apply Z.eqb_eq in E; contradiction|].
  cbn [Tiff.view Tiff.set_ifd1Offset Tiff.options].
  now rewrite parseTags_past_view.
Qed.

(** C1: an out-of-line entry ([width * count > 4]) whose 32-bit offset at
    [entry + 8] exceeds the byte length of the buffer fails with
    [OffsetOutOfBounds], whatever the buffer holds; decoding the thumbnail
    block fails in the same way when the pointer to IFD1 exceeds the byte
    length of the buffer. *)
Theorem offset_out_of_bounds_fails :
  (forall (v : BufferView) (offset type count width valueOffset : Z),
      getUint16 v (offset + 2) = OK type ->
      getUint32 v (offset + 4) = OK count ->
      SIZE_LOOKUP type = Some width ->
      4 < width * count ->
      getUint32 v (offset + 8) = OK valueOffset ->
      bufferByteLength v < valueOffset ->
      TiffCore.parseTag v offset = Err OffsetOutOfBounds)
  /\ (forall (t : Tiff.Tiff) (force : bool) (base entries pointer : Z),
      wf_view (Tiff.view t) ->
      Tiff.thumbnail t = None ->
      Tiff.thumbnailParsed t = false ->
      mergeOutput (Tiff.options t) && negb force = false ->
      Tiff.ifd0Offset t = Some base ->
      getUint16 (Tiff.view t) base = OK entries ->
      getUint32 (Tiff.view t) (base + 2 + entries * 12) = OK pointer ->
      bufferByteLength (Tiff.view t) < pointer ->
      Tiff.parseThumbnailBlock force t = Err OffsetOutOfBounds).
Proof.
  split.
  - intros v offset type count width valueOffset Htype Hcount Hw Hout Hvo Hfar.
    rewrite (parseTag_at v offset type count width valueOffset Htype Hcount Hw).
    + apply Z.gtb_lt in Hfar. now rewrite Hfar.
    + apply Z.leb_gt in Hout. now rewrite Hout.
  - intros t force base entries pointer Hwf Hth Hparsed Hmode Hbase Hentries Hptr Hfar.
    unfold wf_view in Hwf.
    assert (0 <= byteLength (Tiff.view t)) by (unfold byteLength; lia).
    eapply thumbnail_pointer_past_view; eauto; lia.
Qed.

Lemma offset_out_of_bounds_fails_witness :
  TiffCore.parseTag farOffset 0 = Err OffsetOutOfBounds
  /\ Tiff.parseThumbnailBlock false
       (Tiff.set_ifd0Offset (Tiff.create thumbnailFar (allBlocks false false)) (Some 8))
     = Err OffsetOutOfBounds.
Proof.
  split.
  - apply (proj1 offset_out_of_bounds_fails farOffset 0 3 3 2 0x100).
    + vm_compute. reflexivity.
    + vm_compute. reflexivity.
    + reflexivity.
    + lia.
    + vm_compute. reflexivity.
    + vm_compute. reflexivity.
  - apply (proj2 offset_out_of_bounds_fails _ false 8 0 0x100).
    + unfold wf_view. vm_compute. discriminate.
    + reflexivity.
    + reflexivity.
    + reflexivity.
    + reflexivity.
    + vm_compute. reflexivity.
    + vm_compute. reflexivity.
    + vm_compute. reflexivity.
Defined.

(** ** Errors of the decoders *)

Ltac read_cases :=
  repeat match goal with
  | |- context [getBytes ?v ?o ?n] =>
      let E := fresh "E" in
      destruct (getBytes v o n) eqn:E;
      [| apply getBytes_error_kind in E; subst]; cbn [bind]
  end.

Lemma parseTagValue_error (v : BufferView) (type offset : Z) (e : TiffError) :
  TiffCore.parseTagValue v type offset = Err e -> decodeError e.
Proof.
  unfold decodeError.
  destruct type as [|p|p]; try (intros [= <-]; now right).
  do 4 (try (destruct p as [p|p|]); try (intros [= <-]; now right));
    cbn [TiffCore.parseTagValue];
    unfold getUint8, getUint16, getUint32, getInt8, getInt16, getInt32, getFloat, getDouble;
    read_cases; intros [= <-]; now left.
Qed.

Lemma parseTagArray_error (v : BufferView) (type : Z) (w : option Z) (n : nat) :
  forall (res : list Value) (loc : Z) (e : TiffError),
    TiffCore.parseTagArray v type w n res loc = Err e -> decodeError e.
Proof.
  induction n as [|n IH]; intros res loc e; cbn [TiffCore.parseTagArray]; [discriminate|].
  intros H. apply bind_Err in H as [H | (x & _ & H)].
  - eapply parseTagValue_error, H.
  - eapply IH, H.
Qed.

Lemma getUint16_error (v : BufferView) (off : Z) (e : TiffError) :
  getUint16 v off = Err e -> e = OffsetOutOfBounds.
Proof. apply read_error_kind. Qed.

Lemma getUint32_error (v : BufferView) (off : Z) (e : TiffError) :
  getUint32 v off = Err e -> e = OffsetOutOfBounds.
Proof. apply read_error_kind. Qed.

Lemma parseTag_error (v : BufferView) (offset : Z) (e : TiffError) :
  TiffCore.parseTag v offset = Err e -> decodeError e.
Proof.
  unfold TiffCore.parseTag, decodeError. intros H.
  apply bind_Err in H as [H | (type & _ & H)]; [left; eapply getUint16_error, H|].
  apply bind_Err in H as [H | (count & _ & H)]; [left; eapply getUint32_error, H|].
  apply bind_Err in H as [H | (loc & _ & H)].
  { destruct (TiffCore.fitsInline _ _); [discriminate H | left; eapply getUint32_error, H]. }
  destruct (loc >? bufferByteLength v); [injection H as <-; now left|].
  destruct (type =? 2).
  { apply bind_Err in H as [H | (x & _ & H)]; [|discriminate H].
    left. unfold getString in H. eapply read_error_kind, H. }
  destruct (type =? 7).
  { apply bind_Err in H as [H | (x & _ & H)]; [|discriminate H].
    left. eapply getBytes_error_kind, H. }
  destruct (count =? 1); [eapply parseTagValue_error, H|].
  apply bind_Err in H as [H | (x & _ & H)]; [|discriminate H].
  eapply parseTagArray_error, H.
Qed.

Lemma parseEntries_error (v : BufferView) (o : Options) (n : nat) :
  forall (offset : Z) (output : Block) (e : TiffError),
    TiffCore.parseEntries v o n offset output = Err e -> decodeError e.
Proof.
  induction n as [|n IH]; intros offset output e; cbn [TiffCore.parseEntries]; [discriminate|].
  intros H.
  apply bind_Err in H as [H | (tag & _ & H)]; [left; eapply getUint16_error, H|].
  apply bind_Err in H as [H | (out & _ & H)]; [|eapply IH, H].
  destruct (_ || _); [|discriminate H].
  apply bind_Err in H as [H | (x & _ & H)]; [|discriminate H].
  eapply parseTag_error, H.
Qed.

Lemma parseTags_error (v : BufferView) (o : Options) (offset : Z) (e : TiffError) :
  TiffCore.parseTags v o offset = Err e -> decodeError e.
Proof.
  unfold TiffCore.parseTags. intros H.
  apply bind_Err in H as [H | (n & _ & H)]; [left; eapply getUint16_error, H|].
  eapply parseEntries_error, H.
Qed.

Lemma asOffset_error (p : option Value) (e : TiffError) :
  Tiff.asOffset p = Err e -> decodeError e.
Proof.
  unfold Tiff.asOffset. intros H. left.
  destruct p as [[n|f|u|b|l]|]; try discriminate H; try (now injection H as <-).
  destruct (integralValue f); [discriminate H | now injection H as <-].
Qed.

(** Decoding the directory a pointer designates. *)
Lemma pointed_block_error (t : Tiff.Tiff) (p : Value) (k : Block -> Tiff.Tiff) (e : TiffError) :
  (let* off := Tiff.asOffset (Some p) in
   let* tags := TiffCore.parseTags (Tiff.view t) (Tiff.options t) off in
   OK (k tags)) = Err e ->
  decodeError e.
Proof.
  intros H.
  apply bind_Err in H as [H | (off & _ & H)]; [eapply asOffset_error, H|].
  apply bind_Err in H as [H | (tags & _ & H)]; [eapply parseTags_error, H | discriminate H].
Qed.

Lemma parseExifBlock_error (t : Tiff.Tiff) (e : TiffError) :
  Tiff.parseExifBlock t = Err e -> decodeError e.
Proof.
  unfold Tiff.parseExifBlock.
  destruct (Tiff.isSome _); [discriminate|].
  destruct (Tiff.exifOffset t); [|discriminate].
  apply pointed_block_error.
Qed.

Lemma parseGpsBlock_error (t : Tiff.Tiff) (e : TiffError) :
  Tiff.parseGpsBlock t = Err e -> decodeError e.
Proof.
  unfold Tiff.parseGpsBlock.
  destruct (Tiff.isSome _); [discriminate|].
  destruct (Tiff.gpsOffset t); [|discriminate].
  apply pointed_block_error.
Qed.

Lemma parseInteropBlock_error (t : Tiff.Tiff) (e : TiffError) :
  Tiff.parseInteropBlock t = Err e -> decodeError e.
Proof.
  unfold Tiff.parseInteropBlock.
  destruct (Tiff.isSome _); [discriminate|].
  destruct (Tiff.interopOffset _); [|discriminate].
  apply pointed_block_error.
Qed.

Lemma parseThumbnailBlock_error (force : bool) (t : Tiff.Tiff) (e : TiffError) :
  Tiff.parseThumbnailBlock force t = Err e -> decodeError e.
Proof.
  unfold Tiff.parseThumbnailBlock.
  destruct (_ || _); [discriminate|].
  destruct (_ && _); [discriminate|].
  intros H.
  apply bind_Err in H as [H | (base & _ & H)]; [eapply asOffset_error, H|].
  apply bind_Err in H as [H | (n & _ & H)]; [left; eapply getUint16_error, H|].
  apply bind_Err in H as [H | (p & _ & H)]; [left; eapply getUint32_error, H|].
  destruct (p =? 0); [discriminate H|].
  apply bind_Err in H as [H | (tags & _ & H)]; [eapply parseTags_error, H | discriminate H].
Qed.

Lemma decodeError_not_header (e : TiffError) : decodeError e -> e <> MalformedHeader.
Proof. intros [-> | ->]; discriminate. Qed.

(** ** The header *)

Lemma parseHeader_marker (v : BufferView) (word : Z) :
  getUint16 v 0 = OK word ->
  TiffCore.parseHeader v
  = if (word =? TIFF_LITTLE_ENDIAN) || (word =? TIFF_BIG_ENDIAN) then
      let v' := set_le v (word =? TIFF_LITTLE_ENDIAN) in
      let* magic := getUint16 v' 2 in
      if magic =? 0x002A then OK v' else Err MalformedHeader
    else Err MalformedHeader.
Proof.
  intros H. unfold TiffCore.parseHeader. rewrite H. cbn [bind].
  destruct (word =? TIFF_LITTLE_ENDIAN) eqn:EL; cbn [orb bind].
  - destruct (getUint16 (set_le v true) 2) as [magic|e]; cbn [bind]; [|reflexivity].
    now destruct (magic =? 42).
  - destruct (word =? TIFF_BIG_ENDIAN) eqn:EB; cbn [bind]; [|reflexivity].
    destruct (getUint16 (set_le v false) 2) as [magic|e]; cbn [bind]; [|reflexivity].
    now destruct (magic =? 42).
Qed.

Lemma parseHeader_OK (v v' : BufferView) :
  TiffCore.parseHeader v = OK v' <->
  exists word : Z,
    getUint16 v 0 = OK word
    /\ (word = TIFF_LITTLE_ENDIAN \/ word = TIFF_BIG_ENDIAN)
    /\ v' = set_le v (word =? TIFF_LITTLE_ENDIAN)
    /\ getUint16 v' 2 = OK 0x002A.
Proof.
  split.
  - intros H. destruct (getUint16 v 0) as [word|e] eqn:Hw.
    + rewrite (parseHeader_marker v word Hw) in H. exists word.
      destruct (_ || _) eqn:Hm; [|discriminate H]. cbn zeta in H.
      apply bind_OK in H as (magic & Hmagic & H).
      destruct (magic =? 42) eqn:E; [|discriminate H].
      injection H as <-. apply Z.eqb_eq in E. subst magic.
      apply orb_true_iff in Hm as [Hm | Hm]; apply Z.eqb_eq in Hm; auto.
    + unfold TiffCore.parseHeader in H. rewrite Hw in H. discriminate H.
  - intros (word & Hw & Hm & -> & Hmagic).
    rewrite (parseHeader_marker v word Hw).
    replace (_ || _) with true
      by (symmetry; apply orb_true_iff; destruct Hm as [-> | ->]; auto).
    cbn zeta. now rewrite Hmagic.
Qed.

Lemma parseHeader_malformed (v : BufferView) :
  TiffCore.parseHeader v = Err MalformedHeader <-> headerMalformed v.
Proof.
  unfold headerMalformed. split.
  - intros H. destruct (getUint16 v 0) as [word|e] eqn:Hw.
    + rewrite (parseHeader_marker v word Hw) in H. exists word. split; [reflexivity|].
      destruct (_ || _) eqn:Hm.
      * right. cbn zeta in H.
        apply bind_Err in H as [H | (magic & Hmagic & H)];
          [apply getUint16_error in H; discriminate H|].
        exists magic. split; [exact Hmagic|].
        destruct (magic =? 42) eqn:E; [discriminate H|]. now apply Z.eqb_neq in E.
      * left. apply orb_false_iff in Hm as [H1 H2].
        apply Z.eqb_neq in H1, H2. auto.
    + unfold TiffCore.parseHeader in H. rewrite Hw in H. cbn [bind] in H.
      apply getUint16_error in Hw. congruence.
  - intros (word & Hw & [[H1 H2] | (magic & Hmagic & Hne)]);
      rewrite (parseHeader_marker v word Hw).
    + apply Z.eqb_neq in H1, H2. now rewrite H1, H2.
    + destruct (_ || _); [|reflexivity]. cbn zeta. rewrite Hmagic. cbn [bind].
      apply Z.eqb_neq in Hne. now rewrite Hne.
Qed.

Lemma parseIfd0Block_malformed (t : Tiff.Tiff) :
  Tiff.parseIfd0Block t = Err MalformedHeader <->
  Tiff.ifd0 t = None /\ ifd0OffsetMalformed (Tiff.view t).
Proof.
  unfold Tiff.parseIfd0Block, ifd0OffsetMalformed. split.
  - destruct (Tiff.ifd0 t); cbn [Tiff.isSome]; [discriminate|].
    intros H. split; [reflexivity|].
    apply bind_Err in H as [H | (off & Hoff & H)];
      [apply getUint32_error in H; discriminate H|].
    exists off. split; [exact Hoff|].
    destruct (off <? 8) eqn:E; [now apply Z.ltb_lt in E|].
    exfalso.
    apply bind_Err in H as [H | (tags & _ & H)].
    + apply parseTags_error, decodeError_not_header in H. congruence.
    + destruct (_ =? _)%nat; [discriminate H|].
      destruct (sanitize _); discriminate H.
  - intros (Hnone & off & Hoff & Hlt). rewrite Hnone, Hoff. cbn [Tiff.isSome bind].
    apply Z.ltb_lt in Hlt. now rewrite Hlt.
Qed.

Lemma postProcess_error
    (enrich : bool -> bool -> list (option Block) -> option (list (option Block)))
    (t : Tiff.Tiff) (e : TiffError) :
  Tiff.postProcess enrich t = Err e -> e = CollaboratorFailure.
Proof.
  unfold Tiff.postProcess. destruct (negb _); [discriminate|].
  destruct (enrich _ _ _) as [[|b0 [|b1 [|b2 [|b3 [|b4 [|b5 l]]]]]]|];
    try discriminate; now intros [= <-].
Qed.

Lemma parseBlocks_malformed (t : Tiff.Tiff) :
  Tiff.parseBlocks t = Err MalformedHeader <->
  headerMalformed (Tiff.view t)
  \/ (Tiff.ifd0 t = None
      /\ exists v' : BufferView,
           TiffCore.parseHeader (Tiff.view t) = OK v' /\ ifd0OffsetMalformed v').
Proof.
  unfold Tiff.parseBlocks. split.
  - intros H.
    apply bind_Err in H as [H | (v' & Hv' & H)]; [left; now apply parseHeader_malformed|].
    right.
    apply bind_Err in H as [H | (t1 & _ & H)].
    { apply parseIfd0Block_malformed in H as [H1 H2]. split; [exact H1|]. now exists v'. }
    exfalso.
    apply bind_Err in H as [H | (t2 & _ & H)].
    { destruct (opt_exif _); [|discriminate H].
      apply parseExifBlock_error, decodeError_not_header in H. congruence. }
    apply bind_Err in H as [H | (t3 & _ & H)].
    { destruct (opt_gps _); [|discriminate H].
      apply parseGpsBlock_error, decodeError_not_header in H. congruence. }
    apply bind_Err in H as [H | (t4 & _ & H)].
    { destruct (opt_interop _); [|discriminate H].
      apply parseInteropBlock_error, decodeError_not_header in H. congruence. }
    destruct (opt_thumbnail _); [|discriminate H].
    apply bind_Err in H as [H | (r & _ & H)]; [|discriminate H].
    apply parseThumbnailBlock_error, decodeError_not_header in H. congruence.
  - intros [H | (Hnone & v' & Hv' & Hoff)].
    + apply parseHeader_malformed in H. now rewrite H.
    + rewrite Hv'. cbn [bind].
      assert (Tiff.parseIfd0Block (Tiff.set_view t v') = Err MalformedHeader) as ->
        by (apply parseIfd0Block_malformed; split; [exact Hnone | exact Hoff]).
      reflexivity.
Qed.

(** C4: header validation selects little-endian exactly for the word 0x4949
    at offset 0 and big-endian exactly for 0x4D4D, and requires the word
    0x002A at offset 2; it raises [MalformedHeader] exactly for another
    marker or another word at offset 2; decoding IFD0 raises it exactly when
    the 32-bit offset at offset 4 is less than 8; no directory or block
    decoder and nothing else in [parse] raises it. *)
Theorem malformed_header_exactly :
  (forall v v' : BufferView,
      TiffCore.parseHeader v = OK v' <->
      exists word : Z,
        getUint16 v 0 = OK word
        /\ (word = 0x4949 \/ word = 0x4D4D)
        /\ v' = set_le v (word =? 0x4949)
        /\ getUint16 v' 2 = OK 0x002A)
  /\ (forall v : BufferView,
      TiffCore.parseHeader v = Err MalformedHeader <-> headerMalformed v)
  /\ (forall t : Tiff.Tiff,
      Tiff.parseIfd0Block t = Err MalformedHeader <->
      Tiff.ifd0 t = None /\ ifd0OffsetMalformed (Tiff.view t))
  /\ (forall (v : BufferView) (o : Options) (offset : Z),
      TiffCore.parseTags v o offset <> Err MalformedHeader)
  /\ (forall (t : Tiff.Tiff) (force : bool),
      Tiff.parseExifBlock t <> Err MalformedHeader
      /\ Tiff.parseGpsBlock t <> Err MalformedHeader
      /\ Tiff.parseInteropBlock t <> Err MalformedHeader
      /\ Tiff.parseThumbnailBlock force t <> Err MalformedHeader)
  /\ (forall (enrich : bool -> bool -> list (option Block) -> option (list (option Block)))
             (t : Tiff.Tiff),
      Tiff.parse enrich t = Err MalformedHeader <->
      headerMalformed (Tiff.view t)
      \/ (Tiff.ifd0 t = None
          /\ exists v' : BufferView,
               TiffCore.parseHeader (Tiff.view t) = OK v' /\ ifd0OffsetMalformed v')).
Proof.
  split; [exact parseHeader_OK|].
  split; [exact parseHeader_malformed|].
  split; [exact parseIfd0Block_malformed|].
  split; [|split].
  - intros v o offset H. apply parseTags_error, decodeError_not_header in H. congruence.
  - intros t force. repeat split; intros H.
    + apply parseExifBlock_error, decodeError_not_header in H. congruence.
    + apply parseGpsBlock_error, decodeError_not_header in H. congruence.
    + apply parseInteropBlock_error, decodeError_not_header in H. congruence.
    + apply parseThumbnailBlock_error, decodeError_not_header in H. congruence.
  - intros enrich t. rewrite <- parseBlocks_malformed. unfold Tiff.parse. split.
    + intros H. apply bind_Err in H as [H | (t1 & _ & H)]; [exact H|].
      apply bind_Err in H as [H | (t2 & _ & H)]; [|discriminate H].
      apply postProcess_error in H. discriminate H.
    + intros H. now rewrite H.
Qed.

Lemma malformed_header_exactly_witness :
  TiffCore.parseHeader minimalLE = OK (set_le minimalLE true)
  /\ TiffCore.parseHeader minimalBE = OK (set_le minimalBE false)
  /\ TiffCore.parseHeader wrongMarker = Err MalformedHeader
  /\ TiffCore.parseHeader wrongMagic = Err MalformedHeader
  /\ Tiff.parse noEnrichment (Tiff.create ifd0TooLow (allBlocks false false))
     = Err MalformedHeader.
Proof.
  destruct malformed_header_exactly as (Hok & Hhdr & _ & _ & _ & Hparse).
  split; [|split; [|split; [|split]]].
  - apply Hok. exists 0x4949. repeat split; auto.
  - apply Hok. exists 0x4D4D. repeat split; auto.
  - apply Hhdr. exists 0x4D49. split; [reflexivity|]. left. split; discriminate.
  - apply Hhdr. exists 0x4949. split; [reflexivity|]. right.
    exists 0x002B. split; [reflexivity | discriminate].
  - apply Hparse. right. split; [reflexivity|].
    exists (set_le ifd0TooLow true). split; [reflexivity|].
    exists 4. split; [reflexivity | lia].
Defined.

(** ** The guards of the block parsers *)

Lemma jsOr_None (a b : option Value) : Tiff.jsOr a b = None -> b = None.
Proof.
  unfold Tiff.jsOr. destruct a as [x|]; [|easy].
  destruct (Tiff.truthy x); [discriminate | easy].
Qed.

Lemma parseIfd0Block_populates (t t' : Tiff.Tiff) :
  Tiff.parseIfd0Block t = OK t' -> Tiff.isSome (Tiff.ifd0 t') = true.
Proof.
  unfold Tiff.parseIfd0Block.
  destruct (Tiff.isSome (Tiff.ifd0 t)) eqn:E; [now intros [= <-]|].
  intros H. apply bind_OK in H as (off & _ & H).
  destruct (off <? 8); [discriminate H|].
  apply bind_OK in H as (tags & _ & H).
  destruct (_ =? _)%nat; [now injection H as <-|].
  destruct (sanitize _); now injection H as <-.
Qed.

Lemma parseIfd0Block_again (t t' : Tiff.Tiff) :
  Tiff.parseIfd0Block t = OK t' -> Tiff.parseIfd0Block t' = OK t'.
Proof.
  intros H. apply parseIfd0Block_populates in H.
  unfold Tiff.parseIfd0Block. now rewrite H.
Qed.

Lemma parseExifBlock_again (t t' : Tiff.Tiff) :
  Tiff.parseExifBlock t = OK t' -> Tiff.parseExifBlock t' = OK t'.
Proof.
  unfold Tiff.parseExifBlock at 1.
  destruct (Tiff.isSome (Tiff.exif t)) eqn:E.
  - intros [= <-]. unfold Tiff.parseExifBlock. now rewrite E.
  - destruct (Tiff.exifOffset t) as [p|] eqn:Ep.
    + intros H. apply bind_OK in H as (off & _ & H).
      apply bind_OK in H as (tags & _ & H). now injection H as <-.
    + intros [= <-]. unfold Tiff.parseExifBlock. now rewrite E, Ep.
Qed.

Lemma parseGpsBlock_again (t t' : Tiff.Tiff) :
  Tiff.parseGpsBlock t = OK t' -> Tiff.parseGpsBlock t' = OK t'.
Proof.
  unfold Tiff.parseGpsBlock at 1.
  destruct (Tiff.isSome (Tiff.gps t)) eqn:E.
  - intros [= <-]. unfold Tiff.parseGpsBlock. now rewrite E.
  - destruct (Tiff.gpsOffset t) as [p|] eqn:Ep.
    + intros H. apply bind_OK in H as (off & _ & H).
      apply bind_OK in H as (tags & _ & H). now injection H as <-.
    + intros [= <-]. unfold Tiff.parseGpsBlock. now rewrite E, Ep.
Qed.

Lemma parseInteropBlock_again (t t' : Tiff.Tiff) :
  Tiff.parseInteropBlock t = OK t' -> Tiff.parseInteropBlock t' = OK t'.
Proof.
  unfold Tiff.parseInteropBlock at 1.
  destruct (Tiff.isSome (Tiff.interop t)) eqn:E.
  - intros [= <-]. unfold Tiff.parseInteropBlock. now rewrite E.
  - cbn [Tiff.interopOffset Tiff.set_interopOffset Tiff.view Tiff.options].
    destruct (Tiff.jsOr (Tiff.interopOffset t) (Tiff.exifInteropPointer t)) as [p|] eqn:Ep.
    + intros H. apply bind_OK in H as (off & _ & H).
      apply bind_OK in H as (tags & _ & H). now injection H as <-.
    + intros [= <-]. apply jsOr_None in Ep.
      unfold Tiff.parseInteropBlock, Tiff.exifInteropPointer in *.
      cbn [Tiff.interop Tiff.interopOffset Tiff.exif Tiff.set_interopOffset Tiff.jsOr].
      rewrite E, Ep. reflexivity.
Qed.

Lemma parseThumbnailBlock_again (force : bool) (t t' : Tiff.Tiff) (r : option bool) :
  Tiff.parseThumbnailBlock force t = OK (t', r) ->
  exists r' : option bool, Tiff.parseThumbnailBlock force t' = OK (t', r').
Proof.
  unfold Tiff.parseThumbnailBlock at 1.
  destruct (Tiff.isSome (Tiff.thumbnail t) || Tiff.thumbnailParsed t) eqn:E.
  { intros [= <- <-]. exists None. unfold Tiff.parseThumbnailBlock. now rewrite E. }
  destruct (mergeOutput (Tiff.options t) && negb force) eqn:Em.
  { intros [= <- <-]. exists (Some false). unfold Tiff.parseThumbnailBlock. now rewrite E, Em. }
  intros H.
  apply bind_OK in H as (base & Hbase & H).
  apply bind_OK in H as (n & Hn & H).
  apply bind_OK in H as (p & Hp & H).
  destruct (p =? 0) eqn:E0.
  - injection H as <- <-. exists (Some false).
    unfold Tiff.parseThumbnailBlock.
    cbn [Tiff.thumbnail Tiff.thumbnailParsed Tiff.options Tiff.ifd0Offset Tiff.view
         Tiff.set_ifd1Offset].
    rewrite E, Em, Hbase. cbn [bind]. rewrite Hn. cbn [bind]. rewrite Hp. cbn [bind].
    rewrite E0. reflexivity.
  - apply bind_OK in H as (tags & _ & H). injection H as <- <-.
    exists None. reflexivity.
Qed.

(** C7: every block parser returns at once, with the instance as it is, when
    its block is populated; and an invocation after a successful one returns
    the instance (blocks, captured offsets, output) unchanged. *)
Theorem block_parsers_idempotent (t : Tiff.Tiff) (force : bool) :
  (forall b : Block, Tiff.ifd0 t = Some b -> Tiff.parseIfd0Block t = OK t)
  /\ (forall b : Block, Tiff.exif t = Some b -> Tiff.parseExifBlock t = OK t)
  /\ (forall b : Block, Tiff.gps t = Some b -> Tiff.parseGpsBlock t = OK t)
  /\ (forall b : Block, Tiff.interop t = Some b -> Tiff.parseInteropBlock t = OK t)
  /\ (forall b : Block, Tiff.thumbnail t = Some b ->
        Tiff.parseThumbnailBlock force t = OK (t, None))
  /\ (forall t' : Tiff.Tiff,
        Tiff.parseIfd0Block t = OK t' -> Tiff.parseIfd0Block t' = OK t')
  /\ (forall t' : Tiff.Tiff,
        Tiff.parseExifBlock t = OK t' -> Tiff.parseExifBlock t' = OK t')
  /\ (forall t' : Tiff.Tiff,
        Tiff.parseGpsBlock t = OK t' -> Tiff.parseGpsBlock t' = OK t')
  /\ (forall t' : Tiff.Tiff,
        Tiff.parseInteropBlock t = OK t' -> Tiff.parseInteropBlock t' = OK t')
  /\ (forall (t' : Tiff.Tiff) (r : option bool),
        Tiff.parseThumbnailBlock force t = OK (t', r) ->
        exists r' : option bool, Tiff.parseThumbnailBlock force t' = OK (t', r')).
Proof.
  repeat split.
  - intros b H. unfold Tiff.parseIfd0Block. now rewrite H.
  - intros b H. unfold Tiff.parseExifBlock. now rewrite H.
  - intros b H. unfold Tiff.parseGpsBlock. now rewrite H.
  - intros b H. unfold Tiff.parseInteropBlock. now rewrite H.
  - intros b H. unfold Tiff.parseThumbnailBlock. now rewrite H.
  - apply parseIfd0Block_again.
  - apply parseExifBlock_again.
  - apply parseGpsBlock_again.
  - apply parseInteropBlock_again.
  - apply parseThumbnailBlock_again.
Qed.

Lemma block_parsers_idempotent_witness :
  Tiff.parseIfd0Block populated = OK populated
  /\ Tiff.parseExifBlock populated = OK populated
  /\ Tiff.parseGpsBlock populated = OK populated
  /\ Tiff.parseInteropBlock populated = OK populated
  /\ Tiff.parseThumbnailBlock true populated = OK (populated, None).
Proof.
  destruct (block_parsers_idempotent populated true) as (H0 & H1 & H2 & H3 & H4 & _).
  split; [|split; [|split; [|split]]].
  - exact (H0 _ eq_refl).
  - exact (H1 _ eq_refl).
  - exact (H2 _ eq_refl).
  - exact (H3 _ eq_refl).
  - exact (H4 _ eq_refl).
Defined.

(** ** IFD0 and the pointer tags *)

Lemma sanitized_lookup (tags : Block) (k : Key) :
  delete (Tag TAG_IFD_GPS) (delete (Tag TAG_IFD_INTEROP) (delete (Tag TAG_IFD_EXIF) tags)) !! k
  = if pointerTag k then None else tags !! k.
Proof.
  rewrite !lookup_delete. unfold pointerTag.
  destruct k as [code|name].
  - destruct (code =? TAG_IFD_GPS) eqn:Eg.
    { apply Z.eqb_eq in Eg. subst. rewrite decide_True by reflexivity.
      now rewrite orb_true_r. }
    rewrite decide_False by (apply Z.eqb_neq in Eg; congruence).
    destruct (code =? TAG_IFD_INTEROP) eqn:Ei.
    { apply Z.eqb_eq in Ei. subst. rewrite decide_True by reflexivity.
      now rewrite orb_true_r. }
    rewrite decide_False by (apply Z.eqb_neq in Ei; congruence).
    destruct (code =? TAG_IFD_EXIF) eqn:Ee.
    { apply Z.eqb_eq in Ee. subst. now rewrite decide_True by reflexivity. }
    rewrite decide_False by (apply Z.eqb_neq in Ee; congruence).
    reflexivity.
  - now rewrite !decide_False by discriminate.
Qed.

(** C9: decoding IFD0 captures the EXIF, GPS and Interop pointers; with
    [sanitize] the emitted [ifd0] mapping is the decoded one without exactly
    these three tags, every other tag as decoded; without [sanitize] it is
    the decoded mapping. *)
Theorem sanitize_removes_exactly_pointer_tags
    (t : Tiff.Tiff) (off : Z) (tags : Block) :
  Tiff.ifd0 t = None ->
  getUint32 (Tiff.view t) 4 = OK off ->
  8 <= off ->
  TiffCore.parseTags (Tiff.view t) (Tiff.options t) off = OK tags ->
  exists (t' : Tiff.Tiff) (emitted : Block),
    Tiff.parseIfd0Block t = OK t'
    /\ Tiff.ifd0 t' = Some emitted
    /\ (tags <> ∅ ->
        Tiff.exifOffset t' = tags !! Tag TAG_IFD_EXIF
        /\ Tiff.gpsOffset t' = tags !! Tag TAG_IFD_GPS
        /\ Tiff.interopOffset t' = tags !! Tag TAG_IFD_INTEROP)
    /\ (sanitize (Tiff.options t) = true ->
        forall k : Key, emitted !! k = if pointerTag k then None else tags !! k)
    /\ (sanitize (Tiff.options t) = false -> emitted = tags).
Proof.
  intros Hnone Hoff Hge Htags.
  unfold Tiff.parseIfd0Block. rewrite Hnone, Hoff. cbn [Tiff.isSome bind].
  apply Z.ltb_ge in Hge. rewrite Hge.
  cbn [Tiff.view Tiff.options Tiff.set_ifd0Offset]. rewrite Htags. cbn [bind].
  destruct (size tags =? 0)%nat eqn:Esize.
  - apply Nat.eqb_eq, map_size_empty_iff in Esize. subst tags.
    eexists _, ∅. split; [reflexivity|]. split; [reflexivity|].
    split; [congruence|]. split; [|reflexivity].
    intros _ k. rewrite lookup_empty. now destruct (pointerTag k).
  - cbn [Tiff.options Tiff.set_ifd0 Tiff.set_exifOffset Tiff.set_interopOffset
         Tiff.set_gpsOffset Tiff.set_ifd0Offset].
    destruct (sanitize (Tiff.options t)) eqn:Es.
    + eexists _, _. split; [reflexivity|]. split; [reflexivity|].
      split; [intros _; repeat split|]. split; [|discriminate].
      intros _ k. apply sanitized_lookup.
    + eexists _, tags. split; [reflexivity|]. split; [reflexivity|].
      split; [intros _; repeat split|]. split; [discriminate | reflexivity].
Qed.

Lemma sanitize_removes_exactly_pointer_tags_witness :
  exists (t' : Tiff.Tiff) (emitted : Block),
    Tiff.parseIfd0Block (Tiff.create withThumbnail (allBlocks false true)) = OK t'
    /\ Tiff.ifd0 t' = Some emitted
    /\ Tiff.exifOffset t' = Some (VInt 38)
    /\ emitted !! Tag 0x8769 = None
    /\ emitted !! Tag 0x0100 = Some (VInt 640).
Proof.
  destruct (sanitize_removes_exactly_pointer_tags
              (Tiff.create withThumbnail (allBlocks false true)) 8
              {[ Tag 0x0100 := VInt 640; Tag 0x8769 := VInt 38 ]})
    as (t' & emitted & Hrun & Hifd0 & Hptr & Hclean & _).
  - reflexivity.
  - vm_compute. reflexivity.
  - lia.
  - vm_compute. reflexivity.
  - exists t', emitted. split; [exact Hrun|]. split; [exact Hifd0|].
    split; [|split].
    + destruct Hptr as (He & _ & _); [|rewrite He; reflexivity].
      intros E. apply (f_equal (fun m : Block => m !! Tag 0x0100)) in E.
      vm_compute in E. discriminate E.
    + rewrite (Hclean eq_refl). reflexivity.
    + rewrite (Hclean eq_refl). reflexivity.
Defined.

Example ifd0_kept_without_sanitize :
  (let* t := Tiff.parseIfd0Block (Tiff.create withThumbnail (allBlocks false false)) in
   OK (Tiff.ifd0 t))
  = OK (Some {[ Tag 0x0100 := VInt 640; Tag 0x8769 := VInt 38 ]}).
Proof. vm_compute. reflexivity. Qed.

(** ** The Interop block *)

Lemma integralValue_zero (f : number) :
  integralValue f = Some 0 -> exists s : bool, f = S754_zero s.
Proof.
  destruct f as [s|s| |s m e]; cbn [integralValue]; try discriminate; [eauto|].
  intros H. exfalso.
  destruct (0 <=? e) eqn:Ee.
  - apply Z.leb_le in Ee. pose proof (Z.pow_pos_nonneg 2 e ltac:(lia) Ee).
    destruct s; injection H as H; nia.
  - apply Z.leb_gt in Ee.
    pose proof (Z.pow_pos_nonneg 2 (- e) ltac:(lia) ltac:(lia)) as Hk.
    destruct (Zpos m mod 2 ^ (- e) =? 0) eqn:Em; [|discriminate H].
    apply Z.eqb_eq in Em.
    pose proof (Z.div_mod (Zpos m) (2 ^ (- e)) ltac:(lia)) as Hdm.
    destruct s; injection H as H; nia.
Qed.

(** The number 0 is falsy, however its entry was typed. *)
Lemma zero_is_falsy (p : Value) : Tiff.integerOf p = Some 0 -> Tiff.truthy p = false.
Proof.
  destruct p as [n|f|u|b|l]; cbn [Tiff.integerOf]; try discriminate.
  - now intros [= ->].
  - intros H. now apply integralValue_zero in H as [s ->].
Qed.

Lemma asOffset_integer (p : Value) (off : Z) :
  Tiff.integerOf p = Some off -> Tiff.asOffset (Some p) = OK off.
Proof.
  destruct p as [n|f|u|b|l]; cbn [Tiff.integerOf Tiff.asOffset]; try discriminate.
  - now intros [= ->].
  - now intros ->.
Qed.

(** C10: with an Interop pointer from IFD0 that is missing, or is the number
    0 (however its entry was typed), or is falsy in another way,
    [parseInteropBlock] takes the Interop pointer of the decoded [exif] block
    (none when there is no [exif] block); it decodes nothing when that
    pointer is undefined, and decodes the Interop directory at that pointer
    when it is an integer number: the pointer 0 of IFD0 is never the offset
    decoded. *)
Theorem interop_falls_back_to_exif_pointer (t : Tiff.Tiff) :
  Tiff.interop t = None ->
  Tiff.interopOffset t = None
  \/ (exists p : Value,
        Tiff.interopOffset t = Some p
        /\ (Tiff.integerOf p = Some 0 \/ Tiff.truthy p = false)) ->
  Tiff.exifInteropPointer t
  = match Tiff.exif t with
    | Some e => e !! Tag TAG_IFD_INTEROP
    | None => None
    end
  /\ (Tiff.exifInteropPointer t = None ->
      Tiff.parseInteropBlock t = OK (Tiff.set_interopOffset t None))
  /\ (forall (p : Value) (off : Z),
      Tiff.exifInteropPointer t = Some p ->
      Tiff.integerOf p = Some off ->
      Tiff.parseInteropBlock t
      = let* tags := TiffCore.parseTags (Tiff.view t) (Tiff.options t) off in
        OK (Tiff.set_interop (Tiff.set_interopOffset t (Some p)) (Some tags))).
Proof.
  intros Hnone Hptr. split; [reflexivity|].
  assert (Tiff.jsOr (Tiff.interopOffset t) (Tiff.exifInteropPointer t)
          = Tiff.exifInteropPointer t) as Hor.
  { destruct Hptr as [-> | (p & -> & [Hp | Hp])]; [reflexivity | |].
    - cbn [Tiff.jsOr]. now rewrite (zero_is_falsy p Hp).
    - cbn [Tiff.jsOr]. now rewrite Hp. }
  split.
  - intros Hx. unfold Tiff.parseInteropBlock. rewrite Hnone. cbn [Tiff.isSome].
    rewrite Hor, Hx.
    cbn [Tiff.interopOffset Tiff.set_interopOffset]. reflexivity.
  - intros p off Hx Hoff. unfold Tiff.parseInteropBlock. rewrite Hnone. cbn [Tiff.isSome].
    rewrite Hor, Hx.
    cbn [Tiff.interopOffset Tiff.set_interopOffset Tiff.view Tiff.options].
    now rewrite (asOffset_integer p off Hoff).
Qed.

Lemma interop_falls_back_to_exif_pointer_witness :
  (let* t := Tiff.parseInteropBlock interopPendingRational in OK (Tiff.interop t))
  = OK (Some {[ Tag 0x0001 := VString "R98" ]})
  /\ (let* t := Tiff.parseInteropBlock interopPending in
      OK (Tiff.interopOffset t, Tiff.interop t))
     = OK (Some (VInt 56), Some {[ Tag 0x0001 := VString "R98" ]}).
Proof.
  split.
  - rewrite (proj2 (proj2 (interop_falls_back_to_exif_pointer interopPendingRational
                             eq_refl
                             (or_intror (ex_intro _ _ (conj eq_refl (or_introl eq_refl))))))
               (VFloat (numberDiv (numberOfZ 56) (numberOfZ 1))) 56 eq_refl eq_refl).
    vm_compute. reflexivity.
  - rewrite (proj2 (proj2 (interop_falls_back_to_exif_pointer interopPending
                             eq_refl
                             (or_intror (ex_intro _ _ (conj eq_refl (or_introl eq_refl))))))
               (VInt 56) 56 eq_refl eq_refl).
    vm_compute. reflexivity.
Defined.

(** The quotient 56/1 is the offset 56, and the quotient 0/1 is falsy. *)
Example rational_pointer_is_an_offset :
  Tiff.asOffset (Some (VFloat (numberDiv (numberOfZ 56) (numberOfZ 1)))) = OK 56
  /\ Tiff.truthy (VFloat (numberDiv (numberOfZ 0) (numberOfZ 1))) = false.
Proof. split; vm_compute; reflexivity. Qed.

(** With both Interop pointers stored as RATIONAL entries the Interop
    directory is decoded at the pointer of the EXIF directory. *)
Example interop_from_rational_pointer_end_to_end :
  (let* r := Tiff.parse noEnrichment
               (Tiff.create interopInExifRational (allBlocks false false)) in
   OK (Tiff.interopOffset (fst r), Tiff.interop (fst r)))
  = OK (Some (VFloat (numberDiv (numberOfZ 56) (numberOfZ 1))),
        Some {[ Tag 0x0001 := VString "R98" ]}).
Proof. vm_compute. reflexivity. Qed.

Example interop_from_exif_end_to_end :
  (let* r := Tiff.parse noEnrichment (Tiff.create interopInExif (allBlocks false false)) in
   OK (Tiff.interop (fst r)))
  = OK (Some {[ Tag 0x0001 := VString "R98" ]}).
Proof. vm_compute. reflexivity. Qed.

(** ** Merged and grouped output *)

Ltac tiff_fields :=
  cbn [Tiff.view Tiff.options Tiff.ifd0 Tiff.exif Tiff.gps Tiff.interop Tiff.thumbnail
       Tiff.ifd0Offset Tiff.exifOffset Tiff.interopOffset Tiff.gpsOffset
       Tiff.ifd1Offset Tiff.thumbnailParsed Tiff.output
       Tiff.set_view Tiff.set_options Tiff.set_ifd0 Tiff.set_exif Tiff.set_gps
       Tiff.set_interop Tiff.set_thumbnail Tiff.set_ifd0Offset Tiff.set_exifOffset
       Tiff.set_interopOffset Tiff.set_gpsOffset Tiff.set_ifd1Offset
       Tiff.set_thumbnailParsed Tiff.set_output
       setMerge withMerge pickTags skipTags opt_exif opt_gps opt_interop opt_thumbnail
       mergeOutput sanitize opt_postProcess translateTags reviveValues].

Lemma parseEntries_withMerge (v : BufferView) (o : Options) (b : bool) (n : nat) :
  forall (offset : Z) (output : Block),
    TiffCore.parseEntries v (withMerge o b) n offset output
    = TiffCore.parseEntries v o n offset output.
Proof.
  induction n as [|n IH]; intros offset output; cbn [TiffCore.parseEntries]; [reflexivity|].
  destruct (getUint16 v offset) as [tag|e]; cbn [bind]; [|reflexivity].
  tiff_fields.
  destruct (_ || _).
  - destruct (TiffCore.parseTag v offset); cbn [bind]; [apply IH | reflexivity].
  - cbn [bind]. apply IH.
Qed.

Lemma parseTags_withMerge (v : BufferView) (o : Options) (b : bool) (offset : Z) :
  TiffCore.parseTags v (withMerge o b) offset = TiffCore.parseTags v o offset.
Proof.
  unfold TiffCore.parseTags.
  destruct (getUint16 v offset); cbn [bind]; [apply parseEntries_withMerge | reflexivity].
Qed.

Lemma parseIfd0Block_setMerge (t : Tiff.Tiff) (b : bool) :
  Tiff.parseIfd0Block (setMerge t b)
  = let* t' := Tiff.parseIfd0Block t in OK (setMerge t' b).
Proof.
  unfold Tiff.parseIfd0Block. tiff_fields.
  destruct (Tiff.isSome (Tiff.ifd0 t)); [reflexivity|].
  destruct (getUint32 (Tiff.view t) 4) as [off|e]; cbn [bind]; [|reflexivity].
  destruct (off <? 8); [reflexivity|].
  rewrite parseTags_withMerge.
  destruct (TiffCore.parseTags _ _ off) as [tags|e]; cbn [bind]; [|reflexivity].
  destruct (_ =? _)%nat; [reflexivity|].
  now destruct (sanitize (Tiff.options t)).
Qed.

Lemma parseExifBlock_setMerge (t : Tiff.Tiff) (b : bool) :
  Tiff.parseExifBlock (setMerge t b)
  = let* t' := Tiff.parseExifBlock t in OK (setMerge t' b).
Proof.
  unfold Tiff.parseExifBlock. tiff_fields.
  destruct (Tiff.isSome (Tiff.exif t)); [reflexivity|].
  destruct (Tiff.exifOffset t) as [p|]; [|reflexivity].
  destruct (Tiff.asOffset (Some p)) as [off|e]; cbn [bind]; [|reflexivity].
  rewrite parseTags_withMerge.
  now destruct (TiffCore.parseTags _ _ off).
Qed.

Lemma parseGpsBlock_setMerge (t : Tiff.Tiff) (b : bool) :
  Tiff.parseGpsBlock (setMerge t b)
  = let* t' := Tiff.parseGpsBlock t in OK (setMerge t' b).
Proof.
  unfold Tiff.parseGpsBlock. tiff_fields.
  destruct (Tiff.isSome (Tiff.gps t)); [reflexivity|].
  destruct (Tiff.gpsOffset t) as [p|]; [|reflexivity].
  destruct (Tiff.asOffset (Some p)) as [off|e]; cbn [bind]; [|reflexivity].
  rewrite parseTags_withMerge.
  now destruct (TiffCore.parseTags _ _ off).
Qed.

Lemma parseInteropBlock_setMerge (t : Tiff.Tiff) (b : bool) :
  Tiff.parseInteropBlock (setMerge t b)
  = let* t' := Tiff.parseInteropBlock t in OK (setMerge t' b).
Proof.
  unfold Tiff.parseInteropBlock, Tiff.exifInteropPointer. tiff_fields.
  destruct (Tiff.isSome (Tiff.interop t)); [reflexivity|].
  destruct (Tiff.jsOr _ _) as [p|]; [|reflexivity].
  destruct (Tiff.asOffset (Some p)) as [off|e]; cbn [bind]; [|reflexivity].
  rewrite parseTags_withMerge.
  now destruct (TiffCore.parseTags _ _ off).
Qed.

Lemma parseIfd0Block_frame (t t' : Tiff.Tiff) :
  Tiff.parseIfd0Block t = OK t' ->
  Tiff.options t' = Tiff.options t /\ Tiff.thumbnail t' = Tiff.thumbnail t.
Proof.
  unfold Tiff.parseIfd0Block.
  destruct (Tiff.isSome _); [now intros [= <-]|].
  intros H. apply bind_OK in H as (off & _ & H).
  destruct (off <? 8); [discriminate H|].
  apply bind_OK in H as (tags & _ & H).
  destruct (_ =? _)%nat; [now injection H as <-|].
  destruct (sanitize _); now injection H as <-.
Qed.

Lemma parseExifBlock_frame (t t' : Tiff.Tiff) :
  Tiff.parseExifBlock t = OK t' ->
  Tiff.options t' = Tiff.options t /\ Tiff.thumbnail t' = Tiff.thumbnail t.
Proof.
  unfold Tiff.parseExifBlock.
  destruct (Tiff.isSome _); [now intros [= <-]|].
  destruct (Tiff.exifOffset t); [|now intros [= <-]].
  intros H. apply bind_OK in H as (off & _ & H).
  apply bind_OK in H as (tags & _ & H). now injection H as <-.
Qed.

Lemma parseGpsBlock_frame (t t' : Tiff.Tiff) :
  Tiff.parseGpsBlock t = OK t' ->
  Tiff.options t' = Tiff.options t /\ Tiff.thumbnail t' = Tiff.thumbnail t.
Proof.
  unfold Tiff.parseGpsBlock.
  destruct (Tiff.isSome _); [now intros [= <-]|].
  destruct (Tiff.gpsOffset t); [|now intros [= <-]].
  intros H. apply bind_OK in H as (off & _ & H).
  apply bind_OK in H as (tags & _ & H). now injection H as <-.
Qed.

Lemma parseInteropBlock_frame (t t' : Tiff.Tiff) :
  Tiff.parseInteropBlock t = OK t' ->
  Tiff.options t' = Tiff.options t /\ Tiff.thumbnail t' = Tiff.thumbnail t.
Proof.
  unfold Tiff.parseInteropBlock.
  destruct (Tiff.isSome _); [now intros [= <-]|].
  destruct (Tiff.interopOffset _); [|now intros [= <-]].
  intros H. apply bind_OK in H as (off & _ & H).
  apply bind_OK in H as (tags & _ & H). now injection H as <-.
Qed.

Lemma pointedBlocks_setMerge (t : Tiff.Tiff) (b : bool) :
  pointedBlocks (setMerge t b) = let* t' := pointedBlocks t in OK (setMerge t' b).
Proof.
  unfold pointedBlocks.
  change (Tiff.view (setMerge t b)) with (Tiff.view t).
  destruct (TiffCore.parseHeader (Tiff.view t)) as [v|e]; cbn [bind]; [|reflexivity].
  change (Tiff.set_view (setMerge t b) v) with (setMerge (Tiff.set_view t v) b).
  rewrite parseIfd0Block_setMerge.
  destruct (Tiff.parseIfd0Block (Tiff.set_view t v)) as [t1|e]; cbn [bind]; [|reflexivity].
  change (opt_exif (Tiff.options (setMerge t1 b))) with (opt_exif (Tiff.options t1)).
  assert ((if opt_exif (Tiff.options t1) then Tiff.parseExifBlock (setMerge t1 b)
           else OK (setMerge t1 b))
          = let* t' := (if opt_exif (Tiff.options t1) then Tiff.parseExifBlock t1 else OK t1)
            in OK (setMerge t' b)) as ->
    by (destruct (opt_exif _); [apply parseExifBlock_setMerge | reflexivity]).
  destruct (if opt_exif (Tiff.options t1) then _ else _) as [t2|e]; cbn [bind]; [|reflexivity].
  change (opt_gps (Tiff.options (setMerge t2 b))) with (opt_gps (Tiff.options t2)).
  assert ((if opt_gps (Tiff.options t2) then Tiff.parseGpsBlock (setMerge t2 b)
           else OK (setMerge t2 b))
          = let* t' := (if opt_gps (Tiff.options t2) then Tiff.parseGpsBlock t2 else OK t2)
            in OK (setMerge t' b)) as ->
    by (destruct (opt_gps _); [apply parseGpsBlock_setMerge | reflexivity]).
  destruct (if opt_gps (Tiff.options t2) then _ else _) as [t3|e]; cbn [bind]; [|reflexivity].
  change (opt_interop (Tiff.options (setMerge t3 b))) with (opt_interop (Tiff.options t3)).
  destruct (opt_interop _); [apply parseInteropBlock_setMerge | reflexivity].
Qed.

Lemma pointedBlocks_frame (t t' : Tiff.Tiff) :
  pointedBlocks t = OK t' ->
  Tiff.options t' = Tiff.options t /\ Tiff.thumbnail t' = Tiff.thumbnail t.
Proof.
  unfold pointedBlocks. intros H.
  apply bind_OK in H as (v & _ & H).
  apply bind_OK in H as (t1 & H1 & H). apply parseIfd0Block_frame in H1 as [O1 T1].
  apply bind_OK in H as (t2 & H2 & H).
  assert (Tiff.options t2 = Tiff.options t1 /\ Tiff.thumbnail t2 = Tiff.thumbnail t1)
    as [O2 T2]
    by (destruct (opt_exif _); [now apply parseExifBlock_frame | now injection H2 as <-]).
  apply bind_OK in H as (t3 & H3 & H).
  assert (Tiff.options t3 = Tiff.options t2 /\ Tiff.thumbnail t3 = Tiff.thumbnail t2)
    as [O3 T3]
    by (destruct (opt_gps _); [now apply parseGpsBlock_frame | now injection H3 as <-]).
  assert (Tiff.options t' = Tiff.options t3 /\ Tiff.thumbnail t' = Tiff.thumbnail t3)
    as [O4 T4]
    by (destruct (opt_interop _); [now apply parseInteropBlock_frame | now injection H as <-]).
  cbn in O1, T1. split; congruence.
Qed.

Lemma parseBlocks_split (t : Tiff.Tiff) :
  Tiff.parseBlocks t
  = let* t4 := pointedBlocks t in
    if opt_thumbnail (Tiff.options t4)
    then let* r := Tiff.parseThumbnailBlock false t4 in OK (fst r)
    else OK t4.
Proof.
  unfold Tiff.parseBlocks, pointedBlocks.
  destruct (TiffCore.parseHeader _); cbn [bind]; [|reflexivity].
  destruct (Tiff.parseIfd0Block _) as [t1|]; cbn [bind]; [|reflexivity].
  destruct (if opt_exif (Tiff.options t1) then _ else _) as [t2|]; cbn [bind]; [|reflexivity].
  destruct (if opt_gps (Tiff.options t2) then _ else _) as [t3|]; cbn [bind]; [|reflexivity].
  destruct (if opt_interop (Tiff.options t3) then _ else _) as [t4|]; cbn [bind]; reflexivity.
Qed.

(** With [mergeOutput] and no [force], the thumbnail parser decodes
    nothing. *)
Lemma parseThumbnailBlock_merged (t : Tiff.Tiff) :
  mergeOutput (Tiff.options t) = true ->
  exists r : option bool, Tiff.parseThumbnailBlock false t = OK (t, r).
Proof.
  intros H. unfold Tiff.parseThumbnailBlock. rewrite H.
  destruct (_ || _); eauto.
Qed.

(** The thumbnail parser assigns no other block. *)
Lemma parseThumbnailBlock_frame (force : bool) (t t' : Tiff.Tiff) (r : option bool) :
  Tiff.parseThumbnailBlock force t = OK (t', r) ->
  Tiff.ifd0 t' = Tiff.ifd0 t /\ Tiff.exif t' = Tiff.exif t
  /\ Tiff.gps t' = Tiff.gps t /\ Tiff.interop t' = Tiff.interop t.
Proof.
  unfold Tiff.parseThumbnailBlock.
  destruct (_ || _); [now intros [= <- <-]|].
  destruct (_ && _); [now intros [= <- <-]|].
  intros H.
  apply bind_OK in H as (base & _ & H).
  apply bind_OK in H as (n & _ & H).
  apply bind_OK in H as (p & _ & H).
  destruct (p =? 0); [now injection H as <- <-|].
  apply bind_OK in H as (tags & _ & H). now injection H as <- <-.
Qed.

Lemma postProcess_setMerge
    (enrich : bool -> bool -> list (option Block) -> option (list (option Block)))
    (t : Tiff.Tiff) (b : bool) :
  Tiff.postProcess enrich (setMerge t b)
  = let* t' := Tiff.postProcess enrich t in OK (setMerge t' b).
Proof.
  unfold Tiff.postProcess. tiff_fields.
  destruct (negb _); [reflexivity|].
  destruct (enrich _ _ _) as [[|b0 [|b1 [|b2 [|b3 [|b4 [|b5 l]]]]]]|]; reflexivity.
Qed.

Lemma assign_lookup (target : Block) (source : option Block) (k : Key) :
  Tiff.assign target source !! k = orElse (tagOf source k) (target !! k).
Proof.
  destruct source as [b|]; cbn [Tiff.assign tagOf orElse]; [|reflexivity].
  rewrite lookup_union. now destruct (b !! k), (target !! k).
Qed.

(** In the merged output the tag of the later block wins. *)
Lemma mergedTags_lookup (t : Tiff.Tiff) (k : Key) :
  Tiff.mergedTags t !! k
  = orElse (tagOf (Tiff.thumbnail t) k)
      (orElse (tagOf (Tiff.interop t) k)
         (orElse (tagOf (Tiff.gps t) k)
            (orElse (tagOf (Tiff.exif t) k) (tagOf (Tiff.ifd0 t) k)))).
Proof.
  unfold Tiff.mergedTags. cbn [fold_left].
  rewrite !assign_lookup, lookup_empty.
  now destruct (tagOf (Tiff.ifd0 t) k).
Qed.

(** The grouped output maps the name of each populated block to it. *)
Lemma groupedBlocks_lookup (t : Tiff.Tiff) (name : string) :
  Tiff.groupedBlocks t !! name = Tiff.block t name.
Proof.
  unfold Tiff.groupedBlocks, blockKeys, Tiff.block. cbn [fold_left].
  change (Tiff.block t "ifd0") with (Tiff.ifd0 t).
  change (Tiff.block t "exif") with (Tiff.exif t).
  change (Tiff.block t "gps") with (Tiff.gps t).
  change (Tiff.block t "interop") with (Tiff.interop t).
  change (Tiff.block t "thumbnail") with (Tiff.thumbnail t).
  destruct (String.eqb_spec name "ifd0") as [-> | N0];
    [|destruct (String.eqb_spec name "exif") as [-> | N1];
      [|destruct (String.eqb_spec name "gps") as [-> | N2];
        [|destruct (String.eqb_spec name "interop") as [-> | N3];
          [|destruct (String.eqb_spec name "thumbnail") as [-> | N4]]]]];
    destruct (Tiff.ifd0 t), (Tiff.exif t), (Tiff.gps t), (Tiff.interop t), (Tiff.thumbnail t);
    by simplify_map_eq.
Qed.

Lemma parse_setMerge_without_thumbnail
    (enrich : bool -> bool -> list (option Block) -> option (list (option Block)))
    (t : Tiff.Tiff) (b : bool) :
  opt_thumbnail (Tiff.options t) = false ->
  Tiff.parse enrich (setMerge t b)
  = let* t4 := pointedBlocks t in
    let* t5 := Tiff.postProcess enrich t4 in
    let out := Tiff.buildOutput (setMerge t5 b) in
    OK (Tiff.set_output (setMerge t5 b) (Some out), out).
Proof.
  intros Hoff. unfold Tiff.parse.
  rewrite parseBlocks_split, pointedBlocks_setMerge.
  destruct (pointedBlocks t) as [t4|e] eqn:E4; cbn [bind]; [|reflexivity].
  apply pointedBlocks_frame in E4 as [O4 _].
  change (opt_thumbnail (Tiff.options (setMerge t4 b)))
    with (opt_thumbnail (Tiff.options t4)).
  rewrite O4, Hoff. cbn [bind]. rewrite postProcess_setMerge.
  now destruct (Tiff.postProcess enrich t4).
Qed.

(** C6, as stated, fails: on a buffer with a thumbnail directory and with
    the thumbnail block requested, the parse without [mergeOutput] decodes
    the thumbnail block and the parse with [mergeOutput] does not. *)
Lemma merge_output_counterexample :
  ~ (forall (enrich : bool -> bool -> list (option Block) -> option (list (option Block)))
            (v : BufferView) (o : Options) (tm tg : Tiff.Tiff) (m g : Output),
        Tiff.parse enrich (Tiff.create v (withMerge o true)) = OK (tm, m) ->
        Tiff.parse enrich (Tiff.create v (withMerge o false)) = OK (tg, g) ->
        sameBlocks tm tg).
Proof.
  intros H.
  assert (exists tm m,
             Tiff.parse noEnrichment
               (Tiff.create withThumbnail (withMerge (allBlocks false false) true))
             = OK (tm, m) /\ Tiff.thumbnail tm = None) as (tm & m & Hm & Tm)
    by (vm_compute; eexists _, _; split; reflexivity).
  assert (exists tg g x,
             Tiff.parse noEnrichment
               (Tiff.create withThumbnail (withMerge (allBlocks false false) false))
             = OK (tg, g) /\ Tiff.thumbnail tg = Some x) as (tg & g & x & Hg & Tg)
    by (vm_compute; eexists _, _, _; split; reflexivity).
  destruct (H _ _ _ _ _ _ _ Hm Hg) as (_ & _ & _ & _ & Hth).
  congruence.
Qed.

(** The outputs of the two parses on that buffer: the tag 0x0201 of the
    thumbnail block is in the grouped output only. *)
Example merged_output_without_thumbnail :
  (let* r := Tiff.parse noEnrichment (Tiff.create withThumbnail (allBlocks true false)) in
   OK (snd r))
  = OK (Merged {[ Tag 0x0100 := VInt 2; Tag 0x8769 := VInt 38 ]}).
Proof. vm_compute. reflexivity. Qed.

Example grouped_output_with_thumbnail :
  (let* r := Tiff.parse noEnrichment (Tiff.create withThumbnail (allBlocks false false)) in
   OK (snd r))
  = OK (Grouped {[ "ifd0"%string := {[ Tag 0x0100 := VInt 640; Tag 0x8769 := VInt 38 ]};
                   "exif"%string := {[ Tag 0x0100 := VInt 2 ]};
                   "thumbnail"%string := {[ Tag 0x0201 := VInt 7 ]} ]}).
Proof. vm_compute. reflexivity. Qed.

(** C6, amended: for configurations that differ in [mergeOutput] only, the
    two parses decode the same [ifd0], [exif], [gps] and [interop] blocks,
    and the parse with [mergeOutput] leaves the thumbnail block undecoded;
    when the thumbnail block is not requested the two parses fail alike or
    end with the same five blocks, and their outputs are the two shapes of
    these blocks; in the merged output the tag of the later block in the
    order ifd0, exif, gps, interop, thumbnail wins; the grouped output maps
    the name of each populated block to the block. *)
Theorem merge_output_same_blocks_except_thumbnail
    (enrich : bool -> bool -> list (option Block) -> option (list (option Block)))
    (t : Tiff.Tiff) :
  (forall tg : Tiff.Tiff,
      Tiff.parseBlocks (setMerge t false) = OK tg ->
      exists tm : Tiff.Tiff,
        Tiff.parseBlocks (setMerge t true) = OK tm
        /\ Tiff.ifd0 tm = Tiff.ifd0 tg /\ Tiff.exif tm = Tiff.exif tg
        /\ Tiff.gps tm = Tiff.gps tg /\ Tiff.interop tm = Tiff.interop tg
        /\ Tiff.thumbnail tm = Tiff.thumbnail t)
  /\ (opt_thumbnail (Tiff.options t) = false ->
      (forall e : TiffError,
          Tiff.parse enrich (setMerge t true) = Err e
          <-> Tiff.parse enrich (setMerge t false) = Err e)
      /\ (forall (tg : Tiff.Tiff) (g : Output),
          Tiff.parse enrich (setMerge t false) = OK (tg, g) ->
          g = Grouped (Tiff.groupedBlocks tg)
          /\ exists tm : Tiff.Tiff,
               Tiff.parse enrich (setMerge t true) = OK (tm, Merged (Tiff.mergedTags tg))
               /\ sameBlocks tm tg)
      /\ (forall (tm : Tiff.Tiff) (m : Output),
          Tiff.parse enrich (setMerge t true) = OK (tm, m) ->
          m = Merged (Tiff.mergedTags tm)
          /\ exists tg : Tiff.Tiff,
               Tiff.parse enrich (setMerge t false) = OK (tg, Grouped (Tiff.groupedBlocks tm))
               /\ sameBlocks tm tg))
  /\ (forall (t' : Tiff.Tiff) (k : Key),
      Tiff.mergedTags t' !! k
      = orElse (tagOf (Tiff.thumbnail t') k)
          (orElse (tagOf (Tiff.interop t') k)
             (orElse (tagOf (Tiff.gps t') k)
                (orElse (tagOf (Tiff.exif t') k) (tagOf (Tiff.ifd0 t') k)))))
  /\ (forall (t' : Tiff.Tiff) (name : string),
      Tiff.groupedBlocks t' !! name = Tiff.block t' name).
Proof.
  split; [|split; [|split; [exact mergedTags_lookup | exact groupedBlocks_lookup]]].
  - intros tg Hg.
    rewrite parseBlocks_split, pointedBlocks_setMerge in Hg |- *.
    destruct (pointedBlocks t) as [t4|e] eqn:E4; cbn [bind] in Hg |- *; [|discriminate Hg].
    apply pointedBlocks_frame in E4 as [_ T4].
    change (opt_thumbnail (Tiff.options (setMerge t4 true)))
      with (opt_thumbnail (Tiff.options t4)).
    change (opt_thumbnail (Tiff.options (setMerge t4 false)))
      with (opt_thumbnail (Tiff.options t4)) in Hg.
    destruct (opt_thumbnail (Tiff.options t4)).
    + destruct (parseThumbnailBlock_merged (setMerge t4 true) eq_refl) as [r Hr].
      rewrite Hr. cbn [bind fst]. exists (setMerge t4 true). split; [reflexivity|].
      apply bind_OK in Hg as ([tg' r'] & Hg & [= <-]).
      apply parseThumbnailBlock_frame in Hg as (-> & -> & -> & ->).
      now rewrite <- T4.
    + injection Hg as <-. exists (setMerge t4 true). now rewrite <- T4.
  - intros Hoff.
    rewrite !(parse_setMerge_without_thumbnail enrich t _ Hoff).
    destruct (pointedBlocks t) as [t4|e4]; cbn [bind]; [|easy].
    destruct (Tiff.postProcess enrich t4) as [t5|e5]; cbn [bind]; [|easy].
    split; [easy|]. split.
    + intros tg g [= <- <-]. split; [reflexivity|].
      eexists. split; [reflexivity|]. now unfold sameBlocks.
    + intros tm m [= <- <-]. split; [reflexivity|].
      eexists. split; [reflexivity|]. now unfold sameBlocks.
Qed.

Lemma merge_output_same_blocks_except_thumbnail_witness :
  exists tg tm : Tiff.Tiff,
    Tiff.parseBlocks (setMerge (Tiff.create withThumbnail (allBlocks false false)) false)
    = OK tg
    /\ Tiff.parseBlocks (setMerge (Tiff.create withThumbnail (allBlocks false false)) true)
       = OK tm
    /\ Tiff.ifd0 tm = Tiff.ifd0 tg /\ Tiff.exif tm = Tiff.exif tg
    /\ Tiff.thumbnail tm = None.
Proof.
  assert (exists tg,
             Tiff.parseBlocks
               (setMerge (Tiff.create withThumbnail (allBlocks false false)) false)
             = OK tg) as [tg Hg]
    by (vm_compute; eexists; reflexivity).
  destruct (proj1 (merge_output_same_blocks_except_thumbnail noEnrichment
                     (Tiff.create withThumbnail (allBlocks false false))) tg Hg)
    as (tm & Hm & H0 & H1 & _ & _ & Hth).
  exists tg, tm. repeat split; assumption.
Defined.

(** ** The minimal buffer, end to end *)

(** The minimal little-endian buffer decodes to the one tag 0x0100 = 640, and
    no other block is populated. *)
Example minimal_little_endian :
  (let* r := Tiff.parse noEnrichment (Tiff.create minimalLE (allBlocks false false)) in
   OK (snd r, le (Tiff.view (fst r))))
  = OK (Grouped {[ "ifd0"%string := {[ Tag 0x0100 := VInt 640 ]} ]}, true).
Proof. vm_compute. reflexivity. Qed.

(** The same directory behind the big-endian marker decodes to the same
    tag: the reads after the header use the byte order of the marker. *)
Example minimal_big_endian :
  (let* r := Tiff.parse noEnrichment (Tiff.create minimalBE (allBlocks true false)) in
   OK (snd r, le (Tiff.view (fst r))))
  = OK (Merged {[ Tag 0x0100 := VInt 640 ]}, false).
Proof. vm_compute. reflexivity. Qed.

(** * Further properties *)

(** ** Scalars and the widths of the table *)

(** A read of [n] bytes succeeds exactly when the bytes lie in the view. *)
Lemma read_succeeds {B : Type} (v : BufferView) (off n : Z) (f : list byte -> B) :
  0 <= n ->
  (exists x : B, (let* bs := getBytes v off n in OK (f bs)) = OK x)
  <-> 0 <= off /\ off + n <= byteLength v.
Proof.
  intros Hn. split.
  - intros (x & H). apply bind_OK in H as (bs & H & _).
    apply getBytes_OK in H. lia.
  - intros (H1 & H2). unfold getBytes.
    replace (0 <=? off) with true by (symmetry; now apply Z.leb_le).
    replace (0 <=? n) with true by (symmetry; now apply Z.leb_le).
    replace (off + n <=? byteLength v) with true by (symmetry; now apply Z.leb_le).
    cbn. eauto.
Qed.

(** Two reads in a row. *)
Lemma two_reads_succeed {B C : Type} (v : BufferView) (off : Z)
    (f : list byte -> B) (g : B -> B -> C) :
  (exists x : C,
      (let* a := (let* bs := getBytes v off 4 in OK (f bs)) in
       let* b := (let* bs := getBytes v (off + 4) 4 in OK (f bs)) in
       OK (g a b)) = OK x)
  <-> 0 <= off /\ off + 8 <= byteLength v.
Proof.
  split.
  - intros (x & H). apply bind_OK in H as (a & Ha & H).
    apply bind_OK in H as (b & Hb & _).
    assert (exists y, (let* bs := getBytes v off 4 in OK (f bs)) = OK y) as Ea by eauto.
    assert (exists y, (let* bs := getBytes v (off + 4) 4 in OK (f bs)) = OK y) as Eb by eauto.
    apply read_succeeds in Ea, Eb; lia.
  - intros (H1 & H2).
    destruct (proj2 (read_succeeds v off 4 f ltac:(lia))) as (a & ->); [lia|].
    destruct (proj2 (read_succeeds v (off + 4) 4 f ltac:(lia))) as (b & ->); [lia|].
    cbn. eauto.
Qed.

Lemma getBytes_in_view (v : BufferView) (off n : Z) :
  0 <= n -> 0 <= off -> off + n <= byteLength v ->
  exists bs : list byte, getBytes v off n = OK bs.
Proof.
  intros Hn H1 H2. unfold getBytes.
  replace (0 <=? off) with true by (symmetry; now apply Z.leb_le).
  replace (0 <=? n) with true by (symmetry; now apply Z.leb_le).
  replace (off + n <=? byteLength v) with true by (symmetry; now apply Z.leb_le).
  cbn. eauto.
Qed.

(** A scalar whose bytes lie in the view is decoded. *)
Lemma parseTagValue_in_view (v : BufferView) (type width offset : Z) :
  SIZE_LOOKUP type = Some width -> type <> 2 -> type <> 7 ->
  0 <= offset -> offset + width <= byteLength v ->
  exists x : Value, TiffCore.parseTagValue v type offset = OK x.
Proof.
  intros H N2 N7 Hlo Hhi. destruct type as [|p|p]; try discriminate H.
  do 4 (try (destruct p as [p|p|]); try discriminate H); try congruence;
    injection H as <-; cbn [TiffCore.parseTagValue];
    unfold getUint8, getUint16, getUint32, getInt8, getInt16, getInt32, getFloat, getDouble.
  all: try (apply (two_reads_succeed v offset _
                     (fun n d => VFloat (numberDiv (numberOfZ n) (numberOfZ d)))); lia).
  all: match goal with
       | |- exists x, bind (bind (getBytes ?v ?o ?n) ?f) ?k = OK x =>
           destruct (getBytes_in_view v o n) as (bs & ->); [lia.. | cbn [bind]; eauto]
       end.
Qed.

(** A decoded scalar had its bytes in the view. *)
Lemma parseTagValue_OK_in_view (v : BufferView) (type width offset : Z) (x : Value) :
  SIZE_LOOKUP type = Some width ->
  TiffCore.parseTagValue v type offset = OK x ->
  0 <= offset /\ offset + width <= byteLength v.
Proof.
  intros H. destruct type as [|p|p]; try discriminate H.
  do 4 (try (destruct p as [p|p|]); try discriminate H);
    injection H as <-; cbn [TiffCore.parseTagValue]; try discriminate;
    unfold getUint8, getUint16, getUint32, getInt8, getInt16, getInt32, getFloat, getDouble.
  all: intros Hx; apply bind_OK in Hx as (y & Hy & Hx);
    apply bind_OK in Hy as (bs & Hy & _); apply getBytes_OK in Hy.
  all: try (apply bind_OK in Hx as (z & Hz & _);
            apply bind_OK in Hz as (bs' & Hz & _); apply getBytes_OK in Hz).
  all: lia.
Qed.

(** X1: for each of the eleven scalar types (the types of the table but
    ASCII and UNDEFINED) the scalar decoder succeeds exactly when the bytes
    of the width the table gives for the type lie in the view from the
    offset on; for ASCII and UNDEFINED, which [parseTag] decodes itself, the
    scalar decoder throws. *)
Theorem scalar_decoder_reads_table_width
    (v : BufferView) (type width offset : Z) :
  SIZE_LOOKUP type = Some width ->
  (type <> 2 -> type <> 7 ->
   (exists x : Value, TiffCore.parseTagValue v type offset = OK x)
   <-> 0 <= offset /\ offset + width <= byteLength v)
  /\ (type = 2 \/ type = 7 ->
      TiffCore.parseTagValue v type offset = Err UnknownFieldType).
Proof.
  intros H. split.
  - intros N2 N7. split.
    + intros (x & Hx). now apply (parseTagValue_OK_in_view v type width offset x).
    + intros [Hlo Hhi]. now apply (parseTagValue_in_view v type width).
  - intros [-> | ->]; reflexivity.
Qed.

Lemma scalar_decoder_reads_table_width_witness :
  (exists x : Value, TiffCore.parseTagValue rationals 5 24 = OK x)
  /\ TiffCore.parseTagValue rationals 2 0 = Err UnknownFieldType.
Proof.
  destruct (scalar_decoder_reads_table_width rationals 5 8 24 eq_refl) as [H _].
  destruct (scalar_decoder_reads_table_width rationals 2 1 0 eq_refl) as [_ H'].
  split.
  - apply H; [lia | lia |]. vm_compute. split; discriminate.
  - apply H'. now left.
Defined.

Lemma getUint8_OK (v : BufferView) (off x : Z) :
  getUint8 v off = OK x -> 0 <= x < 2 ^ 8.
Proof.
  unfold getUint8. intros H. apply bind_OK in H as (bs & Hb & [= <-]).
  apply getBytes_OK in Hb as (_ & _ & _ & Hlen).
  pose proof (uintLE_range bs) as R. rewrite Hlen in R. exact R.
Qed.

Lemma getInt8_OK (v : BufferView) (off x : Z) :
  getInt8 v off = OK x -> - 2 ^ 7 <= x < 2 ^ 7.
Proof.
  unfold getInt8. intros H. apply bind_OK in H as (bs & Hb & [= <-]).
  apply getBytes_OK in Hb as (_ & _ & _ & Hlen).
  pose proof (uintLE_range bs) as R. rewrite Hlen in R.
  change (256 ^ Z.of_nat (Z.to_nat 1)) with (2 ^ 8) in R.
  unfold toSigned. change (2 ^ (8 - 1)) with (2 ^ 7).
  destruct (uintLE bs <? 2 ^ 7) eqn:E;
    [apply Z.ltb_lt in E | apply Z.ltb_ge in E]; lia.
Qed.

Lemma getInt16_OK (v : BufferView) (off x : Z) :
  getInt16 v off = OK x -> - 2 ^ 15 <= x < 2 ^ 15.
Proof.
  unfold getInt16. intros H. apply bind_OK in H as (bs & Hb & [= <-]).
  apply getBytes_OK in Hb as (_ & _ & _ & Hlen).
  pose proof (uintOf_range (le v) bs) as R. rewrite Hlen in R.
  change (256 ^ Z.of_nat (Z.to_nat 2)) with (2 ^ 16) in R.
  unfold toSigned. change (2 ^ (16 - 1)) with (2 ^ 15).
  destruct (uintOf (le v) bs <? 2 ^ 15) eqn:E;
    [apply Z.ltb_lt in E | apply Z.ltb_ge in E]; lia.
Qed.

(** X2: a scalar decoded for one of the integer types is an integer within
    the bounds of the type (unsigned for BYTE, SHORT, LONG and IFD, two's
    complement for SBYTE, SSHORT and SLONG); a scalar decoded for any other
    type is a binary64 number. *)
Theorem scalar_within_type_bounds
    (v : BufferView) (type offset : Z) (x : Value) :
  TiffCore.parseTagValue v type offset = OK x ->
  match integerRange type with
  | Some (lo, hi) => exists n : Z, x = VInt n /\ lo <= n < hi
  | None => exists f : number, x = VFloat f
  end.
Proof.
  destruct type as [|p|p]; try discriminate.
  do 4 (try (destruct p as [p|p|]); try discriminate);
    cbn [TiffCore.parseTagValue integerRange]; intros H;
    apply bind_OK in H as (n & Hn & H).
  all: try (apply bind_OK in H as (d & Hd & H)).
  all: injection H as <-; eauto.
  all: eexists; split; [reflexivity|].
  all: first [ eapply getUint8_OK, Hn | eapply getInt8_OK, Hn | eapply getInt16_OK, Hn
             | apply getUint16_OK in Hn; lia | apply getUint32_OK in Hn; lia
             | apply getInt32_OK in Hn; lia ].
Qed.

Lemma scalar_within_type_bounds_witness :
  exists n : Z, VInt 2 = VInt n /\ 0 <= n < 2 ^ 16.
Proof.
  apply (scalar_within_type_bounds threeShorts 3 14 (VInt 2)).
  vm_compute. reflexivity.
Defined.

Lemma parseTagValue_isScalar (v : BufferView) (type offset : Z) (x : Value) :
  TiffCore.parseTagValue v type offset = OK x -> isScalar x = true.
Proof.
  destruct type as [|p|p]; try discriminate.
  do 4 (try (destruct p as [p|p|]); try discriminate);
    cbn [TiffCore.parseTagValue]; intros H;
    apply bind_OK in H as (n & _ & H);
    try (apply bind_OK in H as (d & _ & H)); now injection H as <-.
Qed.

(** ** The errors and the shape of an entry's value *)

Lemma parseTagValue_known_error (v : BufferView) (type offset : Z) (e : TiffError) :
  1 <= type <= 13 -> type <> 2 -> type <> 7 ->
  TiffCore.parseTagValue v type offset = Err e -> e = OffsetOutOfBounds.
Proof.
  intros R N2 N7.
  destruct type as [|p|p]; try lia.
  do 4 (try (destruct p as [p|p|]); try lia);
    cbn [TiffCore.parseTagValue];
    unfold getUint8, getUint16, getUint32, getInt8, getInt16, getInt32, getFloat, getDouble;
    read_cases; now intros [= <-].
Qed.

Lemma parseTagArray_known_error (v : BufferView) (type : Z) (w : option Z) (n : nat) :
  1 <= type <= 13 -> type <> 2 -> type <> 7 ->
  forall (res : list Value) (loc : Z) (e : TiffError),
    TiffCore.parseTagArray v type w n res loc = Err e -> e = OffsetOutOfBounds.
Proof.
  intros R N2 N7.
  induction n as [|n IH]; intros res loc e; cbn [TiffCore.parseTagArray]; [discriminate|].
  intros H. apply bind_Err in H as [H | (x & _ & H)].
  - eapply parseTagValue_known_error; eauto.
  - eapply IH, H.
Qed.

(** X3: [UnknownFieldType] is raised for entries of a type outside 1-13
    only: an entry of a recognized type fails with [OffsetOutOfBounds] or
    not at all. *)
Theorem unknown_field_type_only_for_unknown_types
    (v : BufferView) (offset : Z) :
  TiffCore.parseTag v offset = Err UnknownFieldType ->
  exists type : Z, getUint16 v (offset + 2) = OK type /\ ~ (1 <= type <= 13).
Proof.
  unfold TiffCore.parseTag. intros H.
  apply bind_Err in H as [H | (type & Htype & H)];
    [apply getUint16_error in H; discriminate H|].
  exists type. split; [exact Htype|]. intros R.
  apply bind_Err in H as [H | (count & _ & H)];
    [apply getUint32_error in H; discriminate H|].
  apply bind_Err in H as [H | (loc & _ & H)].
  { destruct (TiffCore.fitsInline _ _); [discriminate H|].
    apply getUint32_error in H. discriminate H. }
  destruct (loc >? bufferByteLength v); [discriminate H|].
  destruct (type =? 2) eqn:E2.
  { apply bind_Err in H as [H | (x & _ & H)]; [|discriminate H].
    unfold getString in H. apply read_error_kind in H. discriminate H. }
  destruct (type =? 7) eqn:E7.
  { apply bind_Err in H as [H | (x & _ & H)]; [|discriminate H].
    apply getBytes_error_kind in H. discriminate H. }
  apply Z.eqb_neq in E2, E7.
  destruct (count =? 1).
  - apply parseTagValue_known_error in H; [discriminate H | assumption..].
  - apply bind_Err in H as [H | (x & _ & H)]; [|discriminate H].
    apply parseTagArray_known_error in H; [discriminate H | assumption..].
Qed.

Lemma unknown_field_type_only_for_unknown_types_witness :
  exists type : Z, getUint16 unknownTypeInRange (0 + 2) = OK type /\ ~ (1 <= type <= 13).
Proof.
  apply (unknown_field_type_only_for_unknown_types unknownTypeInRange 0).
  vm_compute. reflexivity.
Defined.

Lemma parseTagArray_shape (v : BufferView) (type : Z) (w : option Z) (n : nat) :
  forall (res : list Value) (loc : Z) (l : list Value),
    TiffCore.parseTagArray v type w n res loc = OK l ->
    exists xs : list Value,
      l = res ++ xs /\ List.length xs = n /\ List.Forall (fun x => isScalar x = true) xs.
Proof.
  induction n as [|n IH]; intros res loc l; cbn [TiffCore.parseTagArray].
  - intros [= <-]. exists []. split; [now rewrite app_nil_r | split; [reflexivity | constructor]].
  - intros H. apply bind_OK in H as (x & Hx & H).
    apply IH in H as (xs & -> & Hlen & Hall).
    exists (x :: xs). split; [now rewrite <- app_assoc|].
    split; [simpl; now rewrite Hlen|].
    constructor; [eapply parseTagValue_isScalar, Hx | exact Hall].
Qed.

(** X4: the shape of a decoded entry follows its type and count: an
    UNDEFINED (type 7) entry is one slice of [count] bytes; an entry of
    another type than ASCII and UNDEFINED is one number when its count is 1
    and otherwise an array of exactly [count] numbers. *)
Theorem entry_value_shape
    (v : BufferView) (offset type count : Z) (x : Value) :
  getUint16 v (offset + 2) = OK type ->
  getUint32 v (offset + 4) = OK count ->
  TiffCore.parseTag v offset = OK x ->
  (type = 7 -> exists b : list byte, x = VBytes b /\ Z.of_nat (List.length b) = count)
  /\ (type <> 2 -> type <> 7 -> count = 1 -> isScalar x = true)
  /\ (type <> 2 -> type <> 7 -> count <> 1 ->
      exists l : list Value,
        x = VArray l /\ Z.of_nat (List.length l) = count
        /\ List.Forall (fun y => isScalar y = true) l).
Proof.
  intros Htype Hcount H.
  pose proof (getUint32_OK _ _ _ Hcount) as (_ & _ & Hc).
  unfold TiffCore.parseTag in H. rewrite Htype, Hcount in H. cbn [bind] in H.
  apply bind_OK in H as (loc & _ & H).
  destruct (loc >? bufferByteLength v); [discriminate H|].
  split; [|split].
  - intros ->. change (7 =? 2) with false in H. change (7 =? 7) with true in H.
    cbn iota in H. apply bind_OK in H as (b & Hb & [= <-]).
    exists b. split; [reflexivity|].
    unfold slice in Hb. apply getBytes_OK in Hb as (_ & _ & _ & Hlen).
    rewrite Hlen. lia.
  - intros N2 N7 ->. apply Z.eqb_neq in N2, N7. rewrite N2, N7 in H.
    change (1 =? 1) with true in H. cbn iota in H.
    eapply parseTagValue_isScalar, H.
  - intros N2 N7 N1. apply Z.eqb_neq in N2, N7, N1. rewrite N2, N7, N1 in H.
    apply bind_OK in H as (l & Hl & [= <-]).
    apply parseTagArray_shape in Hl as (xs & -> & Hlen & Hall).
    exists xs. split; [reflexivity|]. split; [|exact Hall].
    rewrite Hlen. lia.
Qed.

Lemma entry_value_shape_witness :
  exists l : list Value,
    VArray [VInt 1; VInt 2; VInt 3] = VArray l /\ Z.of_nat (List.length l) = 3
    /\ List.Forall (fun y => isScalar y = true) l.
Proof.
  refine (proj2 (proj2 (entry_value_shape threeShorts 0 3 3 _ _ _ _)) _ _ _).
  - vm_compute. reflexivity.
  - vm_compute. reflexivity.
  - vm_compute. reflexivity.
  - discriminate.
  - discriminate.
  - discriminate.
Defined.

(** ** Inline entries *)

Lemma readEach_succeeds (v : BufferView) (type width : Z) (places : list Z) :
  SIZE_LOOKUP type = Some width -> type <> 2 -> type <> 7 ->
  List.Forall (fun p => 0 <= p /\ p + width <= byteLength v) places ->
  exists xs : list Value, readEach v type places = OK xs.
Proof.
  intros Hw N2 N7 Hall. induction Hall as [|p rest [Hp1 Hp2] _ IH]; cbn [readEach].
  - eauto.
  - destruct (parseTagValue_in_view v type width p Hw N2 N7) as (x & ->); [lia..|].
    destruct IH as (xs & ->). cbn [bind]. eauto.
Qed.

(** X5: an entry of a recognized type that lies in a view within its buffer
    and whose value is inline ([width * count <= 4]) always decodes: no
    inline value fails. *)
Theorem inline_entry_always_decodes
    (v : BufferView) (offset type count width : Z) :
  wf_view v ->
  0 <= offset -> offset + 12 <= byteLength v ->
  getUint16 v (offset + 2) = OK type ->
  getUint32 v (offset + 4) = OK count ->
  SIZE_LOOKUP type = Some width ->
  width * count <= 4 ->
  exists x : Value, TiffCore.parseTag v offset = OK x.
Proof.
  intros Hwf Hoff Hend Htype Hcount Hw Hin.
  pose proof (getUint32_OK _ _ _ Hcount) as (_ & _ & Hc).
  pose proof (SIZE_LOOKUP_Some _ _ Hw) as (_ & Hwidth).
  rewrite (parseTag_at v offset type count width (offset + 8) Htype Hcount Hw)
    by (apply Z.leb_le in Hin; now rewrite Hin).
  unfold wf_view in Hwf.
  destruct (offset + 8 >? bufferByteLength v) eqn:E; [apply Z.gtb_lt in E; lia|].
  unfold tagValueAt.
  destruct (type =? 2) eqn:E2.
  { apply Z.eqb_eq in E2. subst type. injection Hw as <-.
    unfold getString.
    destruct (proj2 (read_succeeds v (offset + 8) count stringOfBytes ltac:(lia)))
      as (s & ->); [lia|]. cbn [bind]. eauto. }
  destruct (type =? 7) eqn:E7.
  { apply Z.eqb_eq in E7. subst type. injection Hw as <-.
    apply (read_succeeds v (offset + 8) count VBytes); lia. }
  apply Z.eqb_neq in E2, E7.
  destruct (count =? 1) eqn:E1.
  { apply Z.eqb_eq in E1. subst count.
    apply (parseTagValue_in_view v type width (offset + 8) Hw); [assumption..|lia|lia]. }
  destruct (readEach_succeeds v type width
              (contiguous (offset + 8) width (Z.to_nat count)) Hw E2 E7) as (xs & ->).
  - eapply List.Forall_impl; [|apply contiguous_within; lia].
    cbn beta. intros p [H1 H2]. rewrite Z2Nat.id in H2 by lia. lia.
  - cbn [bind]. eauto.
Qed.

Lemma inline_entry_always_decodes_witness :
  exists x : Value, TiffCore.parseTag inlineBytes 0 = OK x.
Proof.
  apply (inline_entry_always_decodes inlineBytes 0 1 4 1).
  - unfold wf_view. vm_compute. discriminate.
  - lia.
  - vm_compute. discriminate.
  - vm_compute. reflexivity.
  - vm_compute. reflexivity.
  - reflexivity.
  - lia.
Defined.

(** ** The directory table *)

Lemma parseEntries_step (v : BufferView) (o : Options) (n : nat) (offset : Z) (output : Block) :
  TiffCore.parseEntries v o (S n) offset output
  = let* tag := getUint16 v offset in
    let* output' :=
      if keeps o tag
      then let* val := TiffCore.parseTag v offset in OK (<[Tag tag := val]> output)
      else OK output in
    TiffCore.parseEntries v o n (offset + 12) output'.
Proof. reflexivity. Qed.

Lemma parseEntries_keys (v : BufferView) (o : Options) (n : nat) :
  forall (offset : Z) (output m : Block) (k : Key),
    TiffCore.parseEntries v o n offset output = OK m ->
    is_Some (m !! k) ->
    is_Some (output !! k)
    \/ exists code : Z, k = Tag code /\ 0 <= code < 2 ^ 16 /\ keeps o code = true.
Proof.
  induction n as [|n IH]; intros offset output m k.
  - cbn. intros [= <-]. auto.
  - rewrite parseEntries_step. intros H Hk.
    apply bind_OK in H as (tag & Htag & H).
    apply bind_OK in H as (out' & Hout & H).
    destruct (IH _ _ _ _ H Hk) as [Hin | Hnew]; [|now right].
    destruct (keeps o tag) eqn:Ekeep; [|injection Hout as <-; now left].
    apply bind_OK in Hout as (val & _ & [= <-]).
    destruct (decide (Tag tag = k)) as [<- | Hne].
    + right. exists tag. apply getUint16_OK in Htag. repeat split; lia || assumption.
    + left. now rewrite lookup_insert_ne in Hin.
Qed.

Lemma parseEntries_size (v : BufferView) (o : Options) (n : nat) :
  forall (offset : Z) (output m : Block),
    TiffCore.parseEntries v o n offset output = OK m ->
    (size m <= size output + n)%nat.
Proof.
  induction n as [|n IH]; intros offset output m.
  - cbn. intros [= <-]. lia.
  - rewrite parseEntries_step. intros H.
    apply bind_OK in H as (tag & _ & H).
    apply bind_OK in H as (out' & Hout & H).
    apply IH in H.
    assert (size out' <= S (size output))%nat; [|lia].
    destruct (keeps o tag); [|injection Hout as <-; lia].
    apply bind_OK in Hout as (val & _ & [= <-]).
    rewrite map_size_insert. destruct (output !! Tag tag); cbn [id]; lia.
Qed.

(** X6: every key of a decoded directory is the 16-bit tag code of an entry
    that passes the inclusion test: it is picked, or it is not skipped. *)
Theorem directory_keys_pass_the_filter
    (v : BufferView) (o : Options) (offset : Z) (m : Block) (k : Key) (x : Value) :
  TiffCore.parseTags v o offset = OK m ->
  m !! k = Some x ->
  exists code : Z,
    k = Tag code /\ 0 <= code < 2 ^ 16
    /\ (In code (pickTags o) \/ ~ In code (skipTags o)).
Proof.
  unfold TiffCore.parseTags. intros H Hk.
  apply bind_OK in H as (n & _ & H).
  destruct (parseEntries_keys _ _ _ _ _ _ k H) as [Hin | (code & -> & R & Hkeep)]; [eauto| |].
  - rewrite lookup_empty in Hin. now destruct Hin.
  - exists code. split; [reflexivity|]. split; [exact R|].
    unfold keeps, includes in Hkeep. apply orb_true_iff in Hkeep as [Hp | Hs].
    + left. apply existsb_exists in Hp as (y & Hy & E). apply Z.eqb_eq in E. now subst.
    + right. intros Hin. apply negb_true_iff in Hs.
      assert (existsb (Z.eqb code) (skipTags o) = true) as C; [|congruence].
      apply existsb_exists. exists code. split; [exact Hin | apply Z.eqb_refl].
Qed.

Lemma directory_keys_pass_the_filter_witness :
  exists code : Z,
    Tag 0x0100 = Tag code /\ 0 <= code < 2 ^ 16
    /\ (In code (pickTags skipping0101) \/ ~ In code (skipTags skipping0101)).
Proof.
  apply (directory_keys_pass_the_filter duplicateTags skipping0101 0
           {[ Tag 0x0100 := VInt 3 ]} (Tag 0x0100) (VInt 3)).
  - vm_compute. reflexivity.
  - vm_compute. reflexivity.
Defined.

(** X7: a decoded directory has at most as many tags as the entry count at
    its offset. *)
Theorem directory_size_at_most_entry_count
    (v : BufferView) (o : Options) (offset entriesCount : Z) (m : Block) :
  TiffCore.parseTags v o offset = OK m ->
  getUint16 v offset = OK entriesCount ->
  Z.of_nat (size m) <= entriesCount.
Proof.
  unfold TiffCore.parseTags. intros H Hn. rewrite Hn in H. cbn [bind] in H.
  apply getUint16_OK in Hn as (_ & _ & Hn).
  apply parseEntries_size in H. rewrite map_size_empty in H. lia.
Qed.

Lemma directory_size_at_most_entry_count_witness :
  Z.of_nat (size ({[ Tag 0x0100 := VInt 3; Tag 0x0101 := VInt 2 ]} : Block)) <= 3.
Proof.
  apply (directory_size_at_most_entry_count duplicateTags (allBlocks false false) 0).
  - vm_compute. reflexivity.
  - vm_compute. reflexivity.
Defined.

Lemma parseEntries_untouched (v : BufferView) (o : Options) (n : nat) :
  forall (offset : Z) (output m : Block) (k : Key),
    TiffCore.parseEntries v o n offset output = OK m ->
    (forall (j : nat) (code : Z),
        (j < n)%nat -> getUint16 v (offset + 12 * Z.of_nat j) = OK code -> k <> Tag code) ->
    m !! k = output !! k.
Proof.
  induction n as [|n IH]; intros offset output m k.
  - cbn. now intros [= <-].
  - rewrite parseEntries_step. intros H Hfree.
    apply bind_OK in H as (tag & Htag & H).
    apply bind_OK in H as (out' & Hout & H).
    rewrite (IH _ _ _ k H).
    + destruct (keeps o tag); [|now injection Hout as <-].
      apply bind_OK in Hout as (val & _ & [= <-]).
      apply lookup_insert_ne. intros E.
      apply (Hfree O tag); [lia | now rewrite Z.mul_0_r, Z.add_0_r | now symmetry].
    + intros j code Hj Hcode. apply (Hfree (S j) code); [lia|].
      now replace (offset + 12 * Z.of_nat (S j)) with (offset + 12 + 12 * Z.of_nat j) by lia.
Qed.

Lemma parseEntries_last_wins (v : BufferView) (o : Options) (n : nat) :
  forall (offset : Z) (output m : Block) (i : nat) (code : Z),
    TiffCore.parseEntries v o n offset output = OK m ->
    (i < n)%nat ->
    getUint16 v (offset + 12 * Z.of_nat i) = OK code ->
    (forall j : nat, (i < j < n)%nat ->
                     getUint16 v (offset + 12 * Z.of_nat j) <> OK code) ->
    keeps o code = true ->
    exists x : Value,
      TiffCore.parseTag v (offset + 12 * Z.of_nat i) = OK x /\ m !! Tag code = Some x.
Proof.
  induction n as [|n IH]; intros offset output m i code H Hi Hcode Hlater Hkeep; [lia|].
  rewrite parseEntries_step in H.
  apply bind_OK in H as (tag & Htag & H).
  apply bind_OK in H as (out' & Hout & H).
  destruct i as [|i].
  - rewrite Z.mul_0_r, Z.add_0_r in Hcode |- *.
    assert (tag = code) as -> by congruence.
    rewrite Hkeep in Hout. apply bind_OK in Hout as (val & Hval & [= <-]).
    exists val. split; [exact Hval|].
    rewrite (parseEntries_untouched _ _ _ _ _ _ (Tag code) H).
    + apply lookup_insert_eq.
    + intros j code' Hj Hcode' [= <-].
      apply (Hlater (S j)); [lia|].
      now replace (offset + 12 * Z.of_nat (S j)) with (offset + 12 + 12 * Z.of_nat j) by lia.
  - replace (offset + 12 * Z.of_nat (S i)) with (offset + 12 + 12 * Z.of_nat i) in * by lia.
    apply (IH _ _ _ i code H); [lia | exact Hcode | | exact Hkeep].
    intros j Hj.
    replace (offset + 12 + 12 * Z.of_nat j) with (offset + 12 * Z.of_nat (S j)) by lia.
    apply Hlater. lia.
Qed.

(** X8: the value of a tag in a decoded directory is the value of the last
    entry with that tag code, when the tag passes the inclusion test; a tag
    that does not pass it, or that no entry of the directory has, is not a
    key of the directory. *)
Theorem directory_lookup_is_last_entry
    (v : BufferView) (o : Options) (offset entriesCount : Z) (m : Block) :
  TiffCore.parseTags v o offset = OK m ->
  getUint16 v offset = OK entriesCount ->
  (forall (i code : Z),
      0 <= i < entriesCount ->
      getUint16 v (offset + 2 + 12 * i) = OK code ->
      (forall j : Z, i < j < entriesCount ->
                     getUint16 v (offset + 2 + 12 * j) <> OK code) ->
      if keeps o code
      then exists x : Value,
             TiffCore.parseTag v (offset + 2 + 12 * i) = OK x /\ m !! Tag code = Some x
      else m !! Tag code = None)
  /\ (forall code : Z,
      (forall j : Z, 0 <= j < entriesCount ->
                     getUint16 v (offset + 2 + 12 * j) <> OK code) ->
      m !! Tag code = None).
Proof.
  unfold TiffCore.parseTags. intros H Hn. rewrite Hn in H. cbn [bind] in H.
  split.
  - intros i code Hi Hcode Hlater.
    destruct (keeps o code) eqn:Ekeep.
    + destruct (parseEntries_last_wins _ _ _ _ _ _ (Z.to_nat i) code H) as (x & Hx & Hm).
      * lia.
      * now rewrite Z2Nat.id by lia.
      * intros j Hj. apply Hlater. lia.
      * exact Ekeep.
      * rewrite Z2Nat.id in Hx by lia. eauto.
    + destruct (m !! Tag code) as [x|] eqn:Hm; [|reflexivity].
      destruct (parseEntries_keys _ _ _ _ _ _ (Tag code) H) as [Hin | (c & [= <-] & _ & Hk)];
        [eauto| |congruence].
      rewrite lookup_empty in Hin. now destruct Hin.
  - intros code Hfree.
    rewrite (parseEntries_untouched _ _ _ _ _ _ (Tag code) H); [apply lookup_empty|].
    intros j code' Hj Hcode' [= <-].
    apply (Hfree (Z.of_nat j)); [lia | exact Hcode'].
Qed.

Lemma directory_lookup_is_last_entry_witness :
  exists x : Value,
    TiffCore.parseTag duplicateTags (0 + 2 + 12 * 2) = OK x
    /\ ({[ Tag 0x0100 := VInt 3; Tag 0x0101 := VInt 2 ]} : Block) !! Tag 0x0100 = Some x.
Proof.
  refine (proj1 (directory_lookup_is_last_entry duplicateTags (allBlocks false false) 0 3
                   {[ Tag 0x0100 := VInt 3; Tag 0x0101 := VInt 2 ]} _ _)
            2 0x0100 _ _ _).
  - vm_compute. reflexivity.
  - vm_compute. reflexivity.
  - lia.
  - vm_compute. reflexivity.
  - intros j Hj. lia.
Defined.

Example duplicate_tag_takes_last_value :
  TiffCore.parseTags duplicateTags skipping0101 0 = OK {[ Tag 0x0100 := VInt 3 ]}.
Proof. vm_compute. reflexivity. Qed.

(** ** The header, again *)

Lemma two_bytes (v : BufferView) (off : Z) (bs : list byte) :
  getBytes v off 2 = OK bs -> exists a b : byte, bs = [a; b].
Proof.
  intros H. apply getBytes_OK in H as (_ & _ & _ & Hlen).
  destruct bs as [|a [|b [|c r]]]; try discriminate Hlen. eauto.
Qed.

(** The two markers read the same in both byte orders. *)
Lemma marker_in_both_orders (a b : byte) (marker : Z) :
  marker = TIFF_LITTLE_ENDIAN \/ marker = TIFF_BIG_ENDIAN ->
  (uintOf true [a; b] =? marker) = (uintOf false [a; b] =? marker).
Proof.
  intros Hm. cbn [uintOf uintLE rev app].
  pose proof (byteVal_range a). pose proof (byteVal_range b).
  unfold TIFF_LITTLE_ENDIAN, TIFF_BIG_ENDIAN in Hm.
  destruct (byteVal a + 256 * (byteVal b + 256 * 0) =? marker) eqn:E1;
    destruct (byteVal b + 256 * (byteVal a + 256 * 0) =? marker) eqn:E2;
    try reflexivity;
    [apply Z.eqb_eq in E1; apply Z.eqb_neq in E2
    |apply Z.eqb_neq in E1; apply Z.eqb_eq in E2]; lia.
Qed.

Lemma parseHeader_flag (v : BufferView) (b : bool) :
  TiffCore.parseHeader (set_le v b) = TiffCore.parseHeader v.
Proof.
  unfold TiffCore.parseHeader, getUint16 at 1 3.
  change (getBytes (set_le v b) 0 2) with (getBytes v 0 2).
  destruct (getBytes v 0 2) as [bs|e] eqn:Hbs; cbn [bind]; [|reflexivity].
  apply two_bytes in Hbs as (x & y & ->).
  change (le (set_le v b)) with b.
  assert (forall marker, marker = TIFF_LITTLE_ENDIAN \/ marker = TIFF_BIG_ENDIAN ->
            (uintOf b [x; y] =? marker) = (uintOf (le v) [x; y] =? marker)) as Hsame.
  { intros marker Hm. destruct b, (le v); try reflexivity;
      [|symmetry]; now apply marker_in_both_orders. }
  rewrite (Hsame TIFF_LITTLE_ENDIAN) by now left.
  rewrite (Hsame TIFF_BIG_ENDIAN) by now right.
  destruct (_ =? TIFF_LITTLE_ENDIAN); [reflexivity|].
  destruct (_ =? TIFF_BIG_ENDIAN); reflexivity.
Qed.

Lemma parseHeader_again (v v' : BufferView) :
  TiffCore.parseHeader v = OK v' -> TiffCore.parseHeader v' = OK v'.
Proof.
  intros H. pose proof H as H'. apply parseHeader_OK in H' as (word & _ & _ & -> & _).
  now rewrite parseHeader_flag.
Qed.

(** X9: header validation does not depend on the byte order the view was
    set to before it runs; so validating the header again, as
    [extractThumbnail] does after [parse], returns the same view. *)
Theorem header_validation_repeats
    (v v' : BufferView) :
  TiffCore.parseHeader v = OK v' ->
  TiffCore.parseHeader v' = OK v'
  /\ forall b : bool, TiffCore.parseHeader (set_le v b) = OK v'.
Proof.
  intros H. split; [now apply (parseHeader_again v)|].
  intros b. now rewrite parseHeader_flag.
Qed.

Lemma header_validation_repeats_witness :
  TiffCore.parseHeader (set_le minimalBE false) = OK (set_le minimalBE false)
  /\ forall b : bool, TiffCore.parseHeader (set_le minimalBE b) = OK (set_le minimalBE false).
Proof.
  apply (header_validation_repeats minimalBE).
  vm_compute. reflexivity.
Defined.

(** ** What a block parser assigns *)

Lemma parseIfd0Block_assigns (t t' : Tiff.Tiff) :
  Tiff.parseIfd0Block t = OK t' ->
  t' = Tiff.set_gpsOffset
         (Tiff.set_interopOffset
            (Tiff.set_exifOffset
               (Tiff.set_ifd0 (Tiff.set_ifd0Offset t (Tiff.ifd0Offset t')) (Tiff.ifd0 t'))
               (Tiff.exifOffset t'))
            (Tiff.interopOffset t'))
         (Tiff.gpsOffset t').
Proof.
  unfold Tiff.parseIfd0Block.
  destruct (Tiff.isSome _); [intros [= <-]; now destruct t|].
  intros H. apply bind_OK in H as (off & _ & H).
  destruct (off <? 8); [discriminate H|].
  apply bind_OK in H as (tags & _ & H).
  destruct (_ =? _)%nat; [injection H as <-; now destruct t|].
  destruct (sanitize _); injection H as <-; now destruct t.
Qed.

Lemma parseExifBlock_assigns (t t' : Tiff.Tiff) :
  Tiff.parseExifBlock t = OK t' -> t' = Tiff.set_exif t (Tiff.exif t').
Proof.
  unfold Tiff.parseExifBlock.
  destruct (Tiff.isSome _); [intros [= <-]; now destruct t|].
  destruct (Tiff.exifOffset t); [|intros [= <-]; now destruct t].
  intros H. apply bind_OK in H as (off & _ & H).
  apply bind_OK in H as (tags & _ & H). now injection H as <-.
Qed.

Lemma parseGpsBlock_assigns (t t' : Tiff.Tiff) :
  Tiff.parseGpsBlock t = OK t' -> t' = Tiff.set_gps t (Tiff.gps t').
Proof.
  unfold Tiff.parseGpsBlock.
  destruct (Tiff.isSome _); [intros [= <-]; now destruct t|].
  destruct (Tiff.gpsOffset t); [|intros [= <-]; now destruct t].
  intros H. apply bind_OK in H as (off & _ & H).
  apply bind_OK in H as (tags & _ & H). now injection H as <-.
Qed.

Lemma parseInteropBlock_assigns (t t' : Tiff.Tiff) :
  Tiff.parseInteropBlock t = OK t' ->
  t' = Tiff.set_interop (Tiff.set_interopOffset t (Tiff.interopOffset t')) (Tiff.interop t').
Proof.
  unfold Tiff.parseInteropBlock.
  destruct (Tiff.isSome _); [intros [= <-]; now destruct t|].
  destruct (Tiff.interopOffset _) eqn:E; [|intros [= <-]; now destruct t].
  intros H. apply bind_OK in H as (off & _ & H).
  apply bind_OK in H as (tags & _ & H). injection H as <-. now destruct t.
Qed.

Lemma parseThumbnailBlock_assigns (force : bool) (t t' : Tiff.Tiff) (r : option bool) :
  Tiff.parseThumbnailBlock force t = OK (t', r) ->
  t' = Tiff.set_thumbnailParsed
         (Tiff.set_thumbnail (Tiff.set_ifd1Offset t (Tiff.ifd1Offset t')) (Tiff.thumbnail t'))
         (Tiff.thumbnailParsed t').
Proof.
  unfold Tiff.parseThumbnailBlock.
  destruct (_ || _); [intros [= <- <-]; now destruct t|].
  destruct (_ && _); [intros [= <- <-]; now destruct t|].
  intros H.
  apply bind_OK in H as (base & _ & H).
  apply bind_OK in H as (n & _ & H).
  apply bind_OK in H as (p & _ & H).
  destruct (p =? 0); [injection H as <- <-; now destruct t|].
  apply bind_OK in H as (tags & _ & H). injection H as <- <-. now destruct t.
Qed.

(** X10: a block parser assigns its own block and the offsets it captures,
    and nothing else: the view, the options, the output and the blocks and
    offsets of the other parsers are as before. *)
Theorem block_parsers_assign_their_own_fields (t t' : Tiff.Tiff) (force : bool) :
  (Tiff.parseIfd0Block t = OK t' ->
   t' = Tiff.set_gpsOffset
          (Tiff.set_interopOffset
             (Tiff.set_exifOffset
                (Tiff.set_ifd0 (Tiff.set_ifd0Offset t (Tiff.ifd0Offset t')) (Tiff.ifd0 t'))
                (Tiff.exifOffset t'))
             (Tiff.interopOffset t'))
          (Tiff.gpsOffset t'))
  /\ (Tiff.parseExifBlock t = OK t' -> t' = Tiff.set_exif t (Tiff.exif t'))
  /\ (Tiff.parseGpsBlock t = OK t' -> t' = Tiff.set_gps t (Tiff.gps t'))
  /\ (Tiff.parseInteropBlock t = OK t' ->
      t' = Tiff.set_interop (Tiff.set_interopOffset t (Tiff.interopOffset t'))
             (Tiff.interop t'))
  /\ (forall r : option bool,
      Tiff.parseThumbnailBlock force t = OK (t', r) ->
      t' = Tiff.set_thumbnailParsed
             (Tiff.set_thumbnail (Tiff.set_ifd1Offset t (Tiff.ifd1Offset t'))
                (Tiff.thumbnail t'))
             (Tiff.thumbnailParsed t')).
Proof.
  split; [apply parseIfd0Block_assigns|].
  split; [apply parseExifBlock_assigns|].
  split; [apply parseGpsBlock_assigns|].
  split; [apply parseInteropBlock_assigns|].
  intros r. apply parseThumbnailBlock_assigns.
Qed.

Lemma block_parsers_assign_their_own_fields_witness :
  exists t' : Tiff.Tiff,
    Tiff.parseInteropBlock interopPending = OK t'
    /\ Tiff.ifd0 t' = Tiff.ifd0 interopPending
    /\ Tiff.exif t' = Tiff.exif interopPending
    /\ Tiff.view t' = Tiff.view interopPending.
Proof.
  assert (exists t', Tiff.parseInteropBlock interopPending = OK t') as [t' H]
    by (vm_compute; eexists; reflexivity).
  exists t'. split; [exact H|].
  destruct (block_parsers_assign_their_own_fields interopPending t' false)
    as (_ & _ & _ & Hassign & _).
  rewrite (Hassign H). repeat split.
Defined.

(** ** Which blocks a parse decodes *)

Lemma parseTags_kept (v : BufferView) (o : Options) (offset : Z) (m : Block) (code : Z) :
  TiffCore.parseTags v o offset = OK m ->
  is_Some (m !! Tag code) -> keeps o code = true.
Proof.
  unfold TiffCore.parseTags. intros H Hk.
  apply bind_OK in H as (n & _ & H).
  destruct (parseEntries_keys _ _ _ _ _ _ (Tag code) H Hk) as [Hin | (c & [= <-] & _ & Hc)].
  - rewrite lookup_empty in Hin. now destruct Hin.
  - exact Hc.
Qed.

Lemma jsOr_Some (a b : option Value) :
  is_Some (Tiff.jsOr a b) -> is_Some a \/ is_Some b.
Proof.
  unfold Tiff.jsOr. destruct a as [x|]; [|auto].
  destruct (Tiff.truthy x); eauto.
Qed.

Ltac no_block :=
  match goal with
  | H : is_Some None |- _ => let y := fresh in destruct H as [y H]; discriminate H
  end.

(** Closes the clauses of [decodedOnRequest] that follow from the clauses of
    the instance before. *)
Ltac settle :=
  repeat split; intros;
  cbn [Tiff.view Tiff.options Tiff.ifd0 Tiff.exif Tiff.gps Tiff.interop Tiff.thumbnail
       Tiff.ifd0Offset Tiff.exifOffset Tiff.interopOffset Tiff.gpsOffset
       Tiff.ifd1Offset Tiff.thumbnailParsed Tiff.output Tiff.create Tiff.exifInteropPointer
       Tiff.set_view Tiff.set_ifd0 Tiff.set_exif Tiff.set_gps
       Tiff.set_interop Tiff.set_thumbnail Tiff.set_ifd0Offset Tiff.set_exifOffset
       Tiff.set_interopOffset Tiff.set_gpsOffset Tiff.set_ifd1Offset
       Tiff.set_thumbnailParsed] in *;
  first [assumption | tauto | no_block | solve [eauto]].

Lemma create_decodedOnRequest (v v' : BufferView) (o : Options) :
  decodedOnRequest o (Tiff.set_view (Tiff.create v o) v').
Proof. unfold decodedOnRequest. settle. Qed.

Lemma parseIfd0Block_decodedOnRequest (o : Options) (t t' : Tiff.Tiff) :
  decodedOnRequest o t -> Tiff.parseIfd0Block t = OK t' -> decodedOnRequest o t'.
Proof.
  intros (Ho & He & Hg & Hi & Ht & Pe & Pg & Pi & Px). unfold Tiff.parseIfd0Block.
  destruct (Tiff.isSome _); [intros [= <-]; settle|].
  intros H. apply bind_OK in H as (off & _ & H).
  destruct (off <? 8); [discriminate H|].
  apply bind_OK in H as (tags & Htags & H).
  cbn [Tiff.view Tiff.options Tiff.set_ifd0Offset] in Htags. rewrite Ho in Htags.
  assert (forall code, is_Some (tags !! Tag code) -> keeps o code = true) as Hkept
    by (intros code; now apply (parseTags_kept _ _ _ _ _ Htags)).
  clear Htags.
  destruct (_ =? _)%nat; [injection H as <-; settle|].
  destruct (sanitize _); injection H as <-; settle.
Qed.

Lemma parseExifBlock_decodedOnRequest (o : Options) (t t' : Tiff.Tiff) :
  decodedOnRequest o t ->
  (if opt_exif (Tiff.options t) then Tiff.parseExifBlock t else OK t) = OK t' ->
  decodedOnRequest o t'.
Proof.
  intros (Ho & He & Hg & Hi & Ht & Pe & Pg & Pi & Px).
  destruct (opt_exif (Tiff.options t)) eqn:Eo; [|intros [= <-]; settle].
  unfold Tiff.parseExifBlock.
  destruct (Tiff.isSome _); [intros [= <-]; settle|].
  destruct (Tiff.exifOffset t) as [p|] eqn:Ep in |- *; [|intros [= <-]; settle].
  intros H. apply bind_OK in H as (off & _ & H).
  apply bind_OK in H as (tags & Htags & H). rewrite Ho in Htags, Eo.
  assert (forall code, is_Some (tags !! Tag code) -> keeps o code = true) as Hkept
    by (intros code; now apply (parseTags_kept _ _ _ _ _ Htags)).
  clear Htags.
  assert (keeps o TAG_IFD_EXIF = true) as Hk by (apply Pe; rewrite Ep; eauto).
  injection H as <-. unfold Tiff.exifInteropPointer in *. settle.
Qed.

Lemma parseGpsBlock_decodedOnRequest (o : Options) (t t' : Tiff.Tiff) :
  decodedOnRequest o t ->
  (if opt_gps (Tiff.options t) then Tiff.parseGpsBlock t else OK t) = OK t' ->
  decodedOnRequest o t'.
Proof.
  intros (Ho & He & Hg & Hi & Ht & Pe & Pg & Pi & Px).
  destruct (opt_gps (Tiff.options t)) eqn:Eo; [|intros [= <-]; settle].
  unfold Tiff.parseGpsBlock.
  destruct (Tiff.isSome _); [intros [= <-]; settle|].
  destruct (Tiff.gpsOffset t) as [p|] eqn:Ep in |- *; [|intros [= <-]; settle].
  intros H. apply bind_OK in H as (off & _ & H).
  apply bind_OK in H as (tags & _ & H). rewrite Ho in Eo.
  assert (keeps o TAG_IFD_GPS = true) as Hk by (apply Pg; rewrite Ep; eauto).
  injection H as <-. unfold Tiff.exifInteropPointer in *. settle.
Qed.

Lemma parseInteropBlock_decodedOnRequest (o : Options) (t t' : Tiff.Tiff) :
  decodedOnRequest o t ->
  (if opt_interop (Tiff.options t) then Tiff.parseInteropBlock t else OK t) = OK t' ->
  decodedOnRequest o t'.
Proof.
  intros (Ho & He & Hg & Hi & Ht & Pe & Pg & Pi & Px).
  destruct (opt_interop (Tiff.options t)) eqn:Eo; [|intros [= <-]; settle].
  unfold Tiff.parseInteropBlock.
  destruct (Tiff.isSome _); [intros [= <-]; settle|].
  cbn [Tiff.interopOffset Tiff.set_interopOffset Tiff.view Tiff.options].
  assert (is_Some (Tiff.jsOr (Tiff.interopOffset t) (Tiff.exifInteropPointer t)) ->
          keeps o TAG_IFD_INTEROP = true) as Pj
    by (intros Hj; apply jsOr_Some in Hj as [Hj | Hj]; auto).
  rewrite Ho in Eo.
  destruct (Tiff.jsOr _ _) as [p|] eqn:Ep in |- *.
  - intros H. apply bind_OK in H as (off & _ & H).
    apply bind_OK in H as (tags & _ & H).
    assert (keeps o TAG_IFD_INTEROP = true) as Hk by (apply Pj; rewrite Ep; eauto).
    injection H as <-. unfold Tiff.exifInteropPointer in *. settle.
  - intros [= <-]. unfold Tiff.exifInteropPointer in *. settle.
Qed.

Lemma parseThumbnailBlock_decodedOnRequest (o : Options) (t t' : Tiff.Tiff) :
  decodedOnRequest o t ->
  (if opt_thumbnail (Tiff.options t)
   then let* r := Tiff.parseThumbnailBlock false t in OK (fst r)
   else OK t) = OK t' ->
  decodedOnRequest o t'.
Proof.
  intros (Ho & He & Hg & Hi & Ht & Pe & Pg & Pi & Px).
  destruct (opt_thumbnail (Tiff.options t)) eqn:Eo; [|intros [= <-]; settle].
  intros H. apply bind_OK in H as ([t5 r] & H & [= <-]).
  unfold Tiff.parseThumbnailBlock in H.
  destruct (_ || _); [injection H as <- <-; settle|].
  destruct (mergeOutput (Tiff.options t)) eqn:Em; cbn [andb negb] in H;
    [injection H as <- <-; settle|].
  apply bind_OK in H as (base & _ & H).
  apply bind_OK in H as (n & _ & H).
  apply bind_OK in H as (p & _ & H). rewrite Ho in Eo, Em.
  destruct (p =? 0); [injection H as <- <-; unfold Tiff.exifInteropPointer in *; settle|].
  apply bind_OK in H as (tags & _ & H). injection H as <- <-.
  unfold Tiff.exifInteropPointer in *. settle.
Qed.

(** X11: on a new instance [parse] decodes the EXIF, GPS and Interop blocks
    only when the block is requested and its pointer tag passes the
    inclusion test (a skipped pointer tag leaves its block undecoded), and
    the thumbnail block only when it is requested without [mergeOutput]. *)
Theorem blocks_need_request_and_kept_pointer
    (v : BufferView) (o : Options) (t : Tiff.Tiff) :
  Tiff.parseBlocks (Tiff.create v o) = OK t ->
  (is_Some (Tiff.exif t) -> opt_exif o = true /\ keeps o TAG_IFD_EXIF = true)
  /\ (is_Some (Tiff.gps t) -> opt_gps o = true /\ keeps o TAG_IFD_GPS = true)
  /\ (is_Some (Tiff.interop t) -> opt_interop o = true /\ keeps o TAG_IFD_INTEROP = true)
  /\ (is_Some (Tiff.thumbnail t) -> opt_thumbnail o = true /\ mergeOutput o = false).
Proof.
  unfold Tiff.parseBlocks. intros H.
  apply bind_OK in H as (v' & _ & H).
  apply bind_OK in H as (t1 & H1 & H).
  apply bind_OK in H as (t2 & H2 & H).
  apply bind_OK in H as (t3 & H3 & H).
  apply bind_OK in H as (t4 & H4 & H).
  pose proof (create_decodedOnRequest v v' o) as I.
  apply (parseIfd0Block_decodedOnRequest _ _ _ I) in H1.
  apply (parseExifBlock_decodedOnRequest _ _ _ H1) in H2.
  apply (parseGpsBlock_decodedOnRequest _ _ _ H2) in H3.
  apply (parseInteropBlock_decodedOnRequest _ _ _ H3) in H4.
  apply (parseThumbnailBlock_decodedOnRequest _ _ _ H4) in H.
  destruct H as (_ & He & Hg & Hi & Ht & _). auto.
Qed.

Lemma blocks_need_request_and_kept_pointer_witness :
  exists t : Tiff.Tiff,
    Tiff.parseBlocks (Tiff.create withThumbnail skippingPointers) = OK t
    /\ Tiff.exif t = None.
Proof.
  assert (exists t, Tiff.parseBlocks (Tiff.create withThumbnail skippingPointers) = OK t)
    as [t H] by (vm_compute; eexists; reflexivity).
  exists t. split; [exact H|].
  destruct (blocks_need_request_and_kept_pointer _ _ _ H) as (He & _).
  destruct (Tiff.exif t) as [e|]; [|reflexivity].
  destruct He as [_ Hk]; [eauto|]. vm_compute in Hk. discriminate Hk.
Defined.

(** ** Recognizing the segment *)

Lemma byteVal_inj (a b : byte) : byteVal a = byteVal b -> a = b.
Proof.
  unfold byteVal. intros H. apply N2Z.inj in H.
  pose proof (Byte.of_to_N a) as Ha. rewrite H, Byte.of_to_N in Ha. congruence.
Qed.

Lemma byteVal_is (a : byte) (n : Z) (b : byte) :
  byteVal b = n -> byteVal a = n -> a = b.
Proof. intros <- H. now apply byteVal_inj. Qed.

Lemma bytes_of_length (v : BufferView) (off n : Z) (bs : list byte) :
  getBytes v off n = OK bs -> List.length bs = Z.to_nat n.
Proof. intros H. now apply getBytes_OK in H. Qed.

(** X12: on a view read in big-endian order, [canHandle] answers [true]
    exactly when the byte at [offset + 1] is 0xE1, the bytes at
    [offset + 4] are [Exif] and the two bytes at [offset + 8] are NUL. *)
Theorem canHandle_recognizes_exif_segment (v : BufferView) (offset : Z) :
  le v = false ->
  Tiff.canHandle v offset = OK true
  <-> getBytes v (offset + 1) 1 = OK [xe1]
      /\ getBytes v (offset + 4) 4 = OK ["E"; "x"; "i"; "f"]%byte
      /\ getBytes v (offset + 8) 2 = OK [x00; x00].
Proof.
  intros Hle. unfold Tiff.canHandle, getUint8, getUint16, getUint32. rewrite Hle. split.
  - intros H.
    apply bind_OK in H as (marker & Hm & H). apply bind_OK in Hm as (b1 & Hb1 & [= <-]).
    destruct (_ =? 225) eqn:E1; cbn [negb] in H; [|discriminate H].
    apply bind_OK in H as (sig & Hs & H). apply bind_OK in Hs as (b4 & Hb4 & [= <-]).
    destruct (_ =? 1165519206) eqn:E4; cbn [negb] in H; [|discriminate H].
    apply bind_OK in H as (z & Hz & H). apply bind_OK in Hz as (b2 & Hb2 & [= <-]).
    injection H as H.
    apply Z.eqb_eq in E1, E4, H.
    pose proof (bytes_of_length _ _ _ _ Hb1) as L1.
    pose proof (bytes_of_length _ _ _ _ Hb4) as L4.
    pose proof (bytes_of_length _ _ _ _ Hb2) as L2.
    change (Z.to_nat 1) with 1%nat in L1. change (Z.to_nat 4) with 4%nat in L4.
    change (Z.to_nat 2) with 2%nat in L2.
    destruct b1 as [|a1 [|? ?]]; try discriminate L1.
    destruct b4 as [|c1 [|c2 [|c3 [|c4 [|? ?]]]]]; try discriminate L4.
    destruct b2 as [|d1 [|d2 [|? ?]]]; try discriminate L2.
    cbn [uintOf uintLE rev app] in E1, E4, H.
    pose proof (byteVal_range a1). pose proof (byteVal_range c1).
    pose proof (byteVal_range c2). pose proof (byteVal_range c3).
    pose proof (byteVal_range c4). pose proof (byteVal_range d1).
    pose proof (byteVal_range d2).
    rewrite Hb1, Hb4, Hb2.
    rewrite (byteVal_is a1 225 xe1), (byteVal_is c1 69 "E"%byte),
      (byteVal_is c2 120 "x"%byte), (byteVal_is c3 105 "i"%byte),
      (byteVal_is c4 102 "f"%byte), (byteVal_is d1 0 x00), (byteVal_is d2 0 x00);
      try reflexivity; try lia.
    repeat split.
  - intros (-> & -> & ->). reflexivity.
Qed.

Lemma canHandle_recognizes_exif_segment_witness :
  Tiff.canHandle app1Segment 0 = OK true.
Proof.
  apply (canHandle_recognizes_exif_segment app1Segment 0 eq_refl).
  repeat split.
Defined.

(** ** Extracting the thumbnail *)

Lemma parseThumbnailBlock_forced_setMerge (t : Tiff.Tiff) (b : bool) :
  Tiff.parseThumbnailBlock true (setMerge t b)
  = let* r := Tiff.parseThumbnailBlock true t in OK (setMerge (fst r) b, snd r).
Proof.
  unfold Tiff.parseThumbnailBlock. tiff_fields. cbn [negb]. rewrite !andb_false_r.
  destruct (_ || _); [reflexivity|].
  destruct (Tiff.asOffset _) as [base|e]; cbn [bind]; [|reflexivity].
  destruct (getUint16 _ base) as [n|e]; cbn [bind]; [|reflexivity].
  destruct (getUint32 _ _) as [p|e]; cbn [bind]; [|reflexivity].
  destruct (p =? 0); [reflexivity|].
  rewrite parseTags_withMerge.
  now destruct (TiffCore.parseTags _ _ p).
Qed.

(** X13: [extractThumbnail] does not depend on [mergeOutput]: it forces the
    thumbnail parser, so the thumbnail directory that [parse] leaves
    undecoded under [mergeOutput] is decoded all the same. *)
Theorem extractThumbnail_ignores_mergeOutput (t : Tiff.Tiff) (b : bool) :
  Tiff.extractThumbnail (setMerge t b)
  = let* r := Tiff.extractThumbnail t in OK (setMerge (fst r) b, snd r).
Proof.
  unfold Tiff.extractThumbnail.
  change (Tiff.view (setMerge t b)) with (Tiff.view t).
  destruct (TiffCore.parseHeader (Tiff.view t)) as [v|e]; cbn [bind]; [|reflexivity].
  change (Tiff.set_view (setMerge t b) v) with (setMerge (Tiff.set_view t v) b).
  set (t0 := Tiff.set_view t v).
  change (Tiff.ifd0 (setMerge t0 b)) with (Tiff.ifd0 t0).
  assert ((if negb (Tiff.isSome (Tiff.ifd0 t0)) then Tiff.parseIfd0Block (setMerge t0 b)
           else OK (setMerge t0 b))
          = let* t' := (if negb (Tiff.isSome (Tiff.ifd0 t0)) then Tiff.parseIfd0Block t0
                        else OK t0)
            in OK (setMerge t' b)) as ->
    by (destruct (negb _); [apply parseIfd0Block_setMerge | reflexivity]).
  destruct (if negb (Tiff.isSome (Tiff.ifd0 t0)) then _ else _) as [t1|e]; cbn [bind];
    [|reflexivity].
  change (Tiff.thumbnailParsed (setMerge t1 b)) with (Tiff.thumbnailParsed t1).
  destruct (negb (Tiff.thumbnailParsed t1)).
  - rewrite parseThumbnailBlock_forced_setMerge.
    destruct (Tiff.parseThumbnailBlock true t1) as [[t2 r]|e]; cbn [bind fst]; [|reflexivity].
    change (Tiff.thumbnail (setMerge t2 b)) with (Tiff.thumbnail t2).
    now destruct (Tiff.thumbnail t2).
  - cbn [bind]. change (Tiff.thumbnail (setMerge t1 b)) with (Tiff.thumbnail t1).
    now destruct (Tiff.thumbnail t1).
Qed.

(** The thumbnail of [withThumbnail] is extracted after a parse with
    [mergeOutput], which has left the thumbnail block undecoded. *)
Example thumbnail_extracted_after_merged_parse :
  (let* r := Tiff.parse noEnrichment (Tiff.create withThumbnail (allBlocks true false)) in
   let* x := Tiff.extractThumbnail (fst r) in
   OK (Tiff.thumbnail (fst r), snd x))
  = OK (None, Some {| Tiff.rangeOffset := Some (VInt 7); Tiff.rangeLength := None |}).
Proof. vm_compute. reflexivity. Qed.

Lemma set_view_same (t : Tiff.Tiff) : Tiff.set_view t (Tiff.view t) = t.
Proof. now destruct t. Qed.

(** X14: extracting the thumbnail a second time decodes nothing again: it
    returns the same range and leaves the instance as the first extraction
    left it. *)
Theorem extractThumbnail_repeats (t t' : Tiff.Tiff) (r : option Tiff.SubRange) :
  Tiff.extractThumbnail t = OK (t', r) ->
  Tiff.extractThumbnail t' = OK (t', r).
Proof.
  unfold Tiff.extractThumbnail at 1. intros H.
  apply bind_OK in H as (v & Hv & H).
  apply bind_OK in H as (t1 & H1 & H).
  apply bind_OK in H as (t2 & H2 & H).
  assert (Tiff.view t1 = v /\ Tiff.isSome (Tiff.ifd0 t1) = true) as [V1 I1].
  { destruct (Tiff.isSome (Tiff.ifd0 (Tiff.set_view t v))) eqn:E; cbn [negb] in H1.
    - injection H1 as <-. now split.
    - split; [|eapply parseIfd0Block_populates, H1].
      apply parseIfd0Block_assigns in H1. now rewrite H1. }
  assert (Tiff.view t2 = v /\ Tiff.ifd0 t2 = Tiff.ifd0 t1
          /\ (Tiff.thumbnailParsed t2 = false ->
              exists r', Tiff.parseThumbnailBlock true t2 = OK (t2, r')))
    as (V2 & I2 & P2).
  { destruct (Tiff.thumbnailParsed t1) eqn:E; cbn [negb] in H2.
    - injection H2 as <-. repeat split; [assumption | congruence].
    - apply bind_OK in H2 as ([t2' r2] & H2 & [= <-]).
      pose proof (parseThumbnailBlock_again _ _ _ _ H2) as Hagain.
      apply parseThumbnailBlock_assigns in H2.
      repeat split; [now rewrite H2 | now rewrite H2 | auto]. }
  assert (t' = t2) as -> by (destruct (Tiff.thumbnail t2); now injection H as <-).
  assert (Tiff.set_view t2 v = t2) as S2 by (rewrite <- V2; apply set_view_same).
  unfold Tiff.extractThumbnail. rewrite V2.
  rewrite (parseHeader_again _ _ Hv). cbn [bind].
  rewrite S2, I2, I1. cbn [negb bind].
  destruct (Tiff.thumbnailParsed t2) eqn:E; cbn [negb bind]; [exact H|].
  destruct (P2 eq_refl) as (r' & ->). cbn [bind fst]. exact H.
Qed.

Lemma extractThumbnail_repeats_witness :
  exists (t' : Tiff.Tiff) (r : option Tiff.SubRange),
    Tiff.extractThumbnail (Tiff.create withThumbnail (allBlocks true false)) = OK (t', r)
    /\ Tiff.extractThumbnail t' = OK (t', r).
Proof.
  assert (exists t' r,
             Tiff.extractThumbnail (Tiff.create withThumbnail (allBlocks true false))
             = OK (t', r)) as (t' & r & H)
    by (vm_compute; eexists _, _; reflexivity).
  exists t', r. split; [exact H|].
  exact (extractThumbnail_repeats _ _ _ H).
Defined.

(** ** Sanitizing, through a whole parse *)

Lemma parseEntries_withSanitize (v : BufferView) (o : Options) (b : bool) (n : nat) :
  forall (offset : Z) (output : Block),
    TiffCore.parseEntries v (withSanitize o b) n offset output
    = TiffCore.parseEntries v o n offset output.
Proof.
  induction n as [|n IH]; intros offset output; cbn [TiffCore.parseEntries]; [reflexivity|].
  destruct (getUint16 v offset) as [tag|e]; cbn [bind]; [|reflexivity].
  cbn [withSanitize pickTags skipTags].
  destruct (_ || _).
  - destruct (TiffCore.parseTag v offset); cbn [bind]; [apply IH | reflexivity].
  - cbn [bind]. apply IH.
Qed.

Lemma parseTags_withSanitize (v : BufferView) (o : Options) (b : bool) (offset : Z) :
  TiffCore.parseTags v (withSanitize o b) offset = TiffCore.parseTags v o offset.
Proof.
  unfold TiffCore.parseTags.
  destruct (getUint16 v offset); cbn [bind]; [apply parseEntries_withSanitize | reflexivity].
Qed.

Ltac sanitize_fields :=
  cbn [sanitized setSanitize withSanitize
       Tiff.view Tiff.options Tiff.ifd0 Tiff.exif Tiff.gps Tiff.interop Tiff.thumbnail
       Tiff.ifd0Offset Tiff.exifOffset Tiff.interopOffset Tiff.gpsOffset
       Tiff.ifd1Offset Tiff.thumbnailParsed Tiff.output
       Tiff.set_view Tiff.set_options Tiff.set_ifd0 Tiff.set_exif Tiff.set_gps
       Tiff.set_interop Tiff.set_thumbnail Tiff.set_ifd0Offset Tiff.set_exifOffset
       Tiff.set_interopOffset Tiff.set_gpsOffset Tiff.set_ifd1Offset
       Tiff.set_thumbnailParsed Tiff.set_output
       pickTags skipTags opt_exif opt_gps opt_interop opt_thumbnail
       mergeOutput sanitize opt_postProcess translateTags reviveValues].

Lemma parseIfd0Block_sanitized (t : Tiff.Tiff) :
  Tiff.ifd0 t = None ->
  Tiff.parseIfd0Block (setSanitize t true)
  = let* t' := Tiff.parseIfd0Block (setSanitize t false) in OK (sanitized t').
Proof.
  intros Hnone. unfold Tiff.parseIfd0Block. sanitize_fields. rewrite Hnone.
  cbn [Tiff.isSome].
  destruct (getUint32 (Tiff.view t) 4) as [off|e]; cbn [bind]; [|reflexivity].
  destruct (off <? 8); [reflexivity|].
  rewrite !parseTags_withSanitize.
  destruct (TiffCore.parseTags _ _ off) as [tags|e]; cbn [bind]; [|reflexivity].
  destruct (size tags =? 0)%nat eqn:E; [|reflexivity].
  apply Nat.eqb_eq, map_size_empty_iff in E. subst tags.
  cbn [bind].
  unfold sanitized, setSanitize, Tiff.set_ifd0, Tiff.set_ifd0Offset, Tiff.set_options.
  sanitize_fields. cbn [fmap option_fmap option_map]. unfold withoutPointers.
  now rewrite !delete_empty.
Qed.

Lemma parseExifBlock_sanitized (t : Tiff.Tiff) :
  Tiff.parseExifBlock (sanitized t) = let* t' := Tiff.parseExifBlock t in OK (sanitized t').
Proof.
  unfold Tiff.parseExifBlock. sanitize_fields.
  destruct (Tiff.isSome (Tiff.exif t)); [reflexivity|].
  destruct (Tiff.exifOffset t) as [p|]; [|reflexivity].
  destruct (Tiff.asOffset (Some p)) as [off|e]; cbn [bind]; [|reflexivity].
  rewrite parseTags_withSanitize.
  now destruct (TiffCore.parseTags _ _ off).
Qed.

Lemma parseGpsBlock_sanitized (t : Tiff.Tiff) :
  Tiff.parseGpsBlock (sanitized t) = let* t' := Tiff.parseGpsBlock t in OK (sanitized t').
Proof.
  unfold Tiff.parseGpsBlock. sanitize_fields.
  destruct (Tiff.isSome (Tiff.gps t)); [reflexivity|].
  destruct (Tiff.gpsOffset t) as [p|]; [|reflexivity].
  destruct (Tiff.asOffset (Some p)) as [off|e]; cbn [bind]; [|reflexivity].
  rewrite parseTags_withSanitize.
  now destruct (TiffCore.parseTags _ _ off).
Qed.

Lemma parseInteropBlock_sanitized (t : Tiff.Tiff) :
  Tiff.parseInteropBlock (sanitized t)
  = let* t' := Tiff.parseInteropBlock t in OK (sanitized t').
Proof.
  unfold Tiff.parseInteropBlock, Tiff.exifInteropPointer. sanitize_fields.
  destruct (Tiff.isSome (Tiff.interop t)); [reflexivity|].
  destruct (Tiff.jsOr _ _) as [p|]; [|reflexivity].
  destruct (Tiff.asOffset (Some p)) as [off|e]; cbn [bind]; [|reflexivity].
  rewrite parseTags_withSanitize.
  now destruct (TiffCore.parseTags _ _ off).
Qed.

Lemma parseThumbnailBlock_sanitized (force : bool) (t : Tiff.Tiff) :
  Tiff.parseThumbnailBlock force (sanitized t)
  = let* r := Tiff.parseThumbnailBlock force t in OK (sanitized (fst r), snd r).
Proof.
  unfold Tiff.parseThumbnailBlock. sanitize_fields.
  destruct (_ || _); [reflexivity|].
  destruct (_ && _); [reflexivity|].
  destruct (Tiff.asOffset _) as [base|e]; cbn [bind]; [|reflexivity].
  destruct (getUint16 _ base) as [n|e]; cbn [bind]; [|reflexivity].
  destruct (getUint32 _ _) as [p|e]; cbn [bind]; [|reflexivity].
  destruct (p =? 0); [reflexivity|].
  rewrite parseTags_withSanitize.
  now destruct (TiffCore.parseTags _ _ p).
Qed.

(** One guarded call of [parse] on the sanitized instance. *)
Lemma guarded_call_sanitized (flag : Options -> bool) (op : Tiff.Tiff -> result Tiff.Tiff)
    (t : Tiff.Tiff) :
  (forall u, op (sanitized u) = let* u' := op u in OK (sanitized u')) ->
  flag (Tiff.options (sanitized t)) = flag (Tiff.options t) ->
  (if flag (Tiff.options (sanitized t)) then op (sanitized t) else OK (sanitized t))
  = let* t' := (if flag (Tiff.options t) then op t else OK t) in OK (sanitized t').
Proof. intros Hop ->. destruct (flag _); [apply Hop | reflexivity]. Qed.

(** X15: [sanitize] changes nothing of a parse but the emitted [ifd0]: from
    an instance whose IFD0 is not decoded yet, the parse with [sanitize]
    fails as the parse without it does, and otherwise ends in the instance
    of that parse (the same EXIF, GPS, Interop and thumbnail blocks, the same
    captured offsets) with the three pointer tags taken out of [ifd0]. *)
Theorem sanitize_only_hides_pointer_tags (t : Tiff.Tiff) :
  Tiff.ifd0 t = None ->
  Tiff.parseBlocks (setSanitize t true)
  = let* t' := Tiff.parseBlocks (setSanitize t false) in OK (sanitized t').
Proof.
  intros Hnone. unfold Tiff.parseBlocks.
  change (Tiff.view (setSanitize t true)) with (Tiff.view t).
  change (Tiff.view (setSanitize t false)) with (Tiff.view t).
  destruct (TiffCore.parseHeader (Tiff.view t)) as [v|e]; cbn [bind]; [|reflexivity].
  change (Tiff.set_view (setSanitize t true) v) with (setSanitize (Tiff.set_view t v) true).
  change (Tiff.set_view (setSanitize t false) v) with (setSanitize (Tiff.set_view t v) false).
  rewrite (parseIfd0Block_sanitized (Tiff.set_view t v)) by exact Hnone.
  destruct (Tiff.parseIfd0Block _) as [t1|e]; cbn [bind]; [|reflexivity].
  rewrite (guarded_call_sanitized opt_exif Tiff.parseExifBlock t1 parseExifBlock_sanitized)
    by reflexivity.
  destruct (if opt_exif (Tiff.options t1) then _ else _) as [t2|e]; cbn [bind]; [|reflexivity].
  rewrite (guarded_call_sanitized opt_gps Tiff.parseGpsBlock t2 parseGpsBlock_sanitized)
    by reflexivity.
  destruct (if opt_gps (Tiff.options t2) then _ else _) as [t3|e]; cbn [bind]; [|reflexivity].
  rewrite (guarded_call_sanitized opt_interop Tiff.parseInteropBlock t3
             parseInteropBlock_sanitized) by reflexivity.
  destruct (if opt_interop (Tiff.options t3) then _ else _) as [t4|e]; cbn [bind];
    [|reflexivity].
  change (opt_thumbnail (Tiff.options (sanitized t4))) with (opt_thumbnail (Tiff.options t4)).
  destruct (opt_thumbnail (Tiff.options t4)); [|reflexivity].
  rewrite parseThumbnailBlock_sanitized.
  now destruct (Tiff.parseThumbnailBlock false t4) as [[t5 r]|e].
Qed.

Lemma sanitize_only_hides_pointer_tags_witness :
  (let* t := Tiff.parseBlocks (setSanitize (Tiff.create withThumbnail (allBlocks false false)) true)
   in OK (Tiff.ifd0 t, Tiff.exif t))
  = OK (Some {[ Tag 0x0100 := VInt 640 ]}, Some {[ Tag 0x0100 := VInt 2 ]}).
Proof.
  rewrite (sanitize_only_hides_pointer_tags
             (Tiff.create withThumbnail (allBlocks false false)) eq_refl).
  vm_compute. reflexivity.
Defined.

(** ** Null terminators, again *)

Lemma nuls_app (a b : nat) : String.append (nuls a) (nuls b) = nuls (a + b).
Proof.
  induction a as [|a IH]; [reflexivity|].
  cbn [nuls Nat.add]. now rewrite append_cons, IH.
Qed.

Lemma removeNullTerminator_spec (s : string) :
  exists k : nat,
    s = String.append (TiffCore.removeNullTerminator s) (nuls k)
    /\ TiffCore.endsWith (TiffCore.removeNullTerminator s) zero = false.
Proof. apply stripLoop_spec. lia. Qed.

(** X16: the text an ASCII entry decodes to does not depend on its NUL
    padding: the text with any number of NULs appended decodes to the same
    string; a text of NULs only decodes to the empty string; a text that
    does not end in NUL decodes to itself, so removing the terminators twice
    is removing them once. *)
Theorem null_padding_is_irrelevant (s : string) (k : nat) :
  TiffCore.removeNullTerminator (String.append s (nuls k)) = TiffCore.removeNullTerminator s
  /\ TiffCore.removeNullTerminator (nuls k) = EmptyString
  /\ (TiffCore.endsWith s zero = false -> TiffCore.removeNullTerminator s = s)
  /\ TiffCore.removeNullTerminator (TiffCore.removeNullTerminator s)
     = TiffCore.removeNullTerminator s.
Proof.
  assert (forall u, TiffCore.endsWith u zero = false -> TiffCore.removeNullTerminator u = u)
    as Hfix.
  { intros u Hu. destruct (removeNullTerminator_spec u) as (j & Hj & Hend).
    apply (strip_unique _ _ j 0); [|assumption..].
    cbn [nuls]. now rewrite append_empty_r. }
  assert (forall u j, TiffCore.removeNullTerminator (String.append u (nuls j))
                      = TiffCore.removeNullTerminator u) as Hpad.
  { intros u j.
    destruct (removeNullTerminator_spec (String.append u (nuls j))) as (a & Ha & Hea).
    destruct (removeNullTerminator_spec u) as (b & Hb & Heb).
    apply (strip_unique _ _ a (b + j)); [|assumption..].
    rewrite <- Ha, <- nuls_app, <- append_assoc, <- Hb. reflexivity. }
  split; [apply Hpad|]. split; [|split; [apply Hfix|]].
  - change (nuls k) with (String.append EmptyString (nuls k)). now rewrite Hpad.
  - apply Hfix. now destruct (removeNullTerminator_spec s) as (j & _ & Hend).
Qed.

Lemma null_padding_is_irrelevant_witness :
  TiffCore.removeNullTerminator "ab" = "ab"%string.
Proof.
  apply (proj1 (proj2 (proj2 (null_padding_is_irrelevant "ab" 0)))).
  reflexivity.
Defined.

(** ** Where a decoded value lies *)

Lemma readEach_OK_in_view (v : BufferView) (type width : Z) (places : list Z) :
  SIZE_LOOKUP type = Some width ->
  forall xs : list Value,
    readEach v type places = OK xs ->
    List.Forall (fun p => 0 <= p /\ p + width <= byteLength v) places.
Proof.
  intros Hw. induction places as [|p rest IH]; intros xs H; [constructor|].
  cbn [readEach] in H.
  apply bind_OK in H as (x & Hx & H). apply bind_OK in H as (ys & Hys & _).
  constructor; [now apply (parseTagValue_OK_in_view v type width p x) | eapply IH, Hys].
Qed.

Lemma contiguous_last (loc width : Z) (n : nat) :
  In (loc + width * Z.of_nat n) (contiguous loc width (S n)).
Proof.
  unfold contiguous. apply in_map_iff. exists n. split; [reflexivity|].
  apply in_seq. lia.
Qed.

(** X17: when an entry of a recognized type decodes, all the bytes of its
    value, [count] values of the width of the type from the place of the
    value on, lie in the view. *)
Theorem decoded_value_lies_in_view
    (v : BufferView) (offset type count width valueOffset : Z) (x : Value) :
  getUint16 v (offset + 2) = OK type ->
  getUint32 v (offset + 4) = OK count ->
  SIZE_LOOKUP type = Some width ->
  (if width * count <=? 4 then OK (offset + 8) else getUint32 v (offset + 8))
    = OK valueOffset ->
  TiffCore.parseTag v offset = OK x ->
  0 <= valueOffset /\ valueOffset + width * count <= byteLength v.
Proof.
  intros Htype Hcount Hw Hloc H.
  pose proof (getUint32_OK _ _ _ Hcount) as (Hoff & Hend & Hc).
  pose proof (SIZE_LOOKUP_Some _ _ Hw) as (_ & Hwidth).
  rewrite (parseTag_at v offset type count width valueOffset Htype Hcount Hw Hloc) in H.
  destruct (valueOffset >? bufferByteLength v); [discriminate H|].
  unfold tagValueAt in H.
  destruct (type =? 2) eqn:E2.
  { apply Z.eqb_eq in E2. subst type. injection Hw as <-.
    apply bind_OK in H as (s & Hs & _). unfold getString in Hs.
    apply bind_OK in Hs as (bs & Hbs & _). apply getBytes_OK in Hbs. lia. }
  destruct (type =? 7) eqn:E7.
  { apply Z.eqb_eq in E7. subst type. injection Hw as <-.
    apply bind_OK in H as (bs & Hbs & _). apply getBytes_OK in Hbs. lia. }
  destruct (count =? 1) eqn:E1.
  { apply Z.eqb_eq in E1. subst count.
    apply (parseTagValue_OK_in_view v type width valueOffset x Hw) in H. lia. }
  apply bind_OK in H as (xs & Hxs & _).
  apply (readEach_OK_in_view v type width _ Hw) in Hxs.
  destruct (Z.to_nat count) as [|n] eqn:En.
  - assert (count = 0) as -> by lia. rewrite Z.mul_0_r in Hloc |- *.
    cbn in Hloc. injection Hloc as <-. lia.
  - rewrite List.Forall_forall in Hxs.
    pose proof (Hxs _ (contiguous_last valueOffset width n)) as Hlast.
    assert (In valueOffset (contiguous valueOffset width (S n))) as Hfirst
      by (rewrite contiguous_S; now left).
    apply Hxs in Hfirst.
    replace count with (Z.of_nat (S n)) by lia. nia.
Qed.

Lemma decoded_value_lies_in_view_witness :
  0 <= 12 /\ 12 + 2 * 3 <= byteLength threeShorts.
Proof.
  apply (decoded_value_lies_in_view threeShorts 0 3 3 2 12 (VArray [VInt 1; VInt 2; VInt 3])).
  - vm_compute. reflexivity.
  - vm_compute. reflexivity.
  - reflexivity.
  - vm_compute. reflexivity.
  - vm_compute. reflexivity.
Defined.
